(** * go-context-propagate: analysis and transformation engine

    A shallow embedding of the two phases of the [propagate] package:
    the analysis of the call graph ([analyze], [processLeafCalls],
    [collect], [collectFnDef], [collectIfaces], [collectNamedTypes]) and
    the rewriting of the syntax trees ([transform], [astRewrite],
    [rewriteCallSite], [addImports]).

    The engine consumes data produced by libraries that are not part of
    the package: typed syntax trees ([go/ast]), types ([go/types]), the SSA
    form and the call graph ([x/tools/go/ssa], [x/tools/go/callgraph]).
    These appear here as plain data: inductive types for syntax and types,
    records for functions, nodes and edges, identifiers where the Go code
    compares pointers. *)

From stdpp Require Import gmap strings list fin_maps.
From Stdlib Require Import ZArith Lia Ascii.

Set Warnings "-register-all".

Open Scope string_scope.
Open Scope list_scope.
Open Scope stdpp_scope.
Open Scope Z_scope.

(** ** Strings ([strings] package of the Go library) *)

Module Strs.

(** [strings.HasPrefix]. *)
Definition HasPrefix (s pre : string) : bool := String.prefix pre s.

(** [strings.Contains]: [sub] occurs somewhere in [s]. *)
Fixpoint Contains (s sub : string) : bool :=
if String.prefix sub s then true
else match s with
     | EmptyString => false
     | String _ s' => Contains s' sub
     end.

(** [strings.ReplaceAll] for a non-empty [old]: non-overlapping
  occurrences are replaced from left to right.  [skip] counts the
  characters of the current occurrence that remain to be dropped. *)
Fixpoint replaceFrom (old new s : string) (skip : nat) : string :=
match s with
| EmptyString => EmptyString
| String c s' =>
    match skip with
    | S k => replaceFrom old new s' k
    | O =>
        if String.prefix old s
        then new +:+ replaceFrom old new s' (String.length old - 1)%nat
        else String c (replaceFrom old new s' O)
    end
end.

(** With an empty [old], Go inserts [new] before every character and at
  the end. *)
Fixpoint intersperse (new s : string) : string :=
match s with
| EmptyString => new
| String c s' => new +:+ String c (intersperse new s')
end.

Definition ReplaceAll (s old new : string) : string :=
match old with
| EmptyString => intersperse new s
| _ => replaceFrom old new s O
end.

(** [strings.TrimPrefix]. *)
Definition TrimPrefix (s pre : string) : string :=
if String.prefix pre s
then String.substring (String.length pre) (String.length s - String.length pre) s
else s.

(** [strings.ContainsAny] for a one-character set. *)
Fixpoint ContainsChar (s : string) (c : ascii) : bool :=
match s with
| EmptyString => false
| String d s' => if Ascii.eqb c d then true else ContainsChar s' c
end.

Definition eqb (a b : string) : bool := bool_decide (a = b).

End Strs.

(** ** Constants *)

(** The wildcards of the configuration file. *)
Definition ctxWildcard : string := "<?CTX?>".
Definition ctxCustomWildcard : string := "<?CTX_CUSTOM?>".
Definition ctxPrefWildcard : string := "<?CTX_PREF?>".
Definition aliasWildCard : string := "<?ALIAS1?>".

Definition testingTypeT : string := "*testing.T".
Definition testingTypeM : string := "*testing.M".

(** The function classes stored in [fnVisited] ([iota] constants). *)
Inductive fnClass : Type :=
| regularFn | freshCtxFn | containerSig | extFn | extPkg | extRecv.

Global Instance fnClass_eq_dec : EqDecision fnClass.
Proof. solve_decision. Defined.

(** ** Outcomes

    [log.Fatalf] ends the run; a nil dereference or a dangling reference
    panics; the recursion of the analysis is bounded by fuel. *)

Inductive fatal : Type :=
| FatalRootChanged        (* root note of rewritten AST unexpectedly changed *)
| FatalDeclNoBody         (* adding artificial context to function declaration with no body *)
| FatalLitNoBody          (* adding artificial context to function literal with no body *)
| FatalUnrecognizedCall   (* unrecognized call expression when rewriting AST *)
| FatalArgPosBeyond       (* context argument in a position beyond the last function parameter *)
| FatalOneImportOnly      (* currently only supporting one custom import per library call *)
| FatalAliasPlaceholder   (* alias placeholder exists without alias itself being defined *)
| FatalNoInvalidCtx       (* artificial context expression must be specified *)
| FatalCustomCtxOptions   (* either all or none of the custom context options *)
| FatalEmptyType          (* unexpected empty type in config file *)
| FatalPointerType        (* unexpected multiple level pointer type in config file *)
| FatalArgResults         (* function call argument has more than one return value *)
| FatalUnrecognizedArg.   (* unrecognized argument for parameter of type function/interface *)

Global Instance fatal_eq_dec : EqDecision fatal.
Proof. solve_decision. Defined.

Inductive outcome (A : Type) : Type :=
| Done (a : A)
| Fatal (f : fatal)
| Panic
| OutOfFuel.

Arguments Done {A} a.
Arguments Fatal {A} f.
Arguments Panic {A}.
Arguments OutOfFuel {A}.

(** State passing with outcomes. *)
Definition M (S A : Type) : Type := S -> outcome (A * S).

Definition ret {S A} (a : A) : M S A := fun s => Done (a, s).

Definition bind {S A B} (m : M S A) (k : A -> M S B) : M S B :=
  fun s => match m s with
           | Done (a, s') => k a s'
           | Fatal f => Fatal f
           | Panic => Panic
           | OutOfFuel => OutOfFuel
           end.

Definition get {S} : M S S := fun s => Done (s, s).
Definition modify {S} (f : S -> S) : M S unit := fun s => Done (tt, f s).
Definition fatalf {S A} (f : fatal) : M S A := fun _ => Fatal f.
Definition panic {S A} : M S A := fun _ => Panic.
Definition outOfFuel {S A} : M S A := fun _ => OutOfFuel.

Notation "x <- c1 ;; c2" := (bind c1 (fun x => c2))
  (at level 100, c1 at next level, right associativity).
Notation "c1 ;;; c2" := (bind c1 (fun _ => c2))
  (at level 100, right associativity).

Section Loops.
Context {S A B : Type}.

(** A [for ... range] loop over a slice whose body only changes the
    state. *)
Section ForEach.
Variable body : A -> M S unit.
Fixpoint forEach (l : list A) : M S unit :=
  match l with
  | [] => ret tt
  | a :: l' => body a ;;; forEach l'
  end.
End ForEach.

(** A loop that updates a local variable. *)
Section FoldM.
Variable step : B -> A -> M S B.
Fixpoint foldM (l : list A) (acc : B) : M S B :=
  match l with
  | [] => ret acc
  | a :: l' => acc' <- step acc a ;; foldM l' acc'
  end.
End FoldM.

(** A loop whose body rebuilds the element it visits. *)
Section MapM.
Variable f : A -> M S B.
Fixpoint mapM (l : list A) : M S (list B) :=
  match l with
  | [] => ret []
  | a :: l' => b <- f a ;; bs <- mapM l' ;; ret (b :: bs)
  end.
End MapM.
End Loops.

(** [when c m]: an [if] without [else]. *)
Definition when {S} (c : bool) (m : M S unit) : M S unit :=
  if c then m else ret tt.

(** ** Positions and packages *)

(** [token.Pos] is an integer, [token.NoPos] is zero. *)
Definition NoPos : Z := 0.
Definition IsValid (p : Z) : bool := negb (p =? NoPos).

(** [types.Package]; [pkg_id] stands for the identity of the pointer. *)
Record Package : Type := mkPackage {
  pkg_id : nat;
  Path : string;
  Name : string
}.

(** [uniquePosInfo]: a position and the file set it belongs to ([None]
    is the nil file set). *)
Abbreviation uniquePosInfo := (Z * option nat)%type (only parsing).

(** ** Types of the analysed program ([go/types])

    Only what the engine inspects is kept: the printed name, the named
    object, pointers, signatures with their variables, interfaces with
    their explicit methods and embedded types, structs by identity. *)

Record TypeName : Type := mkTypeName {
  tn_id : nat;                 (* identity of the *types.Named *)
  tn_name : string;            (* Obj().Name() *)
  tn_pkg : option Package;     (* Obj().Pkg() *)
  tn_pos : Z                   (* Obj().Pos() *)
}.

(** [types.Var]. *)
Record Var_ (T : Type) : Type := mkVar {
  v_name : string;
  v_type : T;
  v_pos : Z
}.
Arguments mkVar {T}.
Arguments v_name {T}.
Arguments v_type {T}.
Arguments v_pos {T}.

(** [types.Signature]; an empty list is the nil tuple. *)
Record Signature_ (T : Type) : Type := mkSignature {
  Recv : option (Var_ T);
  Params : list (Var_ T);
  Results : list (Var_ T);
  Variadic : bool
}.
Arguments mkSignature {T}.
Arguments Recv {T}.
Arguments Params {T}.
Arguments Results {T}.
Arguments Variadic {T}.

(** [types.Func], as far as an interface method is concerned. *)
Record Func : Type := mkFunc {
  m_name : string;
  m_pkg : option Package;
  m_pos : Z
}.

Inductive typ : Type :=
| Basic (name : string)
| Named (obj : TypeName) (underlying : typ)
| Pointer (elem : typ)
| Signature (sig : Signature_ typ)
| Interface (id : nat) (explicitMethods : list Func) (embeddeds : list typ)
| Struct (id : nat).

Abbreviation Var := (Var_ typ).
Abbreviation signature := (Signature_ typ).

(** [Type.Underlying()]. *)
Fixpoint Underlying (t : typ) : typ :=
  match t with
  | Named _ u => Underlying u
  | _ => t
  end.

(** [types.TypeString(t, qf)] for basic, named and pointer types; the
    other kinds never compare equal to a qualified type name and are
    printed by their keyword. *)
Fixpoint TypeString (qf : Package -> string) (t : typ) : string :=
  match t with
  | Basic n => n
  | Named obj _ =>
      match tn_pkg obj with
      | Some p => if Strs.eqb (qf p) "" then tn_name obj
                  else qf p +:+ "." +:+ tn_name obj
      | None => tn_name obj
      end
  | Pointer e => "*" +:+ TypeString qf e
  | Signature _ => "func"
  | Interface _ _ _ => "interface"
  | Struct _ => "struct"
  end.

(** [t.String()] qualifies with the package path. *)
Definition typeToString (t : typ) : string := TypeString Path t.

(** [computePkgID]. *)
Definition computePkgID (p : Package) : string := Path p +:+ Name p.

(** [getTypeWithPkgFromVar]. *)
Definition getTypeWithPkgFromVar (v : option Var) : string :=
  match v with
  | None => ""
  | Some v => TypeString computePkgID (v_type v)
  end.

(** ** Shared data ([types.go]) *)

Record replacementInfo : Type := mkReplacementInfo {
  newName : string;
  argPos : Z;
  ctxImports : gmap string string;   (* import path -> alias *)
  ctxRegExpr : string;
  ctxExpr : string
}.

(** The values of [callSites] are pointers: to the two records that live
    inside the configuration, or to a record of their own. *)
Inductive replacementRef : Type :=
| RefCommon                          (* &cfg.commonCallReplacement *)
| RefNil                             (* &cfg.nilCallReplacement *)
| RefRecord (r : replacementInfo).

Record jsonConfig : Type := mkJsonConfig {
  CtxPkgPath : string;
  CtxPkgName : string;
  CtxPkgAlias : string;
  CtxParamName : string;
  CtxParamType : string;
  CtxParamInvalid : string;
  LibPkgPath : string;
  LibPkgName : string;
  LibIface : string;
  CtxCustomPkgPath : string;
  CtxCustomPkgName : string;
  CtxCustomParamType : string;
  CtxCustomExprExtract : string;
  ExtPkgPaths : list string;
  LibFns : gmap string (gmap string replacementInfo);
  PropagationStops : gmap string (gmap string (gmap string (gset string)))
}.

(** One entry of [debugData.Warnings]: the position stands for the file
    and the line that the file set derives from it. *)
Record warning : Type := mkWarning {
  w_pos : Z;
  w_msg : string
}.

Record config : Type := mkConfig {
  json : jsonConfig;
  debugLevel : Z;
  Warnings : list warning;
  commonCallReplacement : replacementInfo;
  nilCallReplacement : replacementInfo;
  libIfaces : list typ;
  ctxParamTypeWithPkgAlias : string;
  ctxParamTypeWithPkgPathName : string;
  ctxCustomParamTypeWithPkgPathName : string;
  ifaces : list (typ * Package);       (* interface -> package *)
  extRecvTypes : gset nat;             (* structs, by identity *)
  fsets : gmap nat nat;                (* package -> file set *)
  largeCode : bool;
  fnVisited : gmap uniquePosInfo fnClass;
  callSites : gmap uniquePosInfo replacementRef;
  callSitesRenamed : gmap uniquePosInfo string;
  ifaceModified : gmap nat (gset string);   (* interface -> method names *)
  fnParamsVisited : gset uniquePosInfo;
  renameParamsVisited : gset uniquePosInfo
}.

(** Field updates. *)
Definition set_json (f : jsonConfig -> jsonConfig) (c : config) : config :=
  mkConfig (f (json c)) (debugLevel c) (Warnings c) (commonCallReplacement c)
    (nilCallReplacement c) (libIfaces c) (ctxParamTypeWithPkgAlias c)
    (ctxParamTypeWithPkgPathName c) (ctxCustomParamTypeWithPkgPathName c)
    (ifaces c) (extRecvTypes c) (fsets c) (largeCode c) (fnVisited c)
    (callSites c) (callSitesRenamed c) (ifaceModified c) (fnParamsVisited c)
    (renameParamsVisited c).

Definition set_Warnings (f : list warning -> list warning) (c : config) : config :=
  mkConfig (json c) (debugLevel c) (f (Warnings c)) (commonCallReplacement c)
    (nilCallReplacement c) (libIfaces c) (ctxParamTypeWithPkgAlias c)
    (ctxParamTypeWithPkgPathName c) (ctxCustomParamTypeWithPkgPathName c)
    (ifaces c) (extRecvTypes c) (fsets c) (largeCode c) (fnVisited c)
    (callSites c) (callSitesRenamed c) (ifaceModified c) (fnParamsVisited c)
    (renameParamsVisited c).

Definition set_nilCallReplacement (r : replacementInfo) (c : config) : config :=
  mkConfig (json c) (debugLevel c) (Warnings c) (commonCallReplacement c)
    r (libIfaces c) (ctxParamTypeWithPkgAlias c)
    (ctxParamTypeWithPkgPathName c) (ctxCustomParamTypeWithPkgPathName c)
    (ifaces c) (extRecvTypes c) (fsets c) (largeCode c) (fnVisited c)
    (callSites c) (callSitesRenamed c) (ifaceModified c) (fnParamsVisited c)
    (renameParamsVisited c).

Definition set_ctxParamTypeWithPkgAlias (s : string) (c : config) : config :=
  mkConfig (json c) (debugLevel c) (Warnings c) (commonCallReplacement c)
    (nilCallReplacement c) (libIfaces c) s
    (ctxParamTypeWithPkgPathName c) (ctxCustomParamTypeWithPkgPathName c)
    (ifaces c) (extRecvTypes c) (fsets c) (largeCode c) (fnVisited c)
    (callSites c) (callSitesRenamed c) (ifaceModified c) (fnParamsVisited c)
    (renameParamsVisited c).

Definition set_fnVisited
    (f : gmap uniquePosInfo fnClass -> gmap uniquePosInfo fnClass) (c : config) : config :=
  mkConfig (json c) (debugLevel c) (Warnings c) (commonCallReplacement c)
    (nilCallReplacement c) (libIfaces c) (ctxParamTypeWithPkgAlias c)
    (ctxParamTypeWithPkgPathName c) (ctxCustomParamTypeWithPkgPathName c)
    (ifaces c) (extRecvTypes c) (fsets c) (largeCode c) (f (fnVisited c))
    (callSites c) (callSitesRenamed c) (ifaceModified c) (fnParamsVisited c)
    (renameParamsVisited c).

Definition set_callSites
    (f : gmap uniquePosInfo replacementRef -> gmap uniquePosInfo replacementRef)
    (c : config) : config :=
  mkConfig (json c) (debugLevel c) (Warnings c) (commonCallReplacement c)
    (nilCallReplacement c) (libIfaces c) (ctxParamTypeWithPkgAlias c)
    (ctxParamTypeWithPkgPathName c) (ctxCustomParamTypeWithPkgPathName c)
    (ifaces c) (extRecvTypes c) (fsets c) (largeCode c) (fnVisited c)
    (f (callSites c)) (callSitesRenamed c) (ifaceModified c) (fnParamsVisited c)
    (renameParamsVisited c).

Definition set_callSitesRenamed
    (f : gmap uniquePosInfo string -> gmap uniquePosInfo string) (c : config) : config :=
  mkConfig (json c) (debugLevel c) (Warnings c) (commonCallReplacement c)
    (nilCallReplacement c) (libIfaces c) (ctxParamTypeWithPkgAlias c)
    (ctxParamTypeWithPkgPathName c) (ctxCustomParamTypeWithPkgPathName c)
    (ifaces c) (extRecvTypes c) (fsets c) (largeCode c) (fnVisited c)
    (callSites c) (f (callSitesRenamed c)) (ifaceModified c) (fnParamsVisited c)
    (renameParamsVisited c).

Definition set_ifaceModified
    (f : gmap nat (gset string) -> gmap nat (gset string)) (c : config) : config :=
  mkConfig (json c) (debugLevel c) (Warnings c) (commonCallReplacement c)
    (nilCallReplacement c) (libIfaces c) (ctxParamTypeWithPkgAlias c)
    (ctxParamTypeWithPkgPathName c) (ctxCustomParamTypeWithPkgPathName c)
    (ifaces c) (extRecvTypes c) (fsets c) (largeCode c) (fnVisited c)
    (callSites c) (callSitesRenamed c) (f (ifaceModified c)) (fnParamsVisited c)
    (renameParamsVisited c).

Definition set_fnParamsVisited
    (f : gset uniquePosInfo -> gset uniquePosInfo) (c : config) : config :=
  mkConfig (json c) (debugLevel c) (Warnings c) (commonCallReplacement c)
    (nilCallReplacement c) (libIfaces c) (ctxParamTypeWithPkgAlias c)
    (ctxParamTypeWithPkgPathName c) (ctxCustomParamTypeWithPkgPathName c)
    (ifaces c) (extRecvTypes c) (fsets c) (largeCode c) (fnVisited c)
    (callSites c) (callSitesRenamed c) (ifaceModified c) (f (fnParamsVisited c))
    (renameParamsVisited c).

Definition set_renameParamsVisited
    (f : gset uniquePosInfo -> gset uniquePosInfo) (c : config) : config :=
  mkConfig (json c) (debugLevel c) (Warnings c) (commonCallReplacement c)
    (nilCallReplacement c) (libIfaces c) (ctxParamTypeWithPkgAlias c)
    (ctxParamTypeWithPkgPathName c) (ctxCustomParamTypeWithPkgPathName c)
    (ifaces c) (extRecvTypes c) (fsets c) (largeCode c) (fnVisited c)
    (callSites c) (callSitesRenamed c) (ifaceModified c) (fnParamsVisited c)
    (f (renameParamsVisited c)).

Definition set_CtxParamInvalid (s : string) (j : jsonConfig) : jsonConfig :=
  mkJsonConfig (CtxPkgPath j) (CtxPkgName j) (CtxPkgAlias j) (CtxParamName j)
    (CtxParamType j) s (LibPkgPath j) (LibPkgName j) (LibIface j)
    (CtxCustomPkgPath j) (CtxCustomPkgName j) (CtxCustomParamType j)
    (CtxCustomExprExtract j) (ExtPkgPaths j) (LibFns j) (PropagationStops j).

(** A pointer stored in [callSites], dereferenced in the current state. *)
Definition deref (cfg : config) (r : replacementRef) : replacementInfo :=
  match r with
  | RefCommon => commonCallReplacement cfg
  | RefNil => nilCallReplacement cfg
  | RefRecord r => r
  end.

(** ** Utilities ([utils.go]) *)

(** [getUniquePosPkg]; a nil package has no file set. *)
Definition getUniquePosPkg (cfg : config) (pkg : option Package) (pos : Z) : uniquePosInfo :=
  if largeCode cfg
  then (pos, p ← pkg; fsets cfg !! pkg_id p)
  else (pos, None).

(** [isPkgExternal]. *)
Definition isPkgExternal (cfg : config) (pkgPath : string) : bool :=
  if Strs.HasPrefix pkgPath (CtxPkgPath (json cfg)) then true
  else if Strs.HasPrefix pkgPath (LibPkgPath (json cfg)) then true
  else existsb (fun extPath => Strs.HasPrefix pkgPath extPath) (ExtPkgPaths (json cfg)).

(** [writeWarning]: recorded only at a positive debug level. *)
Definition writeWarning (pos : Z) (msg : string) (cfg : config) : config :=
  if 0 <? debugLevel cfg
  then set_Warnings (fun ws => ws ++ [mkWarning pos msg]) cfg
  else cfg.

(** [replaceCtxExprWildcard]. *)
Definition replaceCtxExprWildcard (wildcard ctxRegExpr ctxLit : string) : string :=
  if Strs.eqb ctxRegExpr "" then ctxLit
  else if Strs.Contains ctxRegExpr wildcard
       then Strs.ReplaceAll ctxRegExpr wildcard ctxLit
       else ctxRegExpr.

(** The three fields that [collectInterfacesAndThirdPartyEmbeds] fills. *)
Definition set_declared (ifs : list (typ * Package)) (lis : list typ) (ext : gset nat)
    (c : config) : config :=
  mkConfig (json c) (debugLevel c) (Warnings c) (commonCallReplacement c)
    (nilCallReplacement c) lis (ctxParamTypeWithPkgAlias c)
    (ctxParamTypeWithPkgPathName c) (ctxCustomParamTypeWithPkgPathName c)
    ifs ext (fsets c) (largeCode c) (fnVisited c)
    (callSites c) (callSitesRenamed c) (ifaceModified c) (fnParamsVisited c)
    (renameParamsVisited c).

(** [getQualifiedType]. *)
Definition getQualifiedType (orgTypName pkgPath pkgName : string) : outcome string :=
  match orgTypName with
  | EmptyString => Fatal FatalEmptyType
  | String "*" typName =>
      match typName with
      | String "*" _ => Fatal FatalPointerType
      | EmptyString => Panic
      | _ => Done ("*" +:+ pkgPath +:+ pkgName +:+ "." +:+ typName)
      end
  | _ => Done (pkgPath +:+ pkgName +:+ "." +:+ orgTypName)
  end.

(** [initialize], after the configuration file has been read: the
    checks of the configuration and the initial value of the shared
    data.  The file sets of an incremental load are given by [fsets_]. *)
Definition initialize (jsonCfg : jsonConfig) (debugLevel_ : Z)
    (largeCode_ : bool) (fsets_ : gmap nat nat) : outcome config :=
  if Strs.eqb (CtxParamInvalid jsonCfg) "" then Fatal FatalNoInvalidCtx
  else
    let e (x : string) := Strs.eqb x "" in
    let allEmpty := e (CtxCustomPkgPath jsonCfg) && e (CtxCustomPkgName jsonCfg)
                    && e (CtxCustomParamType jsonCfg) && e (CtxCustomExprExtract jsonCfg) in
    let allSet := negb (e (CtxCustomPkgPath jsonCfg)) && negb (e (CtxCustomPkgName jsonCfg))
                  && negb (e (CtxCustomParamType jsonCfg))
                  && negb (e (CtxCustomExprExtract jsonCfg)) in
    if negb allEmpty && negb allSet then Fatal FatalCustomCtxOptions
    else
      match getQualifiedType (CtxParamType jsonCfg) (CtxPkgPath jsonCfg) (CtxPkgName jsonCfg) with
      | Done qualified =>
          let finish (custom : string) : outcome config :=
            Done (mkConfig jsonCfg debugLevel_ []
                    (mkReplacementInfo "" 1 ∅ "" (CtxParamName jsonCfg))
                    (mkReplacementInfo "" 0 ∅ "" "")
                    [] "" qualified custom [] ∅ fsets_ largeCode_ ∅ ∅ ∅ ∅ ∅ ∅) in
          if e (CtxCustomParamType jsonCfg) then finish ""
          else
            match getQualifiedType (CtxCustomParamType jsonCfg)
                    (CtxCustomPkgPath jsonCfg) (CtxCustomPkgName jsonCfg) with
            | Done custom => finish custom
            | Fatal f => Fatal f
            | Panic => Panic
            | OutOfFuel => OutOfFuel
            end
      | Fatal f => Fatal f
      | Panic => Panic
      | OutOfFuel => OutOfFuel
      end.

(** ** Syntax trees ([go/ast])

    The node kinds that the rewriting inspects, and generic nodes for the
    rest; a nil slice is the empty list. *)

Record ident : Type := mkIdent {
  NamePos : Z;
  IdName : string
}.

(** [ast.NewIdent]. *)
Definition NewIdent (name : string) : ident := mkIdent NoPos name.

Inductive expr : Type :=
| Ident (id : ident)
| SelectorExpr (X : expr) (Sel : ident)
| CallExpr (Fun : expr) (Lparen : Z) (Args : list expr) (Ellipsis : Z) (Rparen : Z)
| FuncLit (Type_ : funcType) (Body : option blockStmt)
| FuncTypeExpr (ft : funcType)
| InterfaceType (Interface_ : Z) (Methods : fieldList)
| OtherExpr (pos : Z) (children : list expr)
with funcType : Type :=
| FuncType (Func_ : Z) (Params_ : fieldList) (Results_ : option fieldList)
with fieldList : Type :=
| FieldList (Opening : Z) (List_ : list field) (Closing : Z)
with field : Type :=
| Field (Names : list ident) (FType : expr)
with stmt : Type :=
| ExprStmt (X : expr)
| GoStmt (Go : Z) (Call : expr)
| DeferStmt (Defer : Z) (Call : expr)
| AssignStmt (Lhs : list expr) (TokPos : Z) (define : bool) (Rhs : list expr)
| ReturnStmt (Results_ : list expr)
| OtherStmt (exprs : list expr) (stmts : list stmt)
with blockStmt : Type :=
| BlockStmt (Lbrace : Z) (List_ : list stmt).

Inductive spec : Type :=
| TypeSpec (Name_ : ident) (SType : expr)
| ValueSpec (Names : list ident) (VType : option expr) (Values : list expr).

Inductive decl : Type :=
| FuncDecl (Recv_ : option fieldList) (Name_ : ident) (Type_ : funcType) (Body : option blockStmt)
| GenDecl (Specs : list spec).

(** An import declaration: optional name and path (without quotes). *)
Record importSpec : Type := mkImportSpec {
  imp_name : string;      (* empty when the import has no name *)
  imp_path : string
}.

Record File : Type := mkFile {
  Imports : list importSpec;
  Decls : list decl
}.

(** [packages.Package]. *)
Record LoadedPackage : Type := mkLoadedPackage {
  PkgPath : string;
  Types : Package;
  Syntax : list File;
  CompiledGoFiles : list string
}.

(** [Node.Pos()]. *)
Fixpoint exprPos (e : expr) : Z :=
  match e with
  | Ident id => NamePos id
  | SelectorExpr x _ => exprPos x
  | CallExpr f _ _ _ _ => exprPos f
  | FuncLit (FuncType fpos (FieldList o _ _) _) _ => if IsValid fpos then fpos else o
  | FuncTypeExpr (FuncType fpos (FieldList o _ _) _) => if IsValid fpos then fpos else o
  | InterfaceType i _ => i
  | OtherExpr p _ => p
  end.

(** [Field.Pos()]. *)
Definition fieldPos (f : field) : Z :=
  match f with
  | Field (n :: _) _ => NamePos n
  | Field [] t => exprPos t
  end.

(** ** The transformation phase ([transform.go]) *)

Record transformerConfig : Type := mkTransformerConfig {
  cfg_ : config;
  currentPkg : LoadedPackage;
  existingImports : gmap string string;   (* import path -> alias *)
  newImports : gmap string string;
  modified : bool;
  astIfaceModified : gset Z;              (* interface nodes, by position *)
  ifaceMethodModifiedNum : Z;
  astNamedModifiedNum : Z;
  astParamsModifiedNum : Z;
  astCallsModifiedNum : Z;
  astSigsModifiedNum : Z;
  astDefsModifiedNum : Z
}.

Definition set_cfg (f : config -> config) (t : transformerConfig) : transformerConfig :=
  mkTransformerConfig (f (cfg_ t)) (currentPkg t) (existingImports t) (newImports t)
    (modified t) (astIfaceModified t) (ifaceMethodModifiedNum t) (astNamedModifiedNum t)
    (astParamsModifiedNum t) (astCallsModifiedNum t) (astSigsModifiedNum t)
    (astDefsModifiedNum t).

Definition set_currentPkg (p : LoadedPackage) (t : transformerConfig) : transformerConfig :=
  mkTransformerConfig (cfg_ t) p (existingImports t) (newImports t)
    (modified t) (astIfaceModified t) (ifaceMethodModifiedNum t) (astNamedModifiedNum t)
    (astParamsModifiedNum t) (astCallsModifiedNum t) (astSigsModifiedNum t)
    (astDefsModifiedNum t).

Definition set_existingImports (m : gmap string string) (t : transformerConfig) : transformerConfig :=
  mkTransformerConfig (cfg_ t) (currentPkg t) m (newImports t)
    (modified t) (astIfaceModified t) (ifaceMethodModifiedNum t) (astNamedModifiedNum t)
    (astParamsModifiedNum t) (astCallsModifiedNum t) (astSigsModifiedNum t)
    (astDefsModifiedNum t).

Definition set_newImports (f : gmap string string -> gmap string string)
    (t : transformerConfig) : transformerConfig :=
  mkTransformerConfig (cfg_ t) (currentPkg t) (existingImports t) (f (newImports t))
    (modified t) (astIfaceModified t) (ifaceMethodModifiedNum t) (astNamedModifiedNum t)
    (astParamsModifiedNum t) (astCallsModifiedNum t) (astSigsModifiedNum t)
    (astDefsModifiedNum t).

Definition set_modified (b : bool) (t : transformerConfig) : transformerConfig :=
  mkTransformerConfig (cfg_ t) (currentPkg t) (existingImports t) (newImports t)
    b (astIfaceModified t) (ifaceMethodModifiedNum t) (astNamedModifiedNum t)
    (astParamsModifiedNum t) (astCallsModifiedNum t) (astSigsModifiedNum t)
    (astDefsModifiedNum t).

Definition set_astIfaceModified (f : gset Z -> gset Z) (t : transformerConfig) : transformerConfig :=
  mkTransformerConfig (cfg_ t) (currentPkg t) (existingImports t) (newImports t)
    (modified t) (f (astIfaceModified t)) (ifaceMethodModifiedNum t) (astNamedModifiedNum t)
    (astParamsModifiedNum t) (astCallsModifiedNum t) (astSigsModifiedNum t)
    (astDefsModifiedNum t).

(** The six statistics counters, by name. *)
Inductive counter : Type :=
| CIfaceMethod | CNamed | CParams | CCalls | CSigs | CDefs.

Global Instance counter_eq_dec : EqDecision counter.
Proof. solve_decision. Defined.

Definition incr (c : counter) (t : transformerConfig) : transformerConfig :=
  let b (d : counter) (n : Z) :=
    if bool_decide (c = d) then n + 1 else n in
  mkTransformerConfig (cfg_ t) (currentPkg t) (existingImports t) (newImports t)
    (modified t) (astIfaceModified t)
    (b CIfaceMethod (ifaceMethodModifiedNum t)) (b CNamed (astNamedModifiedNum t))
    (b CParams (astParamsModifiedNum t)) (b CCalls (astCallsModifiedNum t))
    (b CSigs (astSigsModifiedNum t)) (b CDefs (astDefsModifiedNum t)).

Abbreviation T := (M transformerConfig).

(** The cursor of [astutil.Apply]: the parent node, with the fields of it
    that [astRewrite] reads, and the name of the field that holds the
    current node. *)
Inductive parentNode : Type :=
| ParCallExpr
| ParGoStmt (Go : Z)
| ParDeferStmt (Defer : Z)
| ParFuncDecl (NamePos_ : Z)
| ParFuncLit (Func_ : Z)
| ParFuncType
| ParFieldList
| ParField
| ParInterfaceType (Interface_ : Z)
| ParTypeSpec (NamePos_ : Z)
| ParOther.

Record cursor : Type := mkCursor {
  Parent : parentNode;
  CName : string
}.

(** The key of a position in the package being rewritten. *)
Definition posKey (t : transformerConfig) (pos : Z) : uniquePosInfo :=
  getUniquePosPkg (cfg_ t) (Some (Types (currentPkg t))) pos.

(** [computeExistingImports]. *)
Definition computeExistingImports (f : File) : T unit :=
  modify (set_existingImports
    (fold_left (fun m imp => <[imp_path imp := imp_name imp]> m) (Imports f) ∅)).

(** [initContextExpressions]. *)
Definition initContextExpressions : T unit :=
  modify (fun t =>
    let j := json (cfg_ t) in
    let assign (pref : string) (t : transformerConfig) :=
      set_cfg (fun c =>
        set_ctxParamTypeWithPkgAlias (pref +:+ "." +:+ CtxParamType (json c))
          (set_json (set_CtxParamInvalid (pref +:+ "." +:+ CtxParamInvalid (json c))) c)) t in
    let t1 :=
      match existingImports t !! CtxPkgPath j with
      | Some pkgAlias =>
          if negb (Strs.eqb pkgAlias "") then assign pkgAlias t
          else assign (CtxPkgName j) t
      | None =>
          if Strs.eqb (CtxPkgAlias j) "" then assign (CtxPkgName j) t
          else assign (CtxPkgAlias j) t
      end in
    set_cfg (fun c =>
      set_nilCallReplacement
        (mkReplacementInfo "" 1 ∅ "" (CtxParamInvalid (json c))) c) t1).

(** [getCtxExprAndAddImports]: the loop over [ctxImports] returns from
    the function in some of its branches; [inl] is such a return, [inr]
    goes on with the next entry. *)
Definition ctxImportStep (existing : gmap string string) (ctxExpr : string)
    (entry : string * string) : T (string + unit) :=
  let '(newImp, newAlias) := entry in
  match existing !! newImp with
  | Some alias =>
      if Strs.Contains ctxExpr aliasWildCard then
        if Strs.eqb alias "" then
          if Strs.eqb newAlias "" then fatalf FatalAliasPlaceholder
          else
            modify (set_newImports (insert newImp newAlias)) ;;;
            ret (inl (replaceCtxExprWildcard aliasWildCard ctxExpr newAlias))
        else
          modify (set_newImports (insert newImp alias)) ;;;
          ret (inl (replaceCtxExprWildcard aliasWildCard ctxExpr alias))
      else
        when (negb (Strs.eqb newAlias ""))
          (modify (set_newImports (insert newImp newAlias))) ;;;
        ret (inr tt)
  | None =>
      if Strs.Contains ctxExpr aliasWildCard then
        if Strs.eqb newAlias "" then fatalf FatalAliasPlaceholder
        else
          modify (set_newImports (insert newImp newAlias)) ;;;
          ret (inl (replaceCtxExprWildcard aliasWildCard ctxExpr newAlias))
      else
        modify (set_newImports (insert newImp newAlias)) ;;;
        ret (inr tt)
  end.

Fixpoint ctxImportLoop (existing : gmap string string) (ctxExpr : string)
    (entries : list (string * string)) : T string :=
  match entries with
  | [] => ret ctxExpr
  | entry :: rest =>
      r <- ctxImportStep existing ctxExpr entry ;;
      match r with
      | inl s => ret s
      | inr _ => ctxImportLoop existing ctxExpr rest
      end
  end.

Definition getCtxExprAndAddImports (callReplacement : replacementInfo) : T string :=
  t <- get ;;
  if bool_decide (1 < size (ctxImports callReplacement))%nat
  then fatalf FatalOneImportOnly
  else
    let ctxExpr :=
      if Strs.eqb (ctxExpr callReplacement) ""
      then replaceCtxExprWildcard ctxWildcard (ctxRegExpr callReplacement)
             (CtxParamName (json (cfg_ t)))
      else ctxExpr callReplacement in
    ctxImportLoop (existingImports t) ctxExpr (map_to_list (ctxImports callReplacement)).

(** [resolveCtxExprPackageWildcard]. *)
Definition resolveCtxExprPackageWildcard (t : transformerConfig) (e : string) : string :=
  let j := json (cfg_ t) in
  let found := existingImports t !! CtxPkgPath j in
  let pkgAlias := default "" found in
  let replacementName :=
    if negb (Strs.eqb pkgAlias "") then pkgAlias
    else if negb (bool_decide (is_Some found)) && negb (Strs.eqb (CtxPkgAlias j) "")
         then CtxPkgAlias j
         else CtxPkgName j in
  replaceCtxExprWildcard ctxPrefWildcard e replacementName.

(** The argument that is injected for a call-site record. *)
Definition ctxArgument (callReplacement : replacementInfo) : T expr :=
  ctxExpr <- getCtxExprAndAddImports callReplacement ;;
  t <- get ;;
  ret (Ident (NewIdent (resolveCtxExprPackageWildcard t ctxExpr))).

Definition warnFirstPosition : string :=
  "WARNING: requesting to put a context argument in a position other then the first one for parameter-less function - defaulting to first position".

(** [renameCallSite]: the new callee and the position of the call site. *)
Definition renameCallSite (c : cursor) (fn : expr) (lparen : Z) : T (expr * Z) :=
  let pos :=
    match Parent c with
    | ParGoStmt g => g
    | ParDeferStmt d => d
    | _ => lparen
    end in
  t <- get ;;
  match callSitesRenamed (cfg_ t) !! posKey t pos with
  | Some newName =>
      let newIdent := NewIdent newName in
      fn' <- match fn with
             | SelectorExpr x _ => ret (SelectorExpr x newIdent)
             | Ident _ => ret (Ident newIdent)
             | _ => fatalf FatalUnrecognizedCall
             end ;;
      modify (set_modified true) ;;;
      ret (fn', pos)
  | None => ret (fn, pos)
  end.

(** The loop of [rewriteCallSite] over the arguments of a call: an
    argument that is itself a recorded call without arguments receives
    the context argument. *)
Definition rewriteNestedArg (pos : Z) (a : expr) : T expr :=
  match a with
  | CallExpr fn lparen [] ell rparen =>
      t <- get ;;
      match callSites (cfg_ t) !! posKey t lparen with
      | None => ret a
      | Some ref =>
          let callReplacement := deref (cfg_ t) ref in
          when (negb (argPos callReplacement =? 1))
            (modify (set_cfg (writeWarning pos warnFirstPosition))) ;;;
          arg <- ctxArgument callReplacement ;;
          modify (set_modified true) ;;;
          modify (incr CCalls) ;;;
          ret (CallExpr fn lparen [arg] ell rparen)
      end
  | _ => ret a
  end.

(** The last block of [rewriteCallSite]: the record of the call itself. *)
Definition injectCtxArg (fn : expr) (lparen : Z) (args : list expr)
    (ell rparen : Z) (pos : Z) : T expr :=
  t <- get ;;
  match callSites (cfg_ t) !! posKey t pos with
  | None => ret (CallExpr fn lparen args ell rparen)
  | Some ref =>
      let callReplacement := deref (cfg_ t) ref in
      argPos <-
        (if argPos callReplacement <? 1
         then ret (Z.of_nat (length args))
         else
           let argPos := argPos callReplacement - 1 in
           if Z.of_nat (length args) <? argPos
           then fatalf FatalArgPosBeyond
           else ret argPos) ;;
      arg <- ctxArgument callReplacement ;;
      let newArgs := take (Z.to_nat argPos) args ++ [arg] ++ drop (Z.to_nat argPos) args in
      modify (set_modified true) ;;;
      modify (incr CCalls) ;;;
      ret (CallExpr fn lparen newArgs ell rparen)
  end.

(** [rewriteCallSite]. *)
Definition rewriteCallSite (c : cursor) (fn : expr) (lparen : Z) (args : list expr)
    (ell rparen : Z) (pos : Z) : T expr :=
  let parentIsCall := match Parent c with ParCallExpr => true | _ => false end in
  match args with
  | [] =>
      if negb parentIsCall then
        t <- get ;;
        match callSites (cfg_ t) !! posKey t pos with
        | Some ref =>
            let callReplacement := deref (cfg_ t) ref in
            when (negb (argPos callReplacement =? 1))
              (modify (set_cfg (writeWarning pos warnFirstPosition))) ;;;
            arg <- ctxArgument callReplacement ;;
            modify (set_modified true) ;;;
            modify (incr CCalls) ;;;
            ret (CallExpr fn lparen [arg] ell rparen)
        | None => ret (CallExpr fn lparen args ell rparen)
        end
      else ret (CallExpr fn lparen args ell rparen)
  | _ :: _ =>
      args' <- mapM (rewriteNestedArg pos) args ;;
      injectCtxArg fn lparen args' ell rparen pos
  end.

(** [addContextParam], with the insertion that [astutil.Apply] with
    [addContextParamNonEmptyListApply] performs at index 0 of a non-empty
    list: the new field is named exactly when the first field is. *)
Definition addContextParam (cfg : config) (fl : fieldList) : fieldList :=
  match fl with
  | FieldList o [] c =>
      FieldList o
        [Field [NewIdent (CtxParamName (json cfg))]
               (Ident (mkIdent c (ctxParamTypeWithPkgAlias cfg)))] c
  | FieldList o ((Field [] _ :: _) as l) c =>
      FieldList o (Field [] (Ident (NewIdent (ctxParamTypeWithPkgAlias cfg))) :: l) c
  | FieldList o ((Field (_ :: _) _ :: _) as l) c =>
      FieldList o
        (Field [NewIdent (CtxParamName (json cfg))]
               (Ident (NewIdent (ctxParamTypeWithPkgAlias cfg))) :: l) c
  end.

(** [astutil.Apply(n, cfg.addContextParamApply, nil)]: every field list
    that is the [Params] of a function type below [n] receives the
    parameter; the traversal does not enter such a list. *)
Section AddContextParamApply.
Variable cfg : config.

Fixpoint addContextParamApply (e : expr) : expr :=
  match e with
  | Ident _ => e
  | SelectorExpr x s => SelectorExpr (addContextParamApply x) s
  | CallExpr f lp args el rp =>
      CallExpr (addContextParamApply f) lp (map addContextParamApply args) el rp
  | FuncLit ft body =>
      FuncLit (addContextParamFuncType ft) (option_map addContextParamBlock body)
  | FuncTypeExpr ft => FuncTypeExpr (addContextParamFuncType ft)
  | InterfaceType p ms => InterfaceType p (addContextParamFieldList ms)
  | OtherExpr p ch => OtherExpr p (map addContextParamApply ch)
  end
with addContextParamFuncType (ft : funcType) : funcType :=
  match ft with
  | FuncType f params results =>
      FuncType f (addContextParam cfg params)
               (option_map addContextParamFieldList results)
  end
with addContextParamFieldList (fl : fieldList) : fieldList :=
  match fl with
  | FieldList o l c => FieldList o (map addContextParamField l) c
  end
with addContextParamField (f : field) : field :=
  match f with
  | Field names t => Field names (addContextParamApply t)
  end
with addContextParamStmt (s : stmt) : stmt :=
  match s with
  | ExprStmt x => ExprStmt (addContextParamApply x)
  | GoStmt g call => GoStmt g (addContextParamApply call)
  | DeferStmt d call => DeferStmt d (addContextParamApply call)
  | AssignStmt lhs p d rhs =>
      AssignStmt (map addContextParamApply lhs) p d (map addContextParamApply rhs)
  | ReturnStmt rs => ReturnStmt (map addContextParamApply rs)
  | OtherStmt es ss =>
      OtherStmt (map addContextParamApply es) (map addContextParamStmt ss)
  end
with addContextParamBlock (b : blockStmt) : blockStmt :=
  match b with
  | BlockStmt lb l => BlockStmt lb (map addContextParamStmt l)
  end.
End AddContextParamApply.

(** [addContextInitStmt]. *)
Definition addContextInitStmt (cfg : config) (stmtsList : list stmt) (sigPos : Z) : list stmt :=
  AssignStmt [Ident (NewIdent (CtxParamName (json cfg)))] sigPos true
             [Ident (NewIdent (CtxParamInvalid (json cfg)))]
  :: stmtsList.

(** *** [astRewrite]

    [astRewrite] is one chain of tests on the node and its parent.  It is
    split here by the kind of the node; each part keeps the tests that
    can succeed for that kind, in the order of the chain. *)

(** Call expressions, and the type of a type specification. *)
Definition astRewriteExpr (c : cursor) (e : expr) : T expr :=
  match e with
  | CallExpr fn lparen args ell rparen =>
      r <- renameCallSite c fn lparen ;;
      rewriteCallSite c (fst r) lparen args ell rparen (snd r)
  | _ =>
      match Parent c with
      | ParTypeSpec namePos =>
          if Strs.eqb (CName c) "Type" then
            t <- get ;;
            match fnVisited (cfg_ t) !! posKey t namePos with
            | Some regularFn =>
                modify (set_modified true) ;;;
                modify (incr CNamed) ;;;
                ret (addContextParamApply (cfg_ t) e)
            | _ => ret e
            end
          else ret e
      | _ => ret e
      end
  end.

(** The [Type] of a function declaration or of a function literal. *)
Definition astRewriteFuncType (c : cursor) (ft : funcType) : T funcType :=
  let addParam (p : Z) : T funcType :=
    t <- get ;;
    match fnVisited (cfg_ t) !! posKey t p with
    | Some regularFn =>
        modify (set_modified true) ;;;
        modify (incr CSigs) ;;;
        ret (match ft with
             | FuncType f params results =>
                 FuncType f (addContextParam (cfg_ t) params) results
             end)
    | _ => ret ft
    end in
  if Strs.eqb (CName c) "Type" then
    match Parent c with
    | ParFuncDecl namePos => addParam namePos
    | ParFuncLit funcPos => addParam funcPos
    | _ => ret ft
    end
  else ret ft.

(** Field lists: the parameters of a function type, and the methods of an
    interface. *)
Definition astRewriteFieldList (c : cursor) (fl : fieldList) : T fieldList :=
  match fl with
  | FieldList o l cl =>
      if Strs.eqb (CName c) "Params" then
        l' <- mapM (fun fld =>
                t <- get ;;
                if bool_decide (posKey t (fieldPos fld) ∈ fnParamsVisited (cfg_ t))
                then
                  modify (set_modified true) ;;;
                  modify (incr CParams) ;;;
                  ret (match fld with
                       | Field names ty => Field names (addContextParamApply (cfg_ t) ty)
                       end)
                else ret fld) l ;;
        ret (FieldList o l' cl)
      else
        match Parent c with
        | ParInterfaceType iface =>
            if Strs.eqb (CName c) "Methods" then
              l' <- mapM (fun fld =>
                      t <- get ;;
                      match fnVisited (cfg_ t) !! posKey t (fieldPos fld) with
                      | Some regularFn =>
                          modify (set_astIfaceModified (union {[iface]})) ;;;
                          modify (set_modified true) ;;;
                          modify (incr CIfaceMethod) ;;;
                          ret (match fld with
                               | Field names ty =>
                                   Field names (addContextParamApply (cfg_ t) ty)
                               end)
                      | _ => ret fld
                      end) l ;;
              ret (FieldList o l' cl)
            else ret fl
        | _ => ret fl
        end
  end.

(** The [Body] of a function declaration or of a function literal; the
    post-order call is made for a nil body as well. *)
Definition astRewriteBody (c : cursor) (b : option blockStmt) : T (option blockStmt) :=
  let addInit (p : Z) (noBody : fatal) : T (option blockStmt) :=
    t <- get ;;
    match fnVisited (cfg_ t) !! posKey t p with
    | Some freshCtxFn =>
        match b with
        | None => fatalf noBody
        | Some (BlockStmt lb l) =>
            modify (set_modified true) ;;;
            modify (incr CDefs) ;;;
            ret (Some (BlockStmt lb (addContextInitStmt (cfg_ t) l p)))
        end
    | _ => ret b
    end in
  if Strs.eqb (CName c) "Body" then
    match Parent c with
    | ParFuncDecl namePos => addInit namePos FatalDeclNoBody
    | ParFuncLit funcPos => addInit funcPos FatalLitNoBody
    | _ => ret b
    end
  else ret b.

(** A field without names. *)
Definition astRewriteField (f : field) : T field :=
  match f with
  | Field [] ty =>
      t <- get ;;
      if bool_decide (posKey t (fieldPos f) ∈ renameParamsVisited (cfg_ t))
      then ret (Field [NewIdent (CtxParamName (json (cfg_ t)))] ty)
      else ret f
  | _ => ret f
  end.

(** The first name of a field; [fldPos] is the position of the field when
    the name is visited. *)
Definition astRewriteFirstName (fldPos : Z) (n : ident) : T ident :=
  t <- get ;;
  if bool_decide (posKey t fldPos ∈ renameParamsVisited (cfg_ t))
  then ret (NewIdent (CtxParamName (json (cfg_ t))))
  else ret n.

(** *** [astutil.Apply(f, nil, cfg.astRewrite)]

    Children first, in the order of [astutil.Apply], then the node. *)

Fixpoint walkExpr (c : cursor) (e : expr) {struct e} : T expr :=
  e' <- match e with
        | Ident _ => ret e
        | SelectorExpr x s =>
            x' <- walkExpr (mkCursor ParOther "X") x ;;
            ret (SelectorExpr x' s)
        | CallExpr fn lp args el rp =>
            fn' <- walkExpr (mkCursor ParCallExpr "Fun") fn ;;
            args' <- mapM (walkExpr (mkCursor ParCallExpr "Args")) args ;;
            ret (CallExpr fn' lp args' el rp)
        | FuncLit ft body =>
            let par := ParFuncLit (match ft with FuncType f _ _ => f end) in
            ft' <- walkFuncType (mkCursor par "Type") ft ;;
            body' <- match body with
                     | None => ret None
                     | Some b => b' <- walkBlock b ;; ret (Some b')
                     end ;;
            body'' <- astRewriteBody (mkCursor par "Body") body' ;;
            ret (FuncLit ft' body'')
        | FuncTypeExpr ft =>
            ft' <- walkFuncTypeChildren ft ;;
            ret (FuncTypeExpr ft')
        | InterfaceType p ms =>
            ms' <- walkFieldList (mkCursor (ParInterfaceType p) "Methods") ms ;;
            ret (InterfaceType p ms')
        | OtherExpr p ch =>
            ch' <- mapM (walkExpr (mkCursor ParOther "")) ch ;;
            ret (OtherExpr p ch')
        end ;;
  astRewriteExpr c e'
with walkFuncTypeChildren (ft : funcType) {struct ft} : T funcType :=
  match ft with
  | FuncType f params results =>
      params' <- walkFieldList (mkCursor ParFuncType "Params") params ;;
      results' <- match results with
                  | None => ret None
                  | Some r =>
                      r' <- walkFieldList (mkCursor ParFuncType "Results") r ;;
                      ret (Some r')
                  end ;;
      ret (FuncType f params' results')
  end
with walkFuncType (c : cursor) (ft : funcType) {struct ft} : T funcType :=
  ft' <- match ft with
         | FuncType f params results =>
             params' <- walkFieldList (mkCursor ParFuncType "Params") params ;;
             results' <- match results with
                         | None => ret None
                         | Some r =>
                             r' <- walkFieldList (mkCursor ParFuncType "Results") r ;;
                             ret (Some r')
                         end ;;
             ret (FuncType f params' results')
         end ;;
  astRewriteFuncType c ft'
with walkFieldList (c : cursor) (fl : fieldList) {struct fl} : T fieldList :=
  fl' <- match fl with
         | FieldList o l cl =>
             l' <- mapM walkField l ;;
             ret (FieldList o l' cl)
         end ;;
  astRewriteFieldList c fl'
with walkField (f : field) {struct f} : T field :=
  f' <- match f with
        | Field names ty =>
            names' <- match names with
                      | [] => ret []
                      | n :: rest =>
                          n' <- astRewriteFirstName (fieldPos f) n ;;
                          ret (n' :: rest)
                      end ;;
            ty' <- walkExpr (mkCursor ParField "Type") ty ;;
            ret (Field names' ty')
        end ;;
  astRewriteField f'
with walkStmt (s : stmt) {struct s} : T stmt :=
  match s with
  | ExprStmt x =>
      x' <- walkExpr (mkCursor ParOther "X") x ;;
      ret (ExprStmt x')
  | GoStmt g call =>
      call' <- walkExpr (mkCursor (ParGoStmt g) "Call") call ;;
      ret (GoStmt g call')
  | DeferStmt d call =>
      call' <- walkExpr (mkCursor (ParDeferStmt d) "Call") call ;;
      ret (DeferStmt d call')
  | AssignStmt lhs p d rhs =>
      lhs' <- mapM (walkExpr (mkCursor ParOther "Lhs")) lhs ;;
      rhs' <- mapM (walkExpr (mkCursor ParOther "Rhs")) rhs ;;
      ret (AssignStmt lhs' p d rhs')
  | ReturnStmt rs =>
      rs' <- mapM (walkExpr (mkCursor ParOther "Results")) rs ;;
      ret (ReturnStmt rs')
  | OtherStmt es ss =>
      es' <- mapM (walkExpr (mkCursor ParOther "")) es ;;
      ss' <- mapM walkStmt ss ;;
      ret (OtherStmt es' ss')
  end
with walkBlock (b : blockStmt) {struct b} : T blockStmt :=
  match b with
  | BlockStmt lb l =>
      l' <- mapM walkStmt l ;;
      ret (BlockStmt lb l')
  end.

(** Declarations. *)
Definition walkSpec (s : spec) : T spec :=
  match s with
  | TypeSpec name ty =>
      ty' <- walkExpr (mkCursor (ParTypeSpec (NamePos name)) "Type") ty ;;
      ret (TypeSpec name ty')
  | ValueSpec names ty values =>
      ty' <- match ty with
             | None => ret None
             | Some e => e' <- walkExpr (mkCursor ParOther "Type") e ;; ret (Some e')
             end ;;
      values' <- mapM (walkExpr (mkCursor ParOther "Values")) values ;;
      ret (ValueSpec names ty' values')
  end.

Definition walkDecl (d : decl) : T decl :=
  match d with
  | FuncDecl recv name ft body =>
      let par := ParFuncDecl (NamePos name) in
      recv' <- match recv with
               | None => ret None
               | Some r => r' <- walkFieldList (mkCursor par "Recv") r ;; ret (Some r')
               end ;;
      ft' <- walkFuncType (mkCursor par "Type") ft ;;
      body' <- match body with
               | None => ret None
               | Some b => b' <- walkBlock b ;; ret (Some b')
               end ;;
      body'' <- astRewriteBody (mkCursor par "Body") body' ;;
      ret (FuncDecl recv' name ft' body'')
  | GenDecl specs =>
      specs' <- mapM walkSpec specs ;;
      ret (GenDecl specs')
  end.

(** The traversal of a file; no test of [astRewrite] succeeds on the
    root, which therefore is never replaced. *)
Definition walkFile (f : File) : T File :=
  decls' <- mapM walkDecl (Decls f) ;;
  ret (mkFile (Imports f) decls').

(** [astutil.AddNamedImport] of the [x/tools] library: the import is
    added unless the file has an import with this name and this path;
    the result tells whether it was added.  [astutil.AddImport] is the
    case of the empty name. *)
Definition AddNamedImport (name path : string) (f : File) : bool * File :=
  if existsb (fun s => Strs.eqb (imp_name s) name && Strs.eqb (imp_path s) path) (Imports f)
  then (false, f)
  else (true, mkFile (Imports f ++ [mkImportSpec name path]) (Decls f)).

Definition AddImport (path : string) (f : File) : bool * File :=
  AddNamedImport "" path f.

(** [addImports]. *)
Definition addImports (t : transformerConfig) (f : File) : bool * File :=
  let j := json (cfg_ t) in
  let r0 :=
    match existingImports t !! CtxPkgPath j with
    | None =>
        if Strs.eqb (CtxPkgAlias j) "" then AddImport (CtxPkgPath j) f
        else AddNamedImport (CtxPkgAlias j) (CtxPkgPath j) f
    | Some _ => (false, f)
    end in
  fold_left
    (fun (acc : bool * File) (entry : string * string) =>
       let '(imp, alias) := entry in
       let r := if Strs.eqb alias "" then AddImport imp (snd acc)
                else AddNamedImport alias imp (snd acc) in
       (fst r || fst acc, snd r))
    (map_to_list (newImports t)) r0.

(** One entry of the result of [transform]: the package, the index of
    the file in the package and the rewritten file. *)
Record modifiedFile : Type := mkModifiedFile {
  mf_pkg : LoadedPackage;
  mf_ind : nat;
  mf_file : File
}.

(** The local variables of [transform]. *)
Record transformLocals : Type := mkTransformLocals {
  results : list modifiedFile;
  visitedFiles : gset string;
  importsAdded : Z
}.

(** The body of the loop of [transform] over the files of a package. *)
Definition transformFile (p : LoadedPackage) (loc : transformLocals)
    (indf : nat * File) : T transformLocals :=
  let '(ind, f) := indf in
  match CompiledGoFiles p !! ind with
  | None => panic
  | Some name =>
      if bool_decide (name ∈ visitedFiles loc) then ret loc
      else
        let visited := {[name]} ∪ visitedFiles loc in
        computeExistingImports f ;;;
        initContextExpressions ;;;
        modify (set_newImports (fun _ => ∅)) ;;;
        modify (set_modified false) ;;;
        res <- walkFile f ;;
        t <- get ;;
        if modified t then
          let r := addImports t res in
          ret (mkTransformLocals
                 (results loc ++ [mkModifiedFile p ind (snd r)])
                 visited
                 (if fst r then importsAdded loc + 1 else importsAdded loc))
        else ret (mkTransformLocals (results loc) visited (importsAdded loc))
  end.

Fixpoint transformFiles (p : LoadedPackage) (loc : transformLocals)
    (files : list (nat * File)) : T transformLocals :=
  match files with
  | [] => ret loc
  | indf :: rest =>
      loc' <- transformFile p loc indf ;;
      transformFiles p loc' rest
  end.

Fixpoint transformPackages (loc : transformLocals)
    (initial : list LoadedPackage) : T transformLocals :=
  match initial with
  | [] => ret loc
  | p :: rest =>
      t <- get ;;
      if isPkgExternal (cfg_ t) (PkgPath p) then transformPackages loc rest
      else
        modify (set_currentPkg p) ;;;
        loc' <- transformFiles p loc (imap (fun ind f => (ind, f)) (Syntax p)) ;;
        transformPackages loc' rest
  end.

(** [transform]: the modified files, in the order of their rewriting. *)
Definition transform (initial : list LoadedPackage) : T (list modifiedFile) :=
  loc <- transformPackages (mkTransformLocals [] ∅ 0) initial ;;
  ret (results loc).

(** ** The analysed program ([x/tools/go/ssa], [x/tools/go/callgraph]) *)

(** [ssa.Function]; the chain of parents is finite. *)
Inductive Function : Type :=
| mkFunction (fn_id : nat) (fn_name : string) (fn_sig : signature) (fn_pos : Z)
    (fn_pkg : option Package) (fn_parent : option Function).

Definition fn_id (f : Function) : nat := match f with mkFunction i _ _ _ _ _ => i end.
Definition fn_name (f : Function) : string := match f with mkFunction _ n _ _ _ _ => n end.
Definition fn_sig (f : Function) : signature := match f with mkFunction _ _ s _ _ _ => s end.
Definition fn_pos (f : Function) : Z := match f with mkFunction _ _ _ p _ _ => p end.
Definition fn_pkg (f : Function) : option Package := match f with mkFunction _ _ _ _ p _ => p end.
Definition fn_parent (f : Function) : option Function :=
  match f with mkFunction _ _ _ _ _ p => p end.

(** [ssa.Parameter]. *)
Record Param : Type := mkParam {
  p_name : string;
  p_type : typ;
  p_pos : Z;
  p_parent : Function;
  p_objType : typ          (* Object().Type() *)
}.

(** [ssa.Value]: the kinds that the analysis tells apart. *)
Inductive value : Type :=
| VFunction (f : Function)
| VMakeClosure (f : Function) (ty : typ)
| VMakeInterface (X : value) (ty : typ)
| VChangeType (X : value) (ty : typ)
| VChangeInterface (ty : typ)
| VCall (sig : signature) (ty : typ)
| VParameter (p : Param)
| VUnOp (ty : typ)
| VConst (ty : typ)
| VPhi (ty : typ)
| VExtract (ty : typ)
| VOther (ty : typ).

(** [Value.Type()]. *)
Definition valueType (v : value) : typ :=
  match v with
  | VFunction f => Signature (fn_sig f)
  | VMakeClosure _ ty | VMakeInterface _ ty | VChangeType _ ty
  | VChangeInterface ty | VCall _ ty | VUnOp ty | VConst ty | VPhi ty
  | VExtract ty | VOther ty => ty
  | VParameter p => p_type p
  end.

(** [ssa.CallCommon]; [Method] is set for a call in invoke mode. *)
Record CallCommon : Type := mkCallCommon {
  Value : value;
  Method : option Func;
  Args : list value;
  CallSignature : signature       (* Signature() *)
}.

Definition IsInvoke (c : CallCommon) : bool := bool_decide (is_Some (Method c)).

(** [ssa.CallInstruction]. *)
Record CallSite : Type := mkCallSite {
  SiteParent : Function;          (* Parent() *)
  SitePos : Z;                    (* Pos() *)
  Common : CallCommon
}.

(** [callgraph.Edge]; the two nodes are named by their identifiers. *)
Record Edge : Type := mkEdge {
  Caller : nat;
  Site : option CallSite;
  Callee : nat
}.

(** [Edge.Pos()]. *)
Definition edgePos (e : Edge) : Z :=
  match Site e with
  | None => NoPos
  | Some s => SitePos s
  end.

(** [callgraph.Node]; the function of the root node may be nil. *)
Record Node : Type := mkNode {
  Func_ : option Function;
  ID : nat;
  In : list Edge;
  Out : list Edge
}.

(** [callgraph.Graph]: the nodes in the order in which a [range] over the
    map [Nodes] happens to produce them. *)
Record Graph : Type := mkGraph {
  Nodes : list Node
}.

(** The node behind a pointer [*callgraph.Node]. *)
Definition nodeByID (g : Graph) (id : nat) : option Node :=
  find (fun n => bool_decide (ID n = id)) (Nodes g).

(** [graph.Nodes[f]]. *)
Definition nodeOf (g : Graph) (f : Function) : option Node :=
  find (fun n => match Func_ n with
                 | Some f' => bool_decide (fn_id f' = fn_id f)
                 | None => false
                 end) (Nodes g).

(** One [types.Selection] of a method set, with [prog.MethodValue] of
    it (nil for an abstract method). *)
Record Selection : Type := mkSelection {
  sel_name : string;              (* Obj().Name() *)
  MethodValue : option Function
}.

(** The fixed part of [analyzerConfig], and what [go/types] and [ssa]
    answer about the program. *)
Record analyzerEnv : Type := mkAnalyzerEnv {
  graph : Graph;
  (* signatures used in maps and slices, per package *)
  mapAndSliceFuncs : gmap (option nat) (list signature);
  (* types.Implements(T, iface), the interface given by its identity *)
  Implements : typ -> nat -> bool;
  (* types.Identical on signatures *)
  Identical : signature -> signature -> bool;
  (* prog.MethodSets.MethodSet(T) *)
  MethodSet : typ -> list Selection;
  (* the functions that the preliminary passes find to be used by
     external code *)
  externallyUsed : list Function;
  (* the interfaces declared in the loaded packages, those of them that
     are the library interface, and the structs that embed a configured
     external type *)
  declaredIfaces : list (typ * Package);
  declaredLibIfaces : list typ;
  externalEmbedders : gset nat
}.

(** The identity of an interface type. *)
Definition ifaceID (t : typ) : option nat :=
  match t with
  | Interface id _ _ => Some id
  | _ => None
  end.

(** ** The analysis phase ([analyze.go]) *)

(** The state of the analysis: the shared configuration and the two
    maps that the functions pass around. *)
Record analyzerState : Type := mkAnalyzerState {
  acfg : config;
  nodesVisited : gset nat;
  namedModified : gset nat
}.

Abbreviation A := (M analyzerState).

Definition set_acfg (f : config -> config) (s : analyzerState) : analyzerState :=
  mkAnalyzerState (f (acfg s)) (nodesVisited s) (namedModified s).
Definition set_nodesVisited (f : gset nat -> gset nat) (s : analyzerState) : analyzerState :=
  mkAnalyzerState (acfg s) (f (nodesVisited s)) (namedModified s).
Definition set_namedModified (f : gset nat -> gset nat) (s : analyzerState) : analyzerState :=
  mkAnalyzerState (acfg s) (nodesVisited s) (f (namedModified s)).

(** A dereference of a pointer that may be nil. *)
Definition nonNil {S X} (o : option X) : M S X :=
  match o with
  | Some x => ret x
  | None => panic
  end.

(** [getUniquePosSSAFn]. *)
Definition getUniquePosSSAFn (cfg : config) (fn : Function) (pos : Z) : uniquePosInfo :=
  getUniquePosPkg cfg (fn_pkg fn) pos.

(** [getUniquePosTypesFn]. *)
Definition getUniquePosTypesFn (cfg : config) (fn : Func) (pos : Z) : uniquePosInfo :=
  getUniquePosPkg cfg (m_pkg fn) pos.

(** [getActualCallArg]. *)
Definition getActualCallArg (common : CallCommon) (ind : nat) : option value :=
  if negb (IsInvoke common) && bool_decide (is_Some (Recv (CallSignature common)))
  then Args common !! S ind
  else Args common !! ind.

(** [isFirstParamContext]. *)
Definition isFirstParamContext (cfg : config) (sig : signature)
    : bool * Z * string * string * bool :=
  match Params sig with
  | [] => (false, NoPos, CtxParamName (json cfg), "", false)
  | v :: _ =>
      let typeName :=
        match v_type v with
        | Named obj _ => tn_name obj
        | ty => typeToString ty
        end in
      let t := getTypeWithPkgFromVar (Some v) in
      if Strs.eqb t (ctxParamTypeWithPkgPathName cfg)
      then (true, v_pos v, v_name v, typeName, false)
      else if Strs.eqb t (ctxCustomParamTypeWithPkgPathName cfg)
      then (true, v_pos v,
            replaceCtxExprWildcard ctxCustomWildcard (CtxCustomExprExtract (json cfg)) (v_name v),
            typeName, true)
      else (false, NoPos, CtxParamName (json cfg), typeName, false)
  end.

(** The test that follows most calls of [isFirstParamContext]. *)
Definition skipContextParam (cfg : config) (sig : signature) : bool :=
  let '(isParamContext, _, paramName, _, custom) := isFirstParamContext cfg sig in
  isParamContext &&
  (custom || Strs.eqb paramName "_" || Strs.eqb paramName ""
   || Strs.eqb paramName (CtxParamName (json cfg))).

(** [strings.ToLower] of one ASCII character. *)
Definition toLowerAscii (c : ascii) : ascii :=
  let n := nat_of_ascii c in
  if (65 <=? n)%nat && (n <=? 90)%nat then ascii_of_nat (n + 32) else c.

(** [strings.ToLower] of the string of one byte, as in
    [strings.ToLower(n[4:5])]: a byte below [0x80] is an ASCII character;
    any other byte alone is not valid UTF-8, and the mapping writes the
    replacement character U+FFFD, the three bytes [EF BF BD], for it. *)
Definition toLowerByte (c : ascii) : string :=
  if (nat_of_ascii c <? 128)%nat then String (toLowerAscii c) EmptyString
  else String (ascii_of_nat 239) (String (ascii_of_nat 191)
         (String (ascii_of_nat 189) EmptyString)).

(** [strconv.ParseInt(s, 8, 32)]: an optional sign and octal digits. *)
Fixpoint octalDigits (s : string) (acc : Z) : option Z :=
  match s with
  | EmptyString => Some acc
  | String c s' =>
      let n := Z.of_nat (nat_of_ascii c) in
      if (48 <=? n) && (n <=? 55) then octalDigits s' (8 * acc + (n - 48))
      else None
  end.

Definition parseOctal32 (s : string) : option Z :=
  let signed (neg : bool) (digits : string) :=
    match digits with
    | EmptyString => None
    | _ =>
        v ← octalDigits digits 0;
        let v := if neg then - v else v in
        if (- 2147483648 <=? v) && (v <=? 2147483647) then Some v else None
    end in
  match s with
  | String "+" s' => signed false s'
  | String "-" s' => signed true s'
  | _ => signed false s
  end.

(** [isInitFuncName]. *)
Definition isInitFuncName (n : string) : bool :=
  let s := Strs.TrimPrefix n "init#" in
  if Strs.eqb s n then false
  else match parseOctal32 s with
       | Some i => 0 <? i
       | None => false
       end.

(** [isTestingInitOrMainFunction]. *)
Definition isTestingInitOrMainFunction (n : string) (sig : signature) : bool :=
  if (Strs.eqb n "main" || isInitFuncName n)
     && bool_decide (Results sig = []) && bool_decide (Params sig = [])
  then true
  else if (String.length n <? 5)%nat then false
  else if negb (Strs.eqb (String.substring 0 4 n) "Test") then false
  else
    match String.get 4 n with
    | None => false
    | Some c =>
        if negb (Ascii.eqb c "_") && Strs.eqb (toLowerByte c) (String c EmptyString)
        then false
        else
          match Params sig with
          | [p] =>
              let firstParamType := typeToString (v_type p) in
              Strs.eqb firstParamType testingTypeT
              || (Strs.eqb n "TestMain" && Strs.eqb firstParamType testingTypeM)
          | _ => false
          end
    end.

(** [getMethodAndInterface]: the method and the identity of the
    interface that declares it; the recursion through [Named] is the
    call of [Underlying] on an embedded type. *)
Fixpoint getMethodAndInterface (methodName : string) (iface : typ) : option (Func * nat) :=
  match iface with
  | Interface id ms es =>
      match find (fun m => Strs.eqb (m_name m) methodName) ms with
      | Some m => Some (m, id)
      | None =>
          (fix embedded (es : list typ) : option (Func * nat) :=
             match es with
             | [] => None
             | t :: es' =>
                 match getMethodAndInterface methodName t with
                 | Some r => Some r
                 | None => embedded es'
                 end
             end) es
      end
  | Named _ u => getMethodAndInterface methodName u
  | _ => None
  end.

(** [isExtReceiver]. *)
Definition isExtReceiver (cfg : config) (sig : signature) : bool :=
  match Recv sig with
  | None => false
  | Some recv =>
      let t := match v_type recv with
               | Pointer e => e
               | t => t
               end in
      match Underlying t with
      | Struct s => bool_decide (s ∈ extRecvTypes cfg)
      | _ => false
      end
  end.

(** [getFuncFromArg]. *)
Definition getFuncFromArg {S} (arg : value) : M S (option Function) :=
  match arg with
  | VChangeType (VMakeClosure f _) _ => ret (Some f)
  | VChangeType (VFunction f) _ => ret (Some f)
  | VChangeType _ _ => ret None
  | VCall sig _ =>
      if negb (bool_decide (length (Results sig) = 1%nat))
      then fatalf FatalArgResults
      else ret None
  | VParameter _ | VUnOp _ | VConst _ | VPhi _ | VExtract _ => ret None
  | _ => fatalf FatalUnrecognizedArg
  end.

(** [getUnmodifiedNamedFunctionType]. *)
Definition getUnmodifiedNamedFunctionType (t : typ) (namedModified : gset nat)
    : option (TypeName * signature) :=
  match t with
  | Named obj u =>
      match Underlying u with
      | Signature sig =>
          if bool_decide (tn_id obj ∈ namedModified) then None
          else Some (obj, sig)
      | _ => None
      end
  | _ => None
  end.

Section Analysis.
Variable env : analyzerEnv.

(** [isMapOrSliceSig]. *)
Definition isMapOrSliceSig (pkg : option Package) (sig : signature) : bool :=
  match mapAndSliceFuncs env !! (pkg_id <$> pkg) with
  | None => false
  | Some sigs => existsb (fun mapSig => Identical env sig mapSig) sigs
  end.

(** The result of [collectInterfacesAndThirdPartyEmbeds]. *)
Definition collectInterfacesAndThirdPartyEmbeds : A unit :=
  modify (set_acfg (set_declared (declaredIfaces env) (declaredLibIfaces env)
                      (externalEmbedders env))).

(** The writes of the preliminary passes
    ([collectCollectionFnsAndMarkExternalInterfaceFns],
    [markParamAsExternalFn]) into [fnVisited]: each function found to
    be used by external code is marked [extFn]. *)
Definition markExternalFns : A unit :=
  forEach (fun extFun =>
    modify (set_acfg (fun cfg =>
      set_fnVisited (insert (getUniquePosSSAFn cfg extFun (fn_pos extFun)) extFn) cfg)))
    (externallyUsed env).

(** [markFnAsFreshCtx]. *)
Definition markFnAsFreshCtx (pos : uniquePosInfo) (name pkgPath : string)
    (fnType : fnClass) (exists_ : bool) : A unit :=
  s <- get ;;
  let cfg := acfg s in
  let mark := modify (set_acfg (set_fnVisited (insert pos freshCtxFn))) in
  if (0 <? debugLevel cfg) && (negb exists_ || bool_decide (fnType = extFn)) then
    if isPkgExternal cfg pkgPath then ret tt
    else
      let msg :=
        match fnType with
        | containerSig =>
            "WARNING: signature of function " +:+ name +:+
            " is used as used as a type in construction of map or array/slice  (injecting ARTIFICIAL context)"
        | extFn =>
            "WARNING: function " +:+ name +:+
            " is used as parameter by another function from an external package (injecting ARTIFICIAL context)"
        | extPkg =>
            "WARNING: function " +:+ name +:+
            " implements interface from an external package (injecting ARTIFICIAL context)"
        | extRecv =>
            "WARNING: function " +:+ name +:+
            " receiver type embeds another external type (injecting ARTIFICIAL context)"
        | _ =>
            "WARNING: function " +:+ name +:+
            " is a function used by the test harness (injecting ARTIFICIAL context)"
        end in
      modify (set_acfg (writeWarning (fst pos) msg)) ;;;
      mark
  else mark.

(** The first loop of [addIfacesModified]: the interfaces and methods
    to modify; [None] is the early [return false]. *)
Fixpoint ifacesToModify (recvType : typ) (fnName : string)
    (known : list nat) (l : list (typ * Package)) : option (list (nat * Func)) :=
  match l with
  | [] => Some []
  | (iface, _) :: rest =>
      match ifaceID iface with
      | None => ifacesToModify recvType fnName known rest
      | Some id =>
          if negb (Implements env recvType id)
          then ifacesToModify recvType fnName known rest
          else
            match getMethodAndInterface fnName iface with
            | None => ifacesToModify recvType fnName known rest
            | Some (m, actualIface) =>
                if negb (bool_decide (actualIface ∈ known)) then None
                else r ← ifacesToModify recvType fnName known rest;
                     Some ((actualIface, m) :: r)
            end
      end
  end.

(** [addIfacesModified]. *)
Definition addIfacesModified (sig : signature) (fnName fnRecv : string) : A bool :=
  if Strs.eqb fnRecv "" then ret true
  else
    s <- get ;;
    let cfg := acfg s in
    match ifaces cfg with
    | [] => ret true
    | _ =>
        recv <- nonNil (Recv sig) ;;
        let known := omap (fun e => ifaceID (fst e)) (ifaces cfg) in
        match ifacesToModify (v_type recv) fnName known (ifaces cfg) with
        | None => ret false
        | Some l =>
            forEach (fun (e : nat * Func) =>
              let '(modifiedIface, modifiedMethod) := e in
              modify (set_acfg (fun cfg =>
                set_fnVisited
                  (insert (getUniquePosTypesFn cfg modifiedMethod (m_pos modifiedMethod))
                          regularFn) cfg)) ;;;
              modify (set_acfg (set_ifaceModified (fun im =>
                <[modifiedIface := {[fnName]} ∪ default ∅ (im !! modifiedIface)]> im))))
              l ;;;
            ret true
        end
    end.

(** The chain of tests that [collectFnDef] and [insertArtificialCtx]
    share: the class of the function is decided and stored; the result
    tells whether the function became [regularFn]. *)
Definition classifyFn (f : Function) (fnRecv : string) : A bool :=
  s <- get ;;
  let cfg := acfg s in
  let uniquePos := getUniquePosSSAFn cfg f (fn_pos f) in
  let found := fnVisited cfg !! uniquePos in
  let exists_ := bool_decide (is_Some found) in
  let fnType := default regularFn found in
  let fresh (class : fnClass) : A bool :=
    pkg <- nonNil (fn_pkg f) ;;
    markFnAsFreshCtx uniquePos (fn_name f) (Path pkg) class exists_ ;;;
    ret false in
  if (exists_ && negb (bool_decide (fnType = regularFn)))
     || isTestingInitOrMainFunction (fn_name f) (fn_sig f)
  then fresh fnType
  else if isMapOrSliceSig (fn_pkg f) (fn_sig f) then fresh containerSig
  else if isExtReceiver cfg (fn_sig f) then fresh extRecv
  else
    modified <- addIfacesModified (fn_sig f) (fn_name f) fnRecv ;;
    if modified then
      modify (set_acfg (set_fnVisited (insert uniquePos regularFn))) ;;;
      ret true
    else fresh extPkg.

(** The warning about a first parameter whose type has the name of the
    context type but comes from another package. *)
Definition otherPackageMsg (cfg : config) (what name : string) : string :=
  "WARNING: " +:+ what +:+ name +:+
  " takes the first parameter that is of type " +:+ CtxParamType (json cfg) +:+
  " defined in different package than " +:+ CtxPkgPath (json cfg) +:+ "/" +:+
  CtxPkgName (json cfg).

(** Pointer equality of two functions that may be nil. *)
Definition sameFunction (a b : option Function) : bool :=
  match a, b with
  | None, None => true
  | Some f, Some g => bool_decide (fn_id f = fn_id g)
  | _, _ => false
  end.

(** [n := nodesWorkList[l-1]; nodesWorkList = nodesWorkList[:l-1]]. *)
Fixpoint popLast {X} (l : list X) : option (list X * X) :=
  match l with
  | [] => None
  | [x] => Some ([], x)
  | x :: l' =>
      match popLast l' with
      | Some (r, y) => Some (x :: r, y)
      | None => None
      end
  end.

(** The lookup of a function in [PropagationStops]. *)
Definition propagationStops (cfg : config) (fnName recvType pkgPath pkgName : string) : bool :=
  match PropagationStops (json cfg) !! fnName with
  | Some recvs =>
      match recvs !! recvType with
      | Some pkgPaths =>
          match pkgPaths !! pkgPath with
          | Some pkgNames => bool_decide (pkgName ∈ pkgNames)
          | None => false
          end
      | None => false
      end
  | None => false
  end.

(** A call-site record that uses the name [paramName] of an existing
    context parameter. *)
Definition commonReplacementFor (cfg : config) (paramName : string) : replacementInfo :=
  let common := commonCallReplacement cfg in
  mkReplacementInfo (newName common) (argPos common) (ctxImports common)
    (ctxRegExpr common)
    (replaceCtxExprWildcard ctxWildcard (ctxRegExpr common) paramName).

(** The functions [collect] and [collectFnDef] call each other; their
    bodies are written over the two recursive calls. *)
Section Bodies.
Variable collect_ : list Node -> A unit.
Variable collectFnDef_ : list Node -> Node -> string -> string -> A string.

(** [collectFnDef]. *)
Definition collectFnDefBody (nodesWorkList : list Node) (caller : Node)
    (fnName fnRecv : string) : A string :=
  f <- nonNil (Func_ caller) ;;
  s <- get ;;
  let cfg := acfg s in
  let '(isParamContext, renameParamPos, paramName, paramType, _) :=
    isFirstParamContext cfg (fn_sig f) in
  if isParamContext then
    if Strs.eqb paramName "_" || Strs.eqb paramName "" then
      modify (set_acfg (set_renameParamsVisited
                (union {[getUniquePosSSAFn cfg f renameParamPos]}))) ;;;
      ret (CtxParamName (json cfg))
    else ret paramName
  else
    let own : A string :=
      if bool_decide (ID caller ∈ nodesVisited s) then ret (CtxParamName (json cfg))
      else
        modify (set_nodesVisited (union {[ID caller]})) ;;;
        let uniquePos := getUniquePosSSAFn cfg f (fn_pos f) in
        let found := fnVisited cfg !! uniquePos in
        (if (negb (bool_decide (is_Some found)) || bool_decide (found = Some extFn))
            && (0 <? debugLevel cfg)
            && Strs.eqb paramType (CtxParamType (json cfg))
         then
           pkg <- nonNil (fn_pkg f) ;;
           when (negb (isPkgExternal cfg (Path pkg)))
             (modify (set_acfg (writeWarning (fn_pos f)
                (otherPackageMsg cfg "function " (fn_name f)))))
         else ret tt) ;;;
        regular <- classifyFn f fnRecv ;;
        (if regular : bool then collect_ (nodesWorkList ++ [caller]) else ret tt) ;;;
        ret (CtxParamName (json cfg)) in
    match fn_parent f with
    | Some parent =>
        match nodeOf (graph env) parent with
        | Some parentNode =>
            collectFnDef_ nodesWorkList parentNode (fn_name parent)
              (getTypeWithPkgFromVar (Recv (fn_sig parent)))
        | None => own
        end
    | None => own
    end.

(** [collectFnParam]. *)
Definition collectFnParam (nodesWorkList : list Node) (edge : Edge) : A unit :=
  site <- nonNil (Site edge) ;;
  match Value (Common site) with
  | VParameter p =>
      s <- get ;;
      let cfg := acfg s in
      let uniquePos := getUniquePosSSAFn cfg (p_parent p) (p_pos p) in
      if bool_decide (uniquePos ∈ fnParamsVisited cfg) then ret tt
      else
        match p_type p with
        | Signature sig =>
            if skipContextParam cfg sig then ret tt
            else
              let '(_, _, _, paramType, _) := isFirstParamContext cfg sig in
              caller <- nonNil (nodeByID (graph env) (Caller edge)) ;;
              (if (0 <? debugLevel cfg) && Strs.eqb paramType (CtxParamType (json cfg))
               then
                 cf <- nonNil (Func_ caller) ;;
                 pkg <- nonNil (fn_pkg cf) ;;
                 when (negb (isPkgExternal cfg (Path pkg)))
                   (modify (set_acfg (writeWarning (p_pos p)
                      (otherPackageMsg cfg "argument " (p_name p +:+ " of type function")))))
               else ret tt) ;;;
              modify (set_acfg (set_fnParamsVisited (union {[uniquePos]}))) ;;;
              forEach (fun o =>
                osite <- nonNil (Site o) ;;
                let oUniquePos := getUniquePosSSAFn cfg (SiteParent osite) (edgePos o) in
                let edgeUniquePos := getUniquePosSSAFn cfg (SiteParent site) (edgePos edge) in
                if bool_decide (oUniquePos = edgeUniquePos) then
                  callee <- nonNil (nodeByID (graph env) (Callee o)) ;;
                  cf <- nonNil (Func_ callee) ;;
                  collectFnDef_ nodesWorkList callee (fn_name cf)
                    (getTypeWithPkgFromVar (Recv (fn_sig cf))) ;;;
                  ret tt
                else ret tt) (Out caller)
        | _ => ret tt
        end
  | _ => ret tt
  end.

(** The body of the loop of [collect] for an inbound edge with a
    valid position whose callee is in the scope of the call. *)
Definition collectEdge (nodesWorkList : list Node) (n : Node) (in_ : Edge)
    (site : CallSite) : A unit :=
  s <- get ;;
  let cfg := acfg s in
  if skipContextParam cfg (CallSignature (Common site)) then ret tt
  else
    let uniquePos := getUniquePosSSAFn cfg (SiteParent site) (edgePos in_) in
    caller <- nonNil (nodeByID (graph env) (Caller in_)) ;;
    cf <- nonNil (Func_ caller) ;;
    if Strs.eqb (fn_name cf) "init" then
      (if (0 <? debugLevel cfg)
          && negb (match callSites cfg !! uniquePos with
                   | Some RefNil => true
                   | _ => false
                   end)
       then
         pkg <- nonNil (fn_pkg cf) ;;
         if negb (isPkgExternal cfg (Path pkg)) then
           callee <- nonNil (nodeByID (graph env) (Callee in_)) ;;
           calleeFn <- nonNil (Func_ callee) ;;
           modify (set_acfg (writeWarning (edgePos in_)
             ("WARNING: function " +:+ fn_name calleeFn +:+
              " is called from synthetic package initializer - receives ARTFICIAL context as an argument")))
         else ret tt
       else ret tt) ;;;
      modify (set_acfg (set_callSites (insert uniquePos RefNil)))
    else
      collectFnParam nodesWorkList in_ ;;;
      modify (set_acfg (set_callSites (insert uniquePos RefCommon))) ;;;
      match fn_pkg cf with
      | None => ret tt
      | Some pkg =>
          let fnName := fn_name cf in
          let recvType := getTypeWithPkgFromVar (Recv (fn_sig cf)) in
          if propagationStops cfg fnName recvType (Path pkg) (Name pkg) then ret tt
          else
            paramName <- collectFnDef_ nodesWorkList caller fnName recvType ;;
            if negb (Strs.eqb paramName (CtxParamName (json cfg))) then
              modify (set_acfg (fun cfg =>
                set_callSites
                  (insert uniquePos (RefRecord (commonReplacementFor cfg paramName))) cfg))
            else ret tt
      end.

(** The loop of [collect] over the inbound edges of the node [n],
    and the call of [collect] that follows it. *)
Fixpoint collectEdges (nodesWorkList : list Node) (n : Node) (edges : list Edge) : A unit :=
  match edges with
  | [] => collect_ nodesWorkList
  | in_ :: rest =>
      if negb (IsValid (edgePos in_)) then collect_ nodesWorkList
      else
        nf <- nonNil (Func_ n) ;;
        site <- nonNil (Site in_) ;;
        if Strs.ContainsChar (fn_name nf) "$"
           && negb (sameFunction (fn_parent nf) (Some (SiteParent site)))
        then collectEdges nodesWorkList n rest
        else
          collectEdge nodesWorkList n in_ site ;;;
          collectEdges nodesWorkList n rest
  end.

(** [collect]. *)
Definition collectBody (nodesWorkList : list Node) : A unit :=
  match popLast nodesWorkList with
  | None => ret tt
  | Some (rest, n) => collectEdges rest n (In n)
  end.
End Bodies.

(** The recursion of [collect] and [collectFnDef], bounded by fuel. *)
Fixpoint collect (fuel : nat) (nodesWorkList : list Node) {struct fuel} : A unit :=
  match fuel with
  | O => outOfFuel
  | S fuel' => collectBody (collect fuel') (collectFnDef fuel') nodesWorkList
  end
with collectFnDef (fuel : nat) (nodesWorkList : list Node) (caller : Node)
    (fnName fnRecv : string) {struct fuel} : A string :=
  match fuel with
  | O => outOfFuel
  | S fuel' =>
      collectFnDefBody (collect fuel') (collectFnDef fuel')
        nodesWorkList caller fnName fnRecv
  end.

(** [renameCall]: [doRename] is called for a call in invoke mode and
    for a call of a function or of a closure; the result tells whether
    the call is made through a literal. *)
Definition renameCall (call : CallCommon)
    (doRename : string -> string -> string -> string -> A unit) : A bool :=
  match Method call with
  | Some m =>
      pkg <- nonNil (m_pkg m) ;;
      doRename (Path pkg) (Name pkg)
               (getTypeWithPkgFromVar (Recv (CallSignature call))) (m_name m) ;;;
      ret true
  | None =>
      let direct (f : Function) : A bool :=
        pkg <- nonNil (fn_pkg f) ;;
        doRename (Path pkg) (Name pkg)
                 (getTypeWithPkgFromVar (Recv (fn_sig f))) (fn_name f) ;;;
        ret true in
      match Value call with
      | VParameter _ => ret false
      | VMakeClosure f _ => direct f
      | VFunction f => direct f
      | _ => ret false
      end
  end.

(** The body of the loop of [processLeafCalls] over the inbound edges
    of a leaf function. *)
Definition processLeafEdge (fuel : nat) (libFnName libFnRecvType : string)
    (callReplacement : replacementInfo) (in_ : Edge) : A unit :=
  site <- nonNil (Site in_) ;;
  s <- get ;;
  let cfg := acfg s in
  let uniquePos := getUniquePosSSAFn cfg (SiteParent site) (edgePos in_) in
  let doRename (pkgPath pkgName recvType fnName : string) : A unit :=
    when (Strs.eqb pkgPath (LibPkgPath (json cfg))
          && Strs.eqb pkgName (LibPkgName (json cfg))
          && Strs.eqb recvType libFnRecvType
          && Strs.eqb fnName libFnName
          && negb (Strs.eqb (newName callReplacement) ""))
      (modify (set_acfg (set_callSitesRenamed
                 (insert uniquePos (newName callReplacement))))) in
  calledViaLiteral <- renameCall (Common site) doRename ;;
  if negb calledViaLiteral then ret tt
  else
    caller <- nonNil (nodeByID (graph env) (Caller in_)) ;;
    cf <- nonNil (Func_ caller) ;;
    paramName <- collectFnDef fuel [] caller (fn_name cf)
                   (getTypeWithPkgFromVar (Recv (fn_sig cf))) ;;
    if Strs.eqb paramName (CtxParamName (json cfg)) then
      modify (set_acfg (set_callSites (insert uniquePos (RefRecord callReplacement))))
    else
      modify (set_acfg (set_callSites (insert uniquePos (RefRecord
        (mkReplacementInfo (newName callReplacement) (argPos callReplacement)
           (ctxImports callReplacement) (ctxRegExpr callReplacement)
           (replaceCtxExprWildcard ctxWildcard (ctxRegExpr callReplacement) paramName)))))).

(** [processLeafCalls]; the work list that it returns is always
    empty, the callers having been processed by [collectFnDef]. *)
Definition processLeafCalls (fuel : nat) : A (list Node) :=
  modify (set_nodesVisited (fun _ => ∅)) ;;;
  forEach (fun n =>
    match Func_ n with
    | None => ret tt
    | Some f =>
        s <- get ;;
        let cfg := acfg s in
        forEach (fun (entry : string * gmap string replacementInfo) =>
          let '(libFnName, recvs) := entry in
          let sig := fn_sig f in
          if negb (Strs.eqb (fn_name f) libFnName) then ret tt
          else
            let recv := Recv sig in
            match libIfaces cfg with
            | _ :: _ =>
                match recv with
                | None => ret tt
                | Some r =>
                    if match fn_pkg f with
                       | Some pkg => isPkgExternal cfg (Path pkg)
                       | None => false
                       end
                    then ret tt
                    else
                      forEach (fun li =>
                        match ifaceID li with
                        | Some id =>
                            if Implements env (v_type r) id then
                              modify (set_acfg (writeWarning (fn_pos f)
                                ("WARNING: function " +:+ fn_name f +:+
                                 " implements library interface " +:+ LibIface (json cfg) +:+
                                 " and, consequently, receives context parameter but may in fact not use context"))) ;;;
                              collectFnDef fuel [] n (fn_name f)
                                (getTypeWithPkgFromVar recv) ;;;
                              ret tt
                            else ret tt
                        | None => ret tt
                        end) (libIfaces cfg)
                end
            | [] =>
                forEach (fun (e : string * replacementInfo) =>
                  let '(recvName, callReplacement) := e in
                  match fn_pkg f with
                  | None => ret tt
                  | Some pkg =>
                      if negb (Strs.eqb (Path pkg) (LibPkgPath (json cfg)))
                         || negb (Strs.eqb (Name pkg) (LibPkgName (json cfg)))
                      then ret tt
                      else
                        let libFnRecvType := getTypeWithPkgFromVar (Recv sig) in
                        if negb (Strs.eqb libFnRecvType recvName) then ret tt
                        else
                          forEach (processLeafEdge fuel libFnName libFnRecvType callReplacement)
                                  (In n)
                  end) (map_to_list recvs)
            end) (map_to_list (LibFns (json cfg)))
    end) (Nodes (graph env)) ;;;
  ret [].

(** [insertArtificialCtxCallsites]. *)
Definition insertArtificialCtxCallsites (funNode : Node) : A unit :=
  forEach (fun in_ =>
    site <- nonNil (Site in_) ;;
    s <- get ;;
    let cfg := acfg s in
    let uniquePos := getUniquePosSSAFn cfg (SiteParent site) (edgePos in_) in
    if bool_decide (is_Some (callSites cfg !! uniquePos)) then ret tt
    else
      let '(isParamContext, _, _, _, _) :=
        isFirstParamContext cfg (CallSignature (Common site)) in
      if isParamContext then ret tt
      else
        caller <- nonNil (nodeByID (graph env) (Caller in_)) ;;
        cf <- nonNil (Func_ caller) ;;
        let '(isParamContext, renameParamPos, paramName, _, _) :=
          isFirstParamContext cfg (fn_sig cf) in
        if isParamContext then
          if Strs.eqb paramName "_" || Strs.eqb paramName "" then
            modify (set_acfg (set_callSites (insert uniquePos RefCommon))) ;;;
            modify (set_acfg (set_renameParamsVisited
                      (union {[getUniquePosSSAFn cfg cf renameParamPos]})))
          else if negb (Strs.eqb paramName (CtxParamName (json cfg))) then
            modify (set_acfg (set_callSites
                      (insert uniquePos (RefRecord (commonReplacementFor cfg paramName)))))
          else
            modify (set_acfg (set_callSites (insert uniquePos RefCommon)))
        else
          match getUnmodifiedNamedFunctionType (valueType (Value (Common site)))
                  (namedModified s) with
          | None => modify (set_acfg (set_callSites (insert uniquePos RefNil)))
          | Some _ => ret tt
          end) (In funNode).

(** [insertArtificialCtx]. *)
Definition insertArtificialCtx (fun_ : Function) : A unit :=
  s <- get ;;
  let cfg := acfg s in
  let sig := fn_sig fun_ in
  let '(isParamContext, renameParamPos, paramName, paramType, custom) :=
    isFirstParamContext cfg sig in
  if isParamContext && (Strs.eqb paramName "_" || Strs.eqb paramName "") then
    modify (set_acfg (set_renameParamsVisited
              (union {[getUniquePosSSAFn cfg fun_ renameParamPos]})))
  else if skipContextParam cfg sig then ret tt
  else
    (if (0 <? debugLevel cfg) && Strs.eqb paramType (CtxParamType (json cfg))
     then
       pkg <- nonNil (fn_pkg fun_) ;;
       when (negb (isPkgExternal cfg (Path pkg)))
         (modify (set_acfg (writeWarning (fn_pos fun_)
            (otherPackageMsg cfg "function " (fn_name fun_)))))
     else ret tt) ;;;
    regular <- classifyFn fun_ (getTypeWithPkgFromVar (Recv sig)) ;;
    if regular : bool then
      match nodeOf (graph env) fun_ with
      | Some funNode => insertArtificialCtxCallsites funNode
      | None => ret tt
      end
    else ret tt.

(** The type of the argument of a call, as [collectIfaces] finds it. *)
Definition argTypeOf (arg : value) : A typ :=
  match arg with
  | VMakeInterface x _ => ret (valueType x)
  | VCall sig _ =>
      match Results sig with
      | [r] => ret (v_type r)
      | _ => fatalf FatalArgResults
      end
  | VParameter p => ret (p_objType p)
  | VUnOp ty | VExtract ty | VPhi ty | VConst ty
  | VChangeType _ ty | VChangeInterface ty => ret ty
  | _ => fatalf FatalUnrecognizedArg
  end.

(** The merge at the end of [collectIfaces]. *)
Definition mergeIfaceModified (ifaceModifiedNew : gmap nat (gset string)) : A bool :=
  foldM (fun (added : bool) (e : nat * gset string) =>
    let '(ifaceNew, funcNamesNew) := e in
    s <- get ;;
    match ifaceModified (acfg s) !! ifaceNew with
    | None =>
        modify (set_acfg (set_ifaceModified (insert ifaceNew funcNamesNew))) ;;;
        ret true
    | Some funcs =>
        if bool_decide (funcNamesNew ⊆ funcs) then ret added
        else
          modify (set_acfg (set_ifaceModified (insert ifaceNew (funcs ∪ funcNamesNew)))) ;;;
          ret true
    end) (map_to_list ifaceModifiedNew) false.

(** [collectIfaces].  The interfaces of [ifaceModified] are those
    present when a loop over the map starts; the method names of each
    are read when they are tested. *)
Definition collectIfaces : A bool :=
  let ifaceModifiedNew : gmap nat (gset string) := ∅ in
  forEach (fun n =>
    match Func_ n with
    | None => ret tt
    | Some f =>
        let sig := fn_sig f in
        (match Recv sig with
         | None => ret tt
         | Some recv =>
             s <- get ;;
             forEach (fun (e : nat * gset string) =>
               let iface := fst e in
               if Implements env (v_type recv) iface then
                 s' <- get ;;
                 if bool_decide (fn_name f ∈ default ∅ (ifaceModified (acfg s') !! iface))
                 then insertArtificialCtx f
                 else ret tt
               else ret tt) (map_to_list (ifaceModified (acfg s)))
         end) ;;;
        forEach (fun (ip : nat * Var) =>
          let '(ind, p) := ip in
          match Underlying (v_type p) with
          | Interface iface _ _ =>
              s <- get ;;
              if negb (bool_decide (is_Some (ifaceModified (acfg s) !! iface))) then ret tt
              else
                forEach (fun caller =>
                  site <- nonNil (Site caller) ;;
                  arg <- nonNil (getActualCallArg (Common site) ind) ;;
                  argType <- argTypeOf arg ;;
                  forEach (fun sel =>
                    s' <- get ;;
                    if bool_decide (sel_name sel ∈ default ∅ (ifaceModified (acfg s') !! iface))
                    then
                      match MethodValue sel with
                      | Some fun_ => insertArtificialCtx fun_
                      | None => ret tt
                      end
                    else ret tt) (MethodSet env argType)) (In n)
          | _ => ret tt
          end) (imap (fun ind p => (ind, p)) (Params sig))
    end) (Nodes (graph env)) ;;;
  mergeIfaceModified ifaceModifiedNew.

(** The first loop of an iteration of [collectNamedTypes]: the named
    function types that receive a modified function. *)
Definition discoverNamedTypes : A (gset nat) :=
  foldM (fun (new : gset nat) n =>
    match Func_ n with
    | None => ret new
    | Some f =>
        foldM (fun (new : gset nat) (ip : nat * Var) =>
          let '(ind, p) := ip in
          s <- get ;;
          match getUnmodifiedNamedFunctionType (v_type p) (namedModified s) with
          | None => ret new
          | Some (namedUnmodifed, sig) =>
              let '(isParamContext, _, _, _, _) := isFirstParamContext (acfg s) sig in
              if isParamContext then ret new
              else
                foldM (fun (new : gset nat) caller =>
                  site <- nonNil (Site caller) ;;
                  arg <- nonNil (getActualCallArg (Common site) ind) ;;
                  argFun <- getFuncFromArg arg ;;
                  match argFun with
                  | None => ret new
                  | Some argFun =>
                      s' <- get ;;
                      let cfg := acfg s' in
                      let uniqueFnPos := getUniquePosSSAFn cfg argFun (fn_pos argFun) in
                      match fnVisited cfg !! uniqueFnPos with
                      | Some fnType =>
                          if negb (bool_decide (fnType = extFn)) then
                            let uniqueNamedPos :=
                              getUniquePosPkg cfg (tn_pkg namedUnmodifed) (tn_pos namedUnmodifed) in
                            modify (set_acfg (set_fnVisited (insert uniqueNamedPos regularFn))) ;;;
                            ret ({[tn_id namedUnmodifed]} ∪ new)
                          else ret new
                      | None => ret new
                      end
                  end) (In n) new
          end) (imap (fun ind p => (ind, p)) (Params (fn_sig f))) new
    end) (Nodes (graph env)) ∅.

(** The second loop: the functions passed for the types just found. *)
Definition propagateNamedTypes (namedModifiedNew : gset nat) : A unit :=
  forEach (fun n =>
    match Func_ n with
    | None => ret tt
    | Some f =>
        forEach (fun (ip : nat * Var) =>
          let '(ind, p) := ip in
          match v_type p with
          | Named named _ =>
              if negb (bool_decide (tn_id named ∈ namedModifiedNew)) then ret tt
              else
                forEach (fun caller =>
                  site <- nonNil (Site caller) ;;
                  arg <- nonNil (getActualCallArg (Common site) ind) ;;
                  fun_ <- getFuncFromArg arg ;;
                  match fun_ with
                  | Some fun_ => insertArtificialCtx fun_
                  | None => ret tt
                  end) (In n)
          | _ => ret tt
          end) (imap (fun ind p => (ind, p)) (Params (fn_sig f)))
    end) (Nodes (graph env)).

(** [collectNamedTypes]: the loop ends when no type is found. *)
Fixpoint collectNamedTypes (fuel : nat) : A unit :=
  match fuel with
  | O => outOfFuel
  | S fuel' =>
      namedModifiedNew <- discoverNamedTypes ;;
      if bool_decide (size namedModifiedNew = 0%nat) then ret tt
      else
        propagateNamedTypes namedModifiedNew ;;;
        modify (set_namedModified (union namedModifiedNew)) ;;;
        collectNamedTypes fuel'
  end.

(** The loop of [analyze]: [for added { ... }]. *)
Fixpoint closureLoop (fuel : nat) : A unit :=
  match fuel with
  | O => outOfFuel
  | S fuel' =>
      added <- collectIfaces ;;
      collectNamedTypes fuel' ;;;
      if added : bool then closureLoop fuel' else ret tt
  end.

(** [analyze]. *)
Definition analyze (fuel : nat) : A unit :=
  collectInterfacesAndThirdPartyEmbeds ;;;
  markExternalFns ;;;
  nodesWorkList <- processLeafCalls fuel ;;
  collect fuel nodesWorkList ;;;
  modify (set_namedModified (fun _ => ∅)) ;;;
  closureLoop fuel.

End Analysis.

(** ** The whole run ([propagate]) *)

(** The transformer as [propagate] creates it. *)
Definition newTransformer (cfg : config) : transformerConfig :=
  mkTransformerConfig cfg (mkLoadedPackage "" (mkPackage 0 "" "") [] []) ∅ ∅ false ∅
    0 0 0 0 0 0.

(** [propagate], from the loaded packages and the call graph on: the
    analysis, then the transformation, on the same shared data. *)
Definition propagate (env : analyzerEnv) (initial : list LoadedPackage)
    (fuel : nat) (cfg : config) : outcome (list modifiedFile * config) :=
  match analyze env fuel (mkAnalyzerState cfg ∅ ∅) with
  | Done (_, s) =>
      match transform initial (newTransformer (acfg s)) with
      | Done (res, t) => Done (res, cfg_ t)
      | Fatal f => Fatal f
      | Panic => Panic
      | OutOfFuel => OutOfFuel
      end
  | Fatal f => Fatal f
  | Panic => Panic
  | OutOfFuel => OutOfFuel
  end.

(** * Specification

    The predicates used to state the properties of the engine, and the
    programs on which they are exercised. *)

(** ** Computations and the relations they keep *)

Section Keeps.
Context {S : Type} (R : S -> S -> Prop).

(** Every state in which [m] ends is related to the state in which it
    started. *)
Definition keeps {X} (m : M S X) : Prop :=
  forall s x s', m s = Done (x, s') -> R s s'.
End Keeps.

(** ** The state of the transformation *)

(** What the rewriting of a syntax tree leaves alone: everything but the
    warnings, the new imports, the modification flag, the set of modified
    interfaces and the statistics. *)
Definition eraseScratch (t : transformerConfig) : transformerConfig :=
  mkTransformerConfig (set_Warnings (fun _ => []) (cfg_ t)) (currentPkg t)
    (existingImports t) ∅ false ∅ 0 0 0 0 0 0.

Definition sameTables (t t' : transformerConfig) : Prop :=
  eraseScratch t' = eraseScratch t.

(** The state after the injection of an argument at a call site. *)
Definition callRewritten (t : transformerConfig) : transformerConfig :=
  incr CCalls (set_modified true t).

(** The state after the warning about a position other than the first. *)
Definition warnedFirstPosition (r : replacementInfo) (pos : Z)
    (t : transformerConfig) : transformerConfig :=
  if negb (argPos r =? 1) then set_cfg (writeWarning pos warnFirstPosition) t else t.

(** What the rewriting of a file leaves alone when the fields that are
    computed anew for each file are set aside as well: the decision
    tables and every option of the configuration but [CtxParamInvalid]. *)
Definition eraseFile (t : transformerConfig) : transformerConfig :=
  mkTransformerConfig
    (set_json (set_CtxParamInvalid "")
       (set_ctxParamTypeWithPkgAlias ""
          (set_nilCallReplacement (mkReplacementInfo "" 0 ∅ "" "")
             (set_Warnings (fun _ => []) (cfg_ t)))))
    (mkLoadedPackage "" (mkPackage 0 "" "") [] [])
    ∅ ∅ false ∅ 0 0 0 0 0 0.

Definition sameRun (t t' : transformerConfig) : Prop :=
  eraseFile t' = eraseFile t.

(** The imports of a file as [computeExistingImports] records them. *)
Definition importsOf (f : File) : gmap string string :=
  fold_left (fun m imp => <[imp_path imp := imp_name imp]> m) (Imports f) ∅.

(** The qualifier of the context package in a file: the alias under
    which the file imports it, the package name if it imports it without
    alias, otherwise the configured alias or, without one, the package
    name. *)
Definition contextQualifier (j : jsonConfig) (f : File) : string :=
  match importsOf f !! CtxPkgPath j with
  | Some pkgAlias => if negb (Strs.eqb pkgAlias "") then pkgAlias else CtxPkgName j
  | None => if Strs.eqb (CtxPkgAlias j) "" then CtxPkgName j else CtxPkgAlias j
  end.

(** The text of the type of the context parameter in a file. *)
Definition contextTypeText (j : jsonConfig) (f : File) : string :=
  contextQualifier j f +:+ "." +:+ CtxParamType j.

(** ** Imports *)

(** The loop of [addImports] over the new imports. *)
Definition addNewImports (entries : list (string * string)) (acc : bool * File) : bool * File :=
  fold_left
    (fun (acc : bool * File) (entry : string * string) =>
       let '(imp, alias) := entry in
       let r := if Strs.eqb alias "" then AddImport imp (snd acc)
                else AddNamedImport alias imp (snd acc) in
       (fst r || fst acc, snd r))
    entries acc.

(** The import of the context package that [addImports] adds to a file
    that lacks one. *)
Definition contextImport (j : jsonConfig) : importSpec :=
  mkImportSpec (CtxPkgAlias j) (CtxPkgPath j).

(** ** The packages a syntax tree mentions *)

(** The identifiers of a syntax tree. *)
Fixpoint identsExpr (e : expr) : list string :=
  match e with
  | Ident id => [IdName id]
  | SelectorExpr x s => identsExpr x ++ [IdName s]
  | CallExpr f _ args _ _ => identsExpr f ++ flat_map identsExpr args
  | FuncLit ft body =>
      identsFuncType ft ++ from_option identsBlock [] body
  | FuncTypeExpr ft => identsFuncType ft
  | InterfaceType _ ms => identsFieldList ms
  | OtherExpr _ ch => flat_map identsExpr ch
  end
with identsFuncType (ft : funcType) : list string :=
  match ft with
  | FuncType _ ps rs => identsFieldList ps ++ from_option identsFieldList [] rs
  end
with identsFieldList (fl : fieldList) : list string :=
  match fl with
  | FieldList _ l _ => flat_map identsField l
  end
with identsField (f : field) : list string :=
  match f with
  | Field names ty => map IdName names ++ identsExpr ty
  end
with identsStmt (s : stmt) : list string :=
  match s with
  | ExprStmt x => identsExpr x
  | GoStmt _ call => identsExpr call
  | DeferStmt _ call => identsExpr call
  | AssignStmt lhs _ _ rhs => flat_map identsExpr lhs ++ flat_map identsExpr rhs
  | ReturnStmt rs => flat_map identsExpr rs
  | OtherStmt es ss => flat_map identsExpr es ++ flat_map identsStmt ss
  end
with identsBlock (b : blockStmt) : list string :=
  match b with
  | BlockStmt _ l => flat_map identsStmt l
  end.

Definition identsDecl (d : decl) : list string :=
  match d with
  | FuncDecl recv name ft body =>
      from_option identsFieldList [] recv ++ [IdName name] ++ identsFuncType ft
      ++ from_option identsBlock [] body
  | GenDecl specs =>
      flat_map (fun s =>
        match s with
        | TypeSpec name ty => IdName name :: identsExpr ty
        | ValueSpec names ty values =>
            map IdName names ++ from_option identsExpr [] ty ++ flat_map identsExpr values
        end) specs
  end.

(** The code of a file refers to a package under the qualifier [q] when
    one of its identifiers is [q] or contains [q] followed by a dot. *)
Definition mentionsPkg (q : string) (f : File) : bool :=
  existsb (fun n => Strs.eqb n q || Strs.Contains n (q +:+ "."))
          (flat_map identsDecl (Decls f)).

(** * Example programs *)

(** A constant expression, and the call of a function by its name. *)
Definition basicType (n : string) : typ := Basic n.
Definition namedCall (name : string) (lparen : Z) (args : list expr) : expr :=
  CallExpr (Ident (mkIdent (lparen - 3) name)) lparen args 0 (lparen + 1).
Definition pkgCall (pkg name : string) (lparen : Z) (args : list expr) : expr :=
  CallExpr (SelectorExpr (Ident (mkIdent (lparen - 8) pkg)) (mkIdent (lparen - 4) name))
           lparen args 0 (lparen + 1).
Definition noFuel : nat := 64%nat.

(** The configuration once [analyze] has run on it. *)
Definition analyzed (env : analyzerEnv) (cfg : config) : config :=
  match analyze env noFuel (mkAnalyzerState cfg ∅ ∅) with
  | Done (_, s) => acfg s
  | _ => cfg
  end.

(** The transformer at the start of the rewriting of the package [p]. *)
Definition transformerFor (p : LoadedPackage) (cfg : config) : transformerConfig :=
  set_currentPkg p (newTransformer cfg).

(** ** The example of the README

    [main] calls [foo], [foo] calls [bar], [bar] calls the leaf
    [log.Print]; the leaf is not renamed. *)
Module Readme.

Definition jsonCfg : jsonConfig :=
  mkJsonConfig "context" "context" "" "ctx" "Context" "Background()" "log" "log" ""
    "" "" "" "" []
    {[ "Print" := {[ "" := mkReplacementInfo "" 1 ∅ "" "" ]} ]}
    ∅.

Definition cfg : config :=
  mkConfig jsonCfg 0 []
    (mkReplacementInfo "" 1 ∅ "" "ctx") (mkReplacementInfo "" 0 ∅ "" "")
    [] "" "contextcontext.Context" "" [] ∅ ∅ false ∅ ∅ ∅ ∅ ∅ ∅.

Definition pkgMain : Package := mkPackage 1 "example.com/example" "main".
Definition pkgLog : Package := mkPackage 2 "log" "log".

Definition sigNone : signature := mkSignature None [] [] false.
Definition sigBool : signature := mkSignature None [mkVar "p" (Basic "bool") 25] [] false.
Definition sigPrint : signature :=
  mkSignature None [mkVar "v" (Basic "interface{}") 1001] [] true.

Definition fnMain : Function := mkFunction 1 "main" sigNone 10 (Some pkgMain) None.
Definition fnFoo : Function := mkFunction 2 "foo" sigBool 20 (Some pkgMain) None.
Definition fnBar : Function := mkFunction 3 "bar" sigBool 30 (Some pkgMain) None.
Definition fnPrint : Function := mkFunction 4 "Print" sigPrint 1000 (Some pkgLog) None.

Definition edgeMainFoo : Edge :=
  mkEdge 1 (Some (mkCallSite fnMain 11
    (mkCallCommon (VFunction fnFoo) None [VConst (Basic "bool")] sigBool))) 2.
Definition edgeFooBar : Edge :=
  mkEdge 2 (Some (mkCallSite fnFoo 21
    (mkCallCommon (VFunction fnBar) None
       [VParameter (mkParam "p" (Basic "bool") 25 fnFoo (Basic "bool"))] sigBool))) 3.
Definition edgeBarPrint : Edge :=
  mkEdge 3 (Some (mkCallSite fnBar 31
    (mkCallCommon (VFunction fnPrint) None [VOther (Basic "[]interface{}")] sigPrint))) 4.

Definition callGraph : Graph :=
  mkGraph
    [ mkNode (Some fnMain) 1 [] [edgeMainFoo];
      mkNode (Some fnFoo) 2 [edgeMainFoo] [edgeFooBar];
      mkNode (Some fnBar) 3 [edgeFooBar] [edgeBarPrint];
      mkNode (Some fnPrint) 4 [edgeBarPrint] [] ].

Definition env : analyzerEnv :=
  mkAnalyzerEnv callGraph ∅ (fun _ _ => false) (fun _ _ => false) (fun _ => [])
    [] [] [] ∅.

Definition declMain : decl :=
  FuncDecl None (mkIdent 10 "main") (FuncType 5 (FieldList 14 [] 15) None)
    (Some (BlockStmt 16 [ExprStmt (namedCall "foo" 11 [Ident (mkIdent 12 "true")])])).
Definition declFoo : decl :=
  FuncDecl None (mkIdent 20 "foo")
    (FuncType 19 (FieldList 24 [Field [mkIdent 25 "p"] (Ident (mkIdent 26 "bool"))] 27) None)
    (Some (BlockStmt 28 [ExprStmt (namedCall "bar" 21 [Ident (mkIdent 22 "p")])])).
Definition declBar : decl :=
  FuncDecl None (mkIdent 30 "bar")
    (FuncType 29 (FieldList 34 [Field [mkIdent 35 "p"] (Ident (mkIdent 36 "bool"))] 37) None)
    (Some (BlockStmt 38 [ExprStmt (pkgCall "log" "Print" 31 [Ident (mkIdent 32 "p")])])).

Definition file : File := mkFile [mkImportSpec "" "log"] [declMain; declFoo; declBar].

Definition loaded : LoadedPackage :=
  mkLoadedPackage "example.com/example" pkgMain [file] ["example.go"].

(** The state in which the rewriting of the file starts. *)
Definition transformer : transformerConfig := transformerFor loaded (analyzed env cfg).

(** The same functions in two files: [foo] and [bar] in a file that
    imports the context package under the name [c2], [main] in a file
    without imports. *)
Definition fileA : File :=
  mkFile [mkImportSpec "c2" "context"; mkImportSpec "" "log"] [declFoo; declBar].
Definition fileB : File := mkFile [] [declMain].
Definition loadedTwo : LoadedPackage :=
  mkLoadedPackage "example.com/example" pkgMain [fileA; fileB] ["a.go"; "b.go"].
Definition transformerTwo : transformerConfig := transformerFor loadedTwo (analyzed env cfg).

Definition locals0 : transformLocals := mkTransformLocals [] ∅ 0.

(** The locals and the state after the first file, and after the
    second. *)
Definition afterA : transformLocals * transformerConfig :=
  match transformFile loadedTwo locals0 (0%nat, fileA) transformerTwo with
  | Done r => r
  | _ => (locals0, transformerTwo)
  end.
Definition afterB : transformLocals * transformerConfig :=
  match transformFile loadedTwo (fst afterA) (1%nat, fileB) (snd afterA) with
  | Done r => r
  | _ => afterA
  end.

End Readme.

(** ** A caller with a custom context

    [Caller] takes a custom context as its first parameter and calls
    the leaf [lib.A]; the extraction expression of the configuration is
    a method call on the custom context. *)
Module CustomCtx.

Definition jsonCfg : jsonConfig :=
  mkJsonConfig "context" "context" "" "ctx" "Context" "Background()" "lib" "lib" ""
    "helper" "helper" "CustomContext" "<?CTX_CUSTOM?>.Ctx()" []
    {[ "A" := {[ "" := mkReplacementInfo "" 1 ∅ "" "" ]} ]}
    ∅.

Definition cfg : config :=
  mkConfig jsonCfg 0 []
    (mkReplacementInfo "" 1 ∅ "" "ctx") (mkReplacementInfo "" 0 ∅ "" "")
    [] "" "contextcontext.Context" "helperhelper.CustomContext" [] ∅ ∅ false
    ∅ ∅ ∅ ∅ ∅ ∅.

Definition pkgApp : Package := mkPackage 1 "example.com/app" "app".
Definition pkgLib : Package := mkPackage 2 "lib" "lib".
Definition pkgHelper : Package := mkPackage 3 "helper" "helper".

Definition customContext : typ :=
  Named (mkTypeName 1 "CustomContext" (Some pkgHelper) 500) (Interface 1 [] []).

Definition sigCaller : signature :=
  mkSignature None [mkVar "cc" customContext 25] [mkVar "" (Basic "bool") 0] false.
Definition sigA : signature := mkSignature None [] [mkVar "" (Basic "bool") 0] false.

Definition fnCaller : Function := mkFunction 1 "Caller" sigCaller 20 (Some pkgApp) None.
Definition fnA : Function := mkFunction 2 "A" sigA 1000 (Some pkgLib) None.

Definition edgeCallerA : Edge :=
  mkEdge 1 (Some (mkCallSite fnCaller 41 (mkCallCommon (VFunction fnA) None [] sigA))) 2.

Definition callGraph : Graph :=
  mkGraph [ mkNode (Some fnCaller) 1 [] [edgeCallerA];
            mkNode (Some fnA) 2 [edgeCallerA] [] ].

Definition env : analyzerEnv :=
  mkAnalyzerEnv callGraph ∅ (fun _ _ => false) (fun _ _ => false) (fun _ => [])
    [] [] [] ∅.

Definition file : File :=
  mkFile [mkImportSpec "" "helper"; mkImportSpec "" "lib"]
    [ FuncDecl None (mkIdent 20 "Caller")
        (FuncType 19
           (FieldList 24
              [Field [mkIdent 25 "cc"]
                 (SelectorExpr (Ident (mkIdent 26 "helper")) (mkIdent 27 "CustomContext"))]
              28)
           (Some (FieldList 0 [Field [] (Ident (mkIdent 29 "bool"))] 0)))
        (Some (BlockStmt 30 [ReturnStmt [pkgCall "lib" "A" 41 []]])) ].

Definition loaded : LoadedPackage :=
  mkLoadedPackage "example.com/app" pkgApp [file] ["app.go"].

(** The file as the run rewrites it. *)
Definition rewritten : File :=
  mkFile [mkImportSpec "" "helper"; mkImportSpec "" "lib"; mkImportSpec "" "context"]
    [ FuncDecl None (mkIdent 20 "Caller")
        (FuncType 19
           (FieldList 24
              [Field [mkIdent 25 "cc"]
                 (SelectorExpr (Ident (mkIdent 26 "helper")) (mkIdent 27 "CustomContext"))]
              28)
           (Some (FieldList 0 [Field [] (Ident (mkIdent 29 "bool"))] 0)))
        (Some (BlockStmt 30
           [ReturnStmt [pkgCall "lib" "A" 41 [Ident (NewIdent "cc.Ctx()")]]])) ].

End CustomCtx.

(** ** A leaf without arguments and a position other than the first

    The record of the call [lib.A()] at position 41 asks for the second
    position; the debug level is zero, as in the tests of the package. *)
Module ZeroArg.

Definition record : replacementInfo := mkReplacementInfo "" 2 ∅ "" "ctx".

Definition cfg : config :=
  mkConfig Readme.jsonCfg 0 []
    (mkReplacementInfo "" 1 ∅ "" "ctx") (mkReplacementInfo "" 0 ∅ "" "")
    [] "context.Context" "contextcontext.Context" "" [] ∅ ∅ false
    ∅ {[ (41, None) := RefRecord record ]} ∅ ∅ ∅ ∅.

Definition transformer : transformerConfig := transformerFor Readme.loaded cfg.

Definition callee : expr :=
  SelectorExpr (Ident (mkIdent 33 "lib")) (mkIdent 37 "A").

(** [lib.A()()]: the recorded call is the callee of another call. *)
Definition calledResult : expr := CallExpr (CallExpr callee 41 [] 0 42) 43 [] 0 44.

End ZeroArg.


(** * Further specification

    Predicates for the properties of the parts of the engine that the
    properties above do not reach: the growth of the tables during the
    analysis, the rewriting under empty tables, the loading of the
    packages and the tables of the configuration file. *)

(** ** The tables during the analysis *)

(** The classes that the analysis stores in [fnVisited]. *)
Definition storedClass (c : fnClass) : Prop :=
  c = regularFn \/ c = freshCtxFn \/ c = extFn.

Definition storedClasses (cfg : config) : Prop :=
  forall k c, fnVisited cfg !! k = Some c -> storedClass c.

(** Inclusion, interface by interface, of the recorded method names. *)
Definition methodsIncluded (m m' : gmap nat (gset string)) : Prop :=
  forall i, default ∅ (m !! i) ⊆ default ∅ (m' !! i).

(** What a step of the analysis may do to the shared data: the options
    of the configuration stay, the tables gain entries, the warnings are
    extended at their end, and only at a positive debug level. *)
Record grows (s s' : analyzerState) : Prop := mkGrows {
  grows_json : json (acfg s') = json (acfg s);
  grows_debugLevel : debugLevel (acfg s') = debugLevel (acfg s);
  grows_common : commonCallReplacement (acfg s') = commonCallReplacement (acfg s);
  grows_nil : nilCallReplacement (acfg s') = nilCallReplacement (acfg s);
  grows_alias : ctxParamTypeWithPkgAlias (acfg s') = ctxParamTypeWithPkgAlias (acfg s);
  grows_pathName :
    ctxParamTypeWithPkgPathName (acfg s') = ctxParamTypeWithPkgPathName (acfg s);
  grows_custom :
    ctxCustomParamTypeWithPkgPathName (acfg s')
    = ctxCustomParamTypeWithPkgPathName (acfg s);
  grows_fsets : fsets (acfg s') = fsets (acfg s);
  grows_largeCode : largeCode (acfg s') = largeCode (acfg s);
  grows_fnVisited : dom (fnVisited (acfg s)) ⊆ dom (fnVisited (acfg s'));
  grows_callSites : dom (callSites (acfg s)) ⊆ dom (callSites (acfg s'));
  grows_renamed : dom (callSitesRenamed (acfg s)) ⊆ dom (callSitesRenamed (acfg s'));
  grows_ifaceModified :
    methodsIncluded (ifaceModified (acfg s)) (ifaceModified (acfg s'));
  grows_fnParams : fnParamsVisited (acfg s) ⊆ fnParamsVisited (acfg s');
  grows_renameParams : renameParamsVisited (acfg s) ⊆ renameParamsVisited (acfg s');
  grows_warnings : Warnings (acfg s) `prefix_of` Warnings (acfg s');
  grows_silent : debugLevel (acfg s) <= 0 -> Warnings (acfg s') = Warnings (acfg s);
  grows_classes : storedClasses (acfg s) -> storedClasses (acfg s')
}.

(** ** The state during the rewriting *)

(** What the rewriting does to the warnings: they are extended at their
    end, and only at a positive debug level. *)
Record quiet (t t' : transformerConfig) : Prop := mkQuiet {
  quiet_debugLevel : debugLevel (cfg_ t') = debugLevel (cfg_ t);
  quiet_warnings : Warnings (cfg_ t) `prefix_of` Warnings (cfg_ t');
  quiet_silent : debugLevel (cfg_ t) <= 0 -> Warnings (cfg_ t') = Warnings (cfg_ t)
}.

(** The package being rewritten stays. *)
Definition samePackage (t t' : transformerConfig) : Prop :=
  currentPkg t' = currentPkg t.

(** ** Example: a node with an inbound edge without position *)

Module InvalidEdge.
(** The second inbound edge of [bar] in the example of the README has
    lost its call site; a third edge follows it. *)
Definition noSite : Edge := mkEdge 2 None 3.
Definition node : Node :=
  mkNode (Some Readme.fnBar) 3 [Readme.edgeFooBar; noSite; Readme.edgeFooBar] [].
End InvalidEdge.

(** ** Tables that ask for no rewriting *)

(** No call site is recorded, no parameter is to be rewritten or
    renamed, and no function is classed [regularFn] or [freshCtxFn]. *)
Definition inert (cfg : config) : Prop :=
  callSites cfg = ∅
  /\ callSitesRenamed cfg = ∅
  /\ fnParamsVisited cfg = ∅
  /\ renameParamsVisited cfg = ∅
  /\ forall k c, fnVisited cfg !! k = Some c -> c <> regularFn /\ c <> freshCtxFn.

(** Every file of the package has a name in [CompiledGoFiles]. *)
Definition filesNamed (p : LoadedPackage) : Prop :=
  (length (Syntax p) <= length (CompiledGoFiles p))%nat.

(** Under inert tables the computation [m] returns [x] and leaves the
    state as it is. *)
Definition unchanged {X} (m : T X) (x : X) : Prop :=
  forall t, inert (cfg_ t) -> m t = Done (x, t).

(** ** The files that the transformation reports *)

(** The name of a reported file. *)
Definition resultName (mf : modifiedFile) : option string :=
  CompiledGoFiles (mf_pkg mf) !! mf_ind mf.

(** A reported file belongs to a package of the list [initial] that is
    not external for [cfg], and stands for a file of that package. *)
Definition reportedFrom (cfg : config) (initial : list LoadedPackage)
    (mf : modifiedFile) : Prop :=
  mf_pkg mf ∈ initial
  /\ isPkgExternal cfg (PkgPath (mf_pkg mf)) = false
  /\ is_Some (Syntax (mf_pkg mf) !! mf_ind mf)
  /\ is_Some (resultName mf).

(** The invariant of the loops of [transform]: the files reported so
    far, each with its name among the visited ones, and no name twice. *)
Definition reportedSoFar (cfg : config) (initial : list LoadedPackage)
    (loc : transformLocals) : Prop :=
  (forall mf, mf ∈ results loc ->
     reportedFrom cfg initial mf
     /\ exists name, resultName mf = Some name /\ name ∈ visitedFiles loc)
  /\ NoDup (resultName <$> results loc).

(** The result of a computation, without the state in which it ends. *)
Definition resultOf {S X} (o : outcome (X * S)) : outcome X :=
  match o with
  | Done (x, _) => Done x
  | Fatal f => Fatal f
  | Panic => Panic
  | OutOfFuel => OutOfFuel
  end.

(** ** The context package in a file *)

(** The name by which the code of a file refers to the context package
    when it imports it by [spec]: the name of the import, or the name of
    the package for an import without name. *)
Definition importedName (j : jsonConfig) (spec : importSpec) : string :=
  if Strs.eqb (imp_name spec) "" then CtxPkgName j else imp_name spec.

(** The context expression of a call-site record before its imports are
    looked at: the expression of the record, or, if it has none, the
    pattern of the record with the name of the context parameter in
    the place of the wildcard. *)
Definition contextExpression (j : jsonConfig) (r : replacementInfo) : string :=
  if Strs.eqb (ctxExpr r) ""
  then replaceCtxExprWildcard ctxWildcard (ctxRegExpr r) (CtxParamName j)
  else ctxExpr r.

(** The alias that fills the alias wildcard for the import [imp] with
    the configured alias [alias]: the name under which the file imports
    the path, if it does so under a name, otherwise the configured
    alias. *)
Definition aliasFor (existing : gmap string string) (imp alias : string) : string :=
  match existing !! imp with
  | Some a => if Strs.eqb a "" then alias else a
  | None => alias
  end.

(** ** Parameter lists *)

(** A field with names, and a list of fields that are all named or all
    unnamed, as the syntax of Go requires of a parameter list. *)
Definition fieldNamed (f : field) : bool :=
  match f with
  | Field [] _ => false
  | Field (_ :: _) _ => true
  end.

Definition uniformNames (l : list field) : Prop :=
  Forall (fun f => fieldNamed f = true) l \/ Forall (fun f => fieldNamed f = false) l.

(** The fields of a field list. *)
Definition fieldsOf (fl : fieldList) : list field :=
  match fl with FieldList _ l _ => l end.

(** ** Types named in the configuration file *)

(** The type [ty] is the type that the configuration file calls [T] in
    the package with path [path] and name [name]: the named type [T] of
    that package or, for [T] with a leading star, the pointer to it. *)
Definition namedIn (path name T : string) (ty : typ) : Prop :=
  exists obj u p,
    tn_pkg obj = Some p /\ Path p = path /\ Name p = name
    /\ tn_name obj <> "" /\ Strs.HasPrefix (tn_name obj) "*" = false
    /\ ((T = tn_name obj /\ ty = Named obj u)
        \/ (T = "*" +:+ tn_name obj /\ ty = Pointer (Named obj u))).

(** ** Example: a function that takes a context *)

Module WithContext.
Definition pkgContext : Package := mkPackage 3 "context" "context".
Definition contextType : typ :=
  Named (mkTypeName 1 "Context" (Some pkgContext) 500) (Interface 1 [] []).
Definition param : Var := mkVar "_" contextType 61.
(** [func f(_ context.Context, p bool)]. *)
Definition sig : signature :=
  mkSignature None [param; mkVar "p" (Basic "bool") 70] [] false.
End WithContext.

(** ** The tables of the configuration file

    [json.Unmarshal] hands the lists of the configuration file to the
    [UnmarshalJSON] methods of the package as decoded values; an entry
    of such a list is a record here, an optional key an [option]. *)

(** The description of a receiver type. *)
Record recvDesc : Type := mkRecvDesc {
  rd_pkgPath : string;
  rd_pkgName : string;
  rd_type : string
}.

(** An entry of [PropagationStops]. *)
Record fnDesc : Type := mkFnDesc {
  fd_name : string;
  fd_pkgPath : string;
  fd_pkgName : string;
  fd_recv : option recvDesc
}.

(** An entry of [LibFns]; an import of [CtxImports] is a path with an
    optional alias. *)
Record libFnDesc : Type := mkLibFnDesc {
  lf_name : string;
  lf_recv : option recvDesc;
  lf_newName : option string;
  lf_argPos : option Z;
  lf_ctxImports : option (list (string * option string));
  lf_ctxExpr : option string
}.

Abbreviation pkgInfo := (gmap string (gset string)) (only parsing).
Abbreviation fnInfo := (gmap string (gmap string (gmap string (gset string)))) (only parsing).
Abbreviation fnReplacementInfo := (gmap string (gmap string replacementInfo)) (only parsing).

(** [getRecvStringFromJson]. *)
Definition getRecvStringFromJson (mapping : option recvDesc) : outcome string :=
  match mapping with
  | None => Done ""
  | Some recvDesc =>
      getQualifiedType (rd_type recvDesc) (rd_pkgPath recvDesc) (rd_pkgName recvDesc)
  end.

(** [mapPkgInfo]. *)
Definition mapPkgInfo (pkgs : pkgInfo) (pkgPath pkgName : string) : pkgInfo :=
  <[pkgPath := {[pkgName]} ∪ default ∅ (pkgs !! pkgPath)]> pkgs.

(** [mapFnToPkgInfo]. *)
Definition mapFnToPkgInfo (fns : fnInfo) (fnName recv pkgPath pkgName : string) : fnInfo :=
  let receivers := default ∅ (fns !! fnName) in
  let pkgs := default ∅ (receivers !! recv) in
  <[fnName := <[recv := mapPkgInfo pkgs pkgPath pkgName]> receivers]> fns.

(** [mapFnToReplacementInfo]. *)
Definition mapFnToReplacementInfo (fns : fnReplacementInfo) (fnName recv : string)
    (replacement : replacementInfo) : fnReplacementInfo :=
  <[fnName := <[recv := replacement]> (default ∅ (fns !! fnName))]> fns.

(** [fnInfo.UnmarshalJSON], on the decoded list. *)
Fixpoint unmarshalFnInfo (m : fnInfo) (data : list fnDesc) : outcome fnInfo :=
  match data with
  | [] => Done m
  | fnDesc :: rest =>
      match getRecvStringFromJson (fd_recv fnDesc) with
      | Done recv =>
          unmarshalFnInfo
            (mapFnToPkgInfo m (fd_name fnDesc) recv (fd_pkgPath fnDesc) (fd_pkgName fnDesc))
            rest
      | Fatal f => Fatal f
      | Panic => Panic
      | OutOfFuel => OutOfFuel
      end
  end.

(** The record that [fnReplacementInfo.UnmarshalJSON] builds for an
    entry: a missing position is the first one, a missing alias the
    empty one. *)
Definition replacementOf (fnDesc : libFnDesc) : replacementInfo :=
  mkReplacementInfo
    (default "" (lf_newName fnDesc))
    (default 1 (lf_argPos fnDesc))
    (match lf_ctxImports fnDesc with
     | Some imports =>
         fold_left (fun m (e : string * option string) => <[e.1 := default "" e.2]> m)
                   imports ∅
     | None => ∅
     end)
    (default "" (lf_ctxExpr fnDesc))
    "".

(** [fnReplacementInfo.UnmarshalJSON], on the decoded list. *)
Fixpoint unmarshalLibFns (m : fnReplacementInfo) (data : list libFnDesc)
    : outcome fnReplacementInfo :=
  match data with
  | [] => Done m
  | fnDesc :: rest =>
      match getRecvStringFromJson (lf_recv fnDesc) with
      | Done recv =>
          unmarshalLibFns
            (mapFnToReplacementInfo m (lf_name fnDesc) recv (replacementOf fnDesc)) rest
      | Fatal f => Fatal f
      | Panic => Panic
      | OutOfFuel => OutOfFuel
      end
  end.

(** The test of [collect] on [PropagationStops]. *)
Definition stopsAt (m : fnInfo) (fnName recvType pkgPath pkgName : string) : bool :=
  match m !! fnName with
  | Some recvs =>
      match recvs !! recvType with
      | Some pkgPaths =>
          match pkgPaths !! pkgPath with
          | Some pkgNames => bool_decide (pkgName ∈ pkgNames)
          | None => false
          end
      | None => false
      end
  | None => false
  end.

(** The record of a leaf function with a given receiver. *)
Definition leafRecord (m : fnReplacementInfo) (fnName recv : string)
    : option replacementInfo :=
  recvs ← m !! fnName; recvs !! recv.

Global Instance outcome_eq_dec {X} `{EqDecision X} : EqDecision (outcome X).
Proof. solve_decision. Defined.

(** ** Example: a configuration with a propagation stop *)

Module Stops.
(** [{"Name": "foo", "PkgPath": "example.com/example", "PkgName": "main"}]. *)
Definition data : list fnDesc := [mkFnDesc "foo" "example.com/example" "main" None].

Definition jsonCfg : jsonConfig :=
  mkJsonConfig "context" "context" "" "ctx" "Context" "Background()" "log" "log" ""
    "" "" "" "" []
    {[ "Print" := {[ "" := mkReplacementInfo "" 1 ∅ "" "" ]} ]}
    {[ "foo" := {[ "" := {[ "example.com/example" := {[ "main" ]} ]} ]} ]}.

Definition cfg : config :=
  mkConfig jsonCfg 0 []
    (mkReplacementInfo "" 1 ∅ "" "ctx") (mkReplacementInfo "" 0 ∅ "" "")
    [] "" "contextcontext.Context" "" [] ∅ ∅ false ∅ ∅ ∅ ∅ ∅ ∅.

(** [{"Name": "Print"}], the list of leaf functions of the README. *)
Definition leaves : list libFnDesc := [mkLibFnDesc "Print" None None None None None].
End Stops.

(** ** Calls without arguments *)

(** The position under which a call is looked up in [callSitesRenamed]
    and [callSites] when it is visited ([renameCallSite]): the keyword of
    a [go] or [defer] statement, otherwise the left parenthesis. *)
Definition sitePos (c : cursor) (lparen : Z) : Z :=
  match Parent c with
  | ParGoStmt g => g
  | ParDeferStmt d => d
  | _ => lparen
  end.

(** What the loop of [rewriteCallSite] over the arguments of a call
    makes of one argument: a call without arguments that is recorded at
    its own left parenthesis receives one argument, an identifier; every
    other argument stays as it is. *)
Definition nestedRewritten (t : transformerConfig) (a a' : expr) : Prop :=
  match a with
  | CallExpr fn lparen [] ell rparen =>
      match callSites (cfg_ t) !! posKey t lparen with
      | Some _ => exists s, a' = CallExpr fn lparen [Ident (NewIdent s)] ell rparen
      | None => a' = a
      end
  | _ => a' = a
  end.

(** [bar(lib.A())]: the recorded call [lib.A()] of [ZeroArg] is the
    argument of a call that is not recorded. *)
Module NestedArg.

Definition bar : expr := Ident (mkIdent 20 "bar").

Definition inner : expr := CallExpr ZeroArg.callee 41 [] 0 42.

Definition rewritten : expr :=
  CallExpr bar 23 [CallExpr ZeroArg.callee 41 [Ident (NewIdent "ctx")] 0 42] 0 43.

End NestedArg.

(** [go lib.A()]: the call is recorded at the position of the keyword. *)
Module GoCall.

Definition cfg : config :=
  mkConfig Readme.jsonCfg 0 []
    (mkReplacementInfo "" 1 ∅ "" "ctx") (mkReplacementInfo "" 0 ∅ "" "")
    [] "context.Context" "contextcontext.Context" "" [] ∅ ∅ false
    ∅ {[ (30, None) := RefRecord ZeroArg.record ]} ∅ ∅ ∅ ∅.

Definition transformer : transformerConfig := transformerFor Readme.loaded cfg.

Definition cursor_ : cursor := mkCursor (ParGoStmt 30) "Call".

End GoCall.

(** ** Test functions *)

(** A name that starts with [Test] and has a fifth byte. *)
Definition testName (c : ascii) (rest : string) : string :=
  String "T" (String "e" (String "s" (String "t" (String c rest)))).

(** An ASCII capital letter, or a byte that is not ASCII. *)
Definition upperOrNotAscii (c : ascii) : bool :=
  let n := nat_of_ascii c in
  ((65 <=? n)%nat && (n <=? 90)%nat) || (128 <=? n)%nat.

(** [func(t *testing.T)]. *)
Module TestFn.
Definition pkgTesting : Package := mkPackage 4 "testing" "testing".
Definition param : Var :=
  mkVar "t" (Pointer (Named (mkTypeName 9 "T" (Some pkgTesting) 700) (Struct 9))) 710.
Definition sig : signature := mkSignature None [param] [] false.
End TestFn.

(** ** Example: the edge without position comes first *)

Module InvalidFirst.
(** The first inbound edge of [bar] has no call site; the call from
    [foo] follows it. *)
Definition node : Node :=
  mkNode (Some Readme.fnBar) 3 [InvalidEdge.noSite; Readme.edgeFooBar] [].
(** The same node with the call from [foo] alone. *)
Definition valid : Node := mkNode (Some Readme.fnBar) 3 [Readme.edgeFooBar] [].
Definition start : analyzerState := mkAnalyzerState Readme.cfg ∅ ∅.
End InvalidFirst.

(** ** Example: three interfaces and three receivers

    [[
    type I interface { Foo(); A() }
    type J interface { Foo(); B() }
    type K interface { Foo(); C() }
    func (t T0) Foo() { log.Print("x") }   // T0 has Foo and A
    func (t T1) Foo() {}                   // T1 has Foo, A and B
    func (t T2) Foo() {}                   // T2 has Foo, B and C
    ]]
    [T0] implements [I], [T1] implements [I] and [J], [T2] implements
    [J] and [K].  The nodes of the call graph come in the order
    [T2.Foo], [T1.Foo], [T0.Foo], [log.Print]. *)
Module Closure.

Definition pkgMain : Package := Readme.pkgMain.

Definition method (name : string) (pos : Z) : Func := mkFunc name (Some pkgMain) pos.

Definition ifaceI : typ := Interface 1 [method "Foo" 101; method "A" 102] [].
Definition ifaceJ : typ := Interface 2 [method "Foo" 111; method "B" 112] [].
Definition ifaceK : typ := Interface 3 [method "Foo" 121; method "C" 122] [].

Definition T0 : typ := Named (mkTypeName 10 "T0" (Some pkgMain) 200) (Struct 10).
Definition T1 : typ := Named (mkTypeName 11 "T1" (Some pkgMain) 210) (Struct 11).
Definition T2 : typ := Named (mkTypeName 12 "T2" (Some pkgMain) 220) (Struct 12).

(** [types.Implements] on the three receivers. *)
Definition implements (t : typ) (iface : nat) : bool :=
  match t with
  | Named obj _ =>
      match tn_id obj, iface with
      | 10%nat, 1%nat => true
      | 11%nat, 1%nat | 11%nat, 2%nat => true
      | 12%nat, 2%nat | 12%nat, 3%nat => true
      | _, _ => false
      end
  | _ => false
  end.

Definition sigFoo (recv : typ) (pos : Z) : signature :=
  mkSignature (Some (mkVar "t" recv pos)) [] [] false.

Definition fooT0 : Function := mkFunction 1 "Foo" (sigFoo T0 301) 300 (Some pkgMain) None.
Definition fooT1 : Function := mkFunction 2 "Foo" (sigFoo T1 311) 310 (Some pkgMain) None.
Definition fooT2 : Function := mkFunction 3 "Foo" (sigFoo T2 321) 320 (Some pkgMain) None.

Definition edgeFooPrint : Edge :=
  mkEdge 1 (Some (mkCallSite fooT0 305
    (mkCallCommon (VFunction Readme.fnPrint) None [VOther (Basic "[]interface{}")]
       Readme.sigPrint))) 4.

Definition callGraph : Graph :=
  mkGraph
    [ mkNode (Some fooT2) 3 [] [];
      mkNode (Some fooT1) 2 [] [];
      mkNode (Some fooT0) 1 [] [edgeFooPrint];
      mkNode (Some Readme.fnPrint) 4 [edgeFooPrint] [] ].

Definition env : analyzerEnv :=
  mkAnalyzerEnv callGraph ∅ implements (fun _ _ => false) (fun _ => [])
    [] [(ifaceI, pkgMain); (ifaceJ, pkgMain); (ifaceK, pkgMain)] [] ∅.

Definition start : analyzerState := mkAnalyzerState Readme.cfg ∅ ∅.

(** One more pass of the body of the loop of [analyze]. *)
Definition pass : A unit :=
  bind (collectIfaces env) (fun _ => collectNamedTypes env noFuel).

End Closure.

(** ** A caller that has a context parameter *)

(** The record of a call site in a caller whose first parameter is a
    context with the name [paramName]. *)
Definition siteRecordFor (cfg : config) (paramName : string) : replacementRef :=
  if Strs.eqb paramName "_" || Strs.eqb paramName ""
     || Strs.eqb paramName (CtxParamName (json cfg))
  then RefCommon
  else RefRecord (commonReplacementFor cfg paramName).

(** [[
    func bar(ctx context.Context, p bool) { baz(p); qux(ctx); g() }
    func baz(p bool) { f := func() {}; f(); log.Print(p) }
    func qux(ctx context.Context) {}
    ]]
    with the configuration of the README; [g] is a variable of function
    type, and the call graph has an edge from its call to the function
    literal of [baz]. *)
Module CtxCaller.

Definition sigBar : signature :=
  mkSignature None
    [mkVar "ctx" WithContext.contextType 25; mkVar "p" (Basic "bool") 27] [] false.
Definition sigQux : signature :=
  mkSignature None [mkVar "ctx" WithContext.contextType 65] [] false.

Definition fnBar : Function := mkFunction 1 "bar" sigBar 20 (Some Readme.pkgMain) None.
Definition fnBaz : Function :=
  mkFunction 2 "baz" Readme.sigBool 50 (Some Readme.pkgMain) None.
Definition fnQux : Function := mkFunction 3 "qux" sigQux 60 (Some Readme.pkgMain) None.
(** A function literal of [baz] that the call graph takes to be called
    from [bar]. *)
Definition fnLit : Function :=
  mkFunction 4 "baz$1" Readme.sigNone 55 (Some Readme.pkgMain) (Some fnBaz).

Definition siteBaz : CallSite :=
  mkCallSite fnBar 31
    (mkCallCommon (VFunction fnBaz) None
       [VParameter (mkParam "p" (Basic "bool") 27 fnBar (Basic "bool"))] Readme.sigBool).
Definition siteQux : CallSite :=
  mkCallSite fnBar 35
    (mkCallCommon (VFunction fnQux) None
       [VParameter (mkParam "ctx" WithContext.contextType 25 fnBar WithContext.contextType)]
       sigQux).
Definition siteLit : CallSite :=
  mkCallSite fnBar 39
    (mkCallCommon (VMakeClosure fnLit (Signature Readme.sigNone)) None [] Readme.sigNone).

Definition edgeBaz : Edge := mkEdge 1 (Some siteBaz) 2.
Definition edgeQux : Edge := mkEdge 1 (Some siteQux) 3.
Definition edgeLit : Edge := mkEdge 1 (Some siteLit) 4.
(** An edge from [bar] to [baz] without call site. *)
Definition edgeNoSite : Edge := mkEdge 1 None 2.

Definition nodeBar : Node := mkNode (Some fnBar) 1 [] [edgeBaz; edgeQux; edgeLit].
Definition nodeBaz : Node := mkNode (Some fnBaz) 2 [edgeBaz] [].
Definition nodeQux : Node := mkNode (Some fnQux) 3 [edgeQux] [].
Definition nodeLit : Node := mkNode (Some fnLit) 4 [edgeLit] [].
Definition nodeBazNoSite : Node := mkNode (Some fnBaz) 2 [edgeNoSite] [].

Definition env : analyzerEnv :=
  mkAnalyzerEnv (mkGraph [nodeBar; nodeBaz; nodeQux; nodeLit]) ∅
    (fun _ _ => false) (fun _ _ => false) (fun _ => []) [] [] [] ∅.

Definition start : analyzerState := mkAnalyzerState Readme.cfg ∅ ∅.

End CtxCaller.

Section AstInduction.
Variables (Pe : expr -> Prop) (Pt : funcType -> Prop) (Pl : fieldList -> Prop)
          (Pf : field -> Prop) (Ps : stmt -> Prop) (Pb : blockStmt -> Prop).

Hypothesis HIdent : forall id, Pe (Ident id).
Hypothesis HSelector : forall x s, Pe x -> Pe (SelectorExpr x s).
Hypothesis HCall : forall f lp args el rp,
    Pe f -> Forall Pe args -> Pe (CallExpr f lp args el rp).
Hypothesis HFuncLit : forall ft body,
    Pt ft -> from_option Pb True body -> Pe (FuncLit ft body).
Hypothesis HFuncTypeExpr : forall ft, Pt ft -> Pe (FuncTypeExpr ft).
Hypothesis HInterface : forall p ms, Pl ms -> Pe (InterfaceType p ms).
Hypothesis HOtherExpr : forall p ch, Forall Pe ch -> Pe (OtherExpr p ch).
Hypothesis HFuncType : forall f ps rs,
    Pl ps -> from_option Pl True rs -> Pt (FuncType f ps rs).
Hypothesis HFieldList : forall o l c, Forall Pf l -> Pl (FieldList o l c).
Hypothesis HField : forall names ty, Pe ty -> Pf (Field names ty).
Hypothesis HExprStmt : forall x, Pe x -> Ps (ExprStmt x).
Hypothesis HGoStmt : forall g call, Pe call -> Ps (GoStmt g call).
Hypothesis HDeferStmt : forall d call, Pe call -> Ps (DeferStmt d call).
Hypothesis HAssignStmt : forall lhs p d rhs,
    Forall Pe lhs -> Forall Pe rhs -> Ps (AssignStmt lhs p d rhs).
Hypothesis HReturnStmt : forall rs, Forall Pe rs -> Ps (ReturnStmt rs).
Hypothesis HOtherStmt : forall es ss,
    Forall Pe es -> Forall Ps ss -> Ps (OtherStmt es ss).
Hypothesis HBlockStmt : forall lb l, Forall Ps l -> Pb (BlockStmt lb l).

Fixpoint expr_mut (e : expr) : Pe e :=
  let all :=
    fix all (l : list expr) : Forall Pe l :=
      match l with
      | [] => @List.Forall_nil _ Pe
      | a :: l' => @List.Forall_cons _ Pe a l' (expr_mut a) (all l')
      end in
  match e with
  | Ident id => HIdent id
  | SelectorExpr x s => HSelector x s (expr_mut x)
  | CallExpr f lp args el rp => HCall f lp args el rp (expr_mut f) (all args)
  | FuncLit ft body =>
      HFuncLit ft body (funcType_mut ft)
        match body return from_option Pb True body with
        | Some b => blockStmt_mut b
        | None => I
        end
  | FuncTypeExpr ft => HFuncTypeExpr ft (funcType_mut ft)
  | InterfaceType p ms => HInterface p ms (fieldList_mut ms)
  | OtherExpr p ch => HOtherExpr p ch (all ch)
  end
with funcType_mut (ft : funcType) : Pt ft :=
  match ft with
  | FuncType f ps rs =>
      HFuncType f ps rs (fieldList_mut ps)
        match rs return from_option Pl True rs with
        | Some r => fieldList_mut r
        | None => I
        end
  end
with fieldList_mut (fl : fieldList) : Pl fl :=
  match fl with
  | FieldList o l c =>
      HFieldList o l c
        ((fix all (l : list field) : Forall Pf l :=
            match l with
            | [] => @List.Forall_nil _ Pf
            | a :: l' => @List.Forall_cons _ Pf a l' (field_mut a) (all l')
            end) l)
  end
with field_mut (f : field) : Pf f :=
  match f with
  | Field names ty => HField names ty (expr_mut ty)
  end
with stmt_mut (s : stmt) : Ps s :=
  let alle :=
    fix all (l : list expr) : Forall Pe l :=
      match l with
      | [] => @List.Forall_nil _ Pe
      | a :: l' => @List.Forall_cons _ Pe a l' (expr_mut a) (all l')
      end in
  match s with
  | ExprStmt x => HExprStmt x (expr_mut x)
  | GoStmt g call => HGoStmt g call (expr_mut call)
  | DeferStmt d call => HDeferStmt d call (expr_mut call)
  | AssignStmt lhs p d rhs => HAssignStmt lhs p d rhs (alle lhs) (alle rhs)
  | ReturnStmt rs => HReturnStmt rs (alle rs)
  | OtherStmt es ss =>
      HOtherStmt es ss (alle es)
        ((fix all (l : list stmt) : Forall Ps l :=
            match l with
            | [] => @List.Forall_nil _ Ps
            | a :: l' => @List.Forall_cons _ Ps a l' (stmt_mut a) (all l')
            end) ss)
  end
with blockStmt_mut (b : blockStmt) : Pb b :=
  match b with
  | BlockStmt lb l =>
      HBlockStmt lb l
        ((fix all (l : list stmt) : Forall Ps l :=
            match l with
            | [] => @List.Forall_nil _ Ps
            | a :: l' => @List.Forall_cons _ Ps a l' (stmt_mut a) (all l')
            end) l)
  end.

Lemma ast_mutind :
  (forall e, Pe e) /\ (forall ft, Pt ft) /\ (forall fl, Pl fl)
  /\ (forall f, Pf f) /\ (forall s, Ps s) /\ (forall b, Pb b).
Proof.
  repeat split;
    [apply expr_mut | apply funcType_mut | apply fieldList_mut
    | apply field_mut | apply stmt_mut | apply blockStmt_mut].
Qed.
End AstInduction.

(** * Properties *)

(** * Reasoning about computations *)

Section KeepsFacts.
Context {S : Type} (R : S -> S -> Prop) `{!PreOrder R}.

Lemma keeps_ret {X} (x : X) : keeps R (ret x).
Proof. intros s y s' H. inversion H; subst. reflexivity. Qed.

Lemma keeps_bind {X Y} (m : M S X) (k : X -> M S Y) :
  keeps R m -> (forall x, keeps R (k x)) -> keeps R (bind m k).
Proof.
  intros Hm Hk s y s' H. unfold bind in H.
  destruct (m s) as [[x s1]| | |] eqn:E; try discriminate.
  transitivity s1; [eapply Hm; eauto | eapply Hk; eauto].
Qed.

Lemma keeps_get : keeps R get.
Proof. intros s y s' H. inversion H; subst. reflexivity. Qed.

Lemma keeps_modify (f : S -> S) : (forall s, R s (f s)) -> keeps R (modify f).
Proof. intros Hf s y s' H. inversion H; subst. apply Hf. Qed.

Lemma keeps_fatalf {X} f : keeps R (@fatalf S X f).
Proof. intros s y s' H. discriminate. Qed.

Lemma keeps_panic {X} : keeps R (@panic S X).
Proof. intros s y s' H. discriminate. Qed.

Lemma keeps_outOfFuel {X} : keeps R (@outOfFuel S X).
Proof. intros s y s' H. discriminate. Qed.

Lemma keeps_nonNil {X} (o : option X) : keeps R (nonNil o).
Proof. destruct o; [apply keeps_ret | apply keeps_panic]. Qed.

Lemma keeps_when (c : bool) (m : M S unit) : keeps R m -> keeps R (when c m).
Proof. destruct c; simpl; auto using keeps_ret. Qed.

Lemma keeps_forEach {X} (body : X -> M S unit) (l : list X) :
  (forall x, x ∈ l -> keeps R (body x)) -> keeps R (forEach body l).
Proof.
  induction l as [|a l IH]; intros Hb; simpl.
  - apply keeps_ret.
  - apply keeps_bind; [apply Hb; left | intros _; apply IH].
    intros x Hx. apply Hb. by right.
Qed.

Lemma keeps_mapM {X Y} (f : X -> M S Y) (l : list X) :
  (forall x, x ∈ l -> keeps R (f x)) -> keeps R (mapM f l).
Proof.
  induction l as [|a l IH]; intros Hb; simpl.
  - apply keeps_ret.
  - apply keeps_bind; [apply Hb; left |].
    intros b. apply keeps_bind; [apply IH | intros; apply keeps_ret].
    intros x Hx. apply Hb. by right.
Qed.

Lemma keeps_foldM {X Acc} (step : Acc -> X -> M S Acc) (l : list X) (acc : Acc) :
  (forall a x, x ∈ l -> keeps R (step a x)) -> keeps R (foldM step l acc).
Proof.
  revert acc. induction l as [|a l IH]; intros acc Hb; simpl.
  - apply keeps_ret.
  - apply keeps_bind; [apply Hb; left |].
    intros b. apply IH. intros a' x Hx. apply Hb. by right.
Qed.
End KeepsFacts.

(** * The rewriting of call sites *)

Global Instance sameTables_preorder : PreOrder sameTables.
Proof.
  split; [intros t; reflexivity |].
  intros a b c H1 H2. unfold sameTables in *. congruence.
Qed.

Lemma sameTables_writeWarning pos msg t :
  sameTables t (set_cfg (writeWarning pos msg) t).
Proof.
  unfold sameTables, eraseScratch, writeWarning. simpl.
  destruct (0 <? debugLevel (cfg_ t)); reflexivity.
Qed.

Lemma sameTables_callSites t t' :
  sameTables t t' -> callSites (cfg_ t') = callSites (cfg_ t).
Proof. intros H. apply (f_equal (fun x => callSites (cfg_ x))) in H. exact H. Qed.

Lemma sameTables_posKey t t' pos :
  sameTables t t' -> posKey t' pos = posKey t pos.
Proof.
  intros H. unfold posKey, getUniquePosPkg.
  pose proof (f_equal (fun x => largeCode (cfg_ x)) H) as H1.
  pose proof (f_equal (fun x => fsets (cfg_ x)) H) as H2.
  pose proof (f_equal currentPkg H) as H3.
  simpl in *. rewrite H1, H2, H3. reflexivity.
Qed.

Lemma sameTables_deref t t' r :
  sameTables t t' -> deref (cfg_ t') r = deref (cfg_ t) r.
Proof.
  intros H.
  pose proof (f_equal (fun x => commonCallReplacement (cfg_ x)) H) as H1.
  pose proof (f_equal (fun x => nilCallReplacement (cfg_ x)) H) as H2.
  simpl in *. destruct r; simpl; congruence.
Qed.

Ltac keeps_step :=
  lazymatch goal with
  | |- keeps ?R (ret _) => apply (keeps_ret R)
  | |- keeps ?R get => apply (keeps_get R)
  | |- keeps ?R (fatalf _) => apply (keeps_fatalf R)
  | |- keeps ?R panic => apply (keeps_panic R)
  | |- keeps ?R outOfFuel => apply (keeps_outOfFuel R)
  | |- keeps ?R (nonNil _) => apply (keeps_nonNil R)
  | |- keeps ?R (bind _ _) => apply (keeps_bind R); [| intros ?]
  | |- keeps ?R (when _ _) => apply (keeps_when R)
  | |- keeps ?R (modify _) =>
      apply (keeps_modify R); intros ?;
      first [unfold sameTables; reflexivity | apply sameTables_writeWarning]
  end.

Create HintDb keeps_db discriminated.

Ltac keeps_go :=
  repeat first
    [ keeps_step
    | solve [auto with keeps_db]
    | case_match ].

Lemma ctxImportStep_keeps existing e entry :
  keeps sameTables (ctxImportStep existing e entry).
Proof. unfold ctxImportStep. destruct entry as [newImp newAlias]. keeps_go. Qed.
#[export] Hint Resolve ctxImportStep_keeps : keeps_db.

Lemma ctxImportLoop_keeps existing e entries :
  keeps sameTables (ctxImportLoop existing e entries).
Proof. induction entries as [|entry rest IH]; simpl; keeps_go. Qed.
#[export] Hint Resolve ctxImportLoop_keeps : keeps_db.

Lemma getCtxExprAndAddImports_keeps r :
  keeps sameTables (getCtxExprAndAddImports r).
Proof. unfold getCtxExprAndAddImports. keeps_go. Qed.
#[export] Hint Resolve getCtxExprAndAddImports_keeps : keeps_db.

Lemma ctxArgument_keeps r : keeps sameTables (ctxArgument r).
Proof. unfold ctxArgument. keeps_go. Qed.
#[export] Hint Resolve ctxArgument_keeps : keeps_db.

Lemma rewriteNestedArg_keeps pos a : keeps sameTables (rewriteNestedArg pos a).
Proof. unfold rewriteNestedArg. keeps_go. Qed.
#[export] Hint Resolve rewriteNestedArg_keeps : keeps_db.

Lemma rewriteNestedArgs_keeps pos args :
  keeps sameTables (mapM (rewriteNestedArg pos) args).
Proof. apply keeps_mapM; [exact _ | auto with keeps_db]. Qed.
#[export] Hint Resolve rewriteNestedArgs_keeps : keeps_db.

Lemma mapM_length {S X Y} (f : X -> M S Y) (l : list X) s l' s' :
  mapM f l s = Done (l', s') -> length l' = length l.
Proof.
  revert s l' s'. induction l as [|a l IH]; simpl; intros s l' s' H.
  - inversion H; reflexivity.
  - unfold bind in H.
    destruct (f a s) as [[b s1]| | |]; try discriminate.
    destruct (mapM f l s1) as [[bs s2]| | |] eqn:E; try discriminate.
    inversion H; subst. simpl. f_equal. eauto.
Qed.

(** The loop over the imports of a record fails, if at all, for a missing
    alias. *)
Lemma ctxImportStep_fatal existing e entry t f :
  ctxImportStep existing e entry t = Fatal f -> f = FatalAliasPlaceholder.
Proof.
  unfold ctxImportStep. destruct entry as [newImp newAlias].
  repeat case_match; unfold bind, when, modify, ret, fatalf;
    simpl; repeat case_match; intros Hf; simplify_eq; reflexivity.
Qed.

Lemma ctxImportLoop_fatal existing e entries t f :
  ctxImportLoop existing e entries t = Fatal f -> f = FatalAliasPlaceholder.
Proof.
  revert t. induction entries as [|entry rest IH]; simpl; intros t H.
  - discriminate.
  - unfold bind in H.
    destruct (ctxImportStep existing e entry t) as [[r t1]| | |] eqn:E;
      try discriminate.
    + destruct r; [discriminate | eauto].
    + inversion H; subst. eapply ctxImportStep_fatal; eauto.
Qed.

Lemma getCtxExprAndAddImports_one_import (r : replacementInfo) (t : transformerConfig) :
  getCtxExprAndAddImports r t = Fatal FatalOneImportOnly
  <-> (1 < size (ctxImports r))%nat.
Proof.
  unfold getCtxExprAndAddImports, bind, get. split.
  - case_bool_decide; [done |].
    intros Hr. apply ctxImportLoop_fatal in Hr. discriminate.
  - intros Hr. rewrite bool_decide_eq_true_2 by done. reflexivity.
Qed.

(** C10: the resolution of the context expression of a record, and with
    it the injection of the argument at any call site that uses the
    record, ends the run with the fatal error about custom imports
    exactly when the import map of the record has more than one entry. *)
Theorem one_import_per_record (r : replacementInfo) (t : transformerConfig) :
  (getCtxExprAndAddImports r t = Fatal FatalOneImportOnly
   <-> (1 < size (ctxImports r))%nat)
  /\ (ctxArgument r t = Fatal FatalOneImportOnly
      <-> (1 < size (ctxImports r))%nat).
Proof.
  split; [apply getCtxExprAndAddImports_one_import |].
  pose proof (getCtxExprAndAddImports_one_import r t) as [Hto Hfrom].
  unfold ctxArgument, bind, get, ret.
  destruct (getCtxExprAndAddImports r t) as [[e t1]|f| |]; split; intros H;
    solve [ discriminate
          | inversion H; subst; apply Hto; reflexivity
          | specialize (Hfrom H); first [discriminate | inversion Hfrom; reflexivity] ].
Qed.

Lemma getCtxExprAndAddImports_fatal r t f :
  getCtxExprAndAddImports r t = Fatal f ->
  f = FatalOneImportOnly \/ f = FatalAliasPlaceholder.
Proof.
  unfold getCtxExprAndAddImports, bind, get.
  case_bool_decide.
  - intros Hf. inversion Hf. by left.
  - intros Hf. right. eapply ctxImportLoop_fatal; eauto.
Qed.

Lemma ctxArgument_fatal r t f :
  ctxArgument r t = Fatal f ->
  f = FatalOneImportOnly \/ f = FatalAliasPlaceholder.
Proof.
  unfold ctxArgument, bind.
  destruct (getCtxExprAndAddImports r t) as [[e t1]| | |] eqn:E; try discriminate.
  intros Hf. inversion Hf; subst. eapply getCtxExprAndAddImports_fatal; eauto.
Qed.

Lemma injectCtxArg_spec fn lparen args ell rparen pos t ref :
  callSites (cfg_ t) !! posKey t pos = Some ref ->
  let r := deref (cfg_ t) ref in
  let n := Z.of_nat (length args) in
  (injectCtxArg fn lparen args ell rparen pos t = Fatal FatalArgPosBeyond
   <-> n < argPos r - 1)
  /\ (forall arg t2, ctxArgument r t = Done (arg, t2) ->
        (argPos r <= 0 ->
         injectCtxArg fn lparen args ell rparen pos t
         = Done (CallExpr fn lparen (args ++ [arg]) ell rparen, callRewritten t2))
        /\ (1 <= argPos r <= n + 1 ->
            injectCtxArg fn lparen args ell rparen pos t
            = Done (CallExpr fn lparen
                      (take (Z.to_nat (argPos r - 1)) args ++ arg
                         :: drop (Z.to_nat (argPos r - 1)) args) ell rparen,
                    callRewritten t2))).
Proof.
  intros Href r n. unfold injectCtxArg, bind, get. rewrite Href. fold r.
  destruct (argPos r <? 1) eqn:Hlt.
  - apply Z.ltb_lt in Hlt. unfold ret. split.
    + split; [| lia].
      destruct (ctxArgument r t) as [[arg t2]| | |] eqn:E; try discriminate.
      intros Hf. inversion Hf; subst.
      apply ctxArgument_fatal in E. destruct E; discriminate.
    + intros arg t2 E. rewrite E. split; [| lia]. intros _.
      unfold modify, callRewritten. simpl.
      rewrite Nat2Z.id, take_ge, drop_ge by lia. reflexivity.
  - apply Z.ltb_ge in Hlt.
    destruct (n <? argPos r - 1) eqn:Hn; fold n; rewrite Hn.
    + apply Z.ltb_lt in Hn. split; [split; [lia | reflexivity] |].
      intros arg t2 E. split; intros; lia.
    + apply Z.ltb_ge in Hn. unfold ret. split.
      * split; [| lia].
        destruct (ctxArgument r t) as [[arg t2]| | |] eqn:E; try discriminate.
        intros Hf. inversion Hf; subst.
        apply ctxArgument_fatal in E. destruct E; discriminate.
      * intros arg t2 E. rewrite E. split; [lia |]. intros _.
        unfold modify, callRewritten. simpl. reflexivity.
Qed.

(** C1: for a record applied by [rewriteCallSite] to a call with at
    least one argument, a position that is not positive appends the
    context argument, a position [p] from 1 on inserts it before the
    [p]-th argument, and the run ends with the fatal error about the
    position exactly when [p - 1] exceeds the number of arguments, so
    that [p] equal to that number plus one appends.  The arguments are
    those left by the loop over the nested calls without arguments, and
    the context expression of the record is one that can be resolved. *)
Theorem context_argument_position
    (c : cursor) (fn : expr) (lparen : Z) (a : expr) (args : list expr)
    (ell rparen pos : Z) (t : transformerConfig) (ref : replacementRef)
    (args1 : list expr) (t1 : transformerConfig) :
  callSites (cfg_ t) !! posKey t pos = Some ref ->
  mapM (rewriteNestedArg pos) (a :: args) t = Done (args1, t1) ->
  let p := argPos (deref (cfg_ t) ref) in
  let n := Z.of_nat (length (a :: args)) in
  length args1 = length (a :: args)
  /\ (rewriteCallSite c fn lparen (a :: args) ell rparen pos t = Fatal FatalArgPosBeyond
      <-> n < p - 1)
  /\ (forall arg t2, ctxArgument (deref (cfg_ t) ref) t1 = Done (arg, t2) ->
        (p <= 0 ->
         rewriteCallSite c fn lparen (a :: args) ell rparen pos t
         = Done (CallExpr fn lparen (args1 ++ [arg]) ell rparen, callRewritten t2))
        /\ (1 <= p <= n + 1 ->
            rewriteCallSite c fn lparen (a :: args) ell rparen pos t
            = Done (CallExpr fn lparen
                      (take (Z.to_nat (p - 1)) args1 ++ arg
                         :: drop (Z.to_nat (p - 1)) args1) ell rparen,
                    callRewritten t2))
        /\ (p = n + 1 ->
            rewriteCallSite c fn lparen (a :: args) ell rparen pos t
            = Done (CallExpr fn lparen (args1 ++ [arg]) ell rparen, callRewritten t2))).
Proof.
  intros Href Hnested p n.
  pose proof (mapM_length _ _ _ _ _ Hnested) as Hlen.
  pose proof (rewriteNestedArgs_keeps _ _ _ _ _ Hnested) as Hsame.
  assert (Href1 : callSites (cfg_ t1) !! posKey t1 pos = Some ref).
  { rewrite (sameTables_callSites _ _ Hsame), (sameTables_posKey _ _ _ Hsame). done. }
  pose proof (injectCtxArg_spec fn lparen args1 ell rparen pos t1 ref Href1) as Hinj.
  rewrite (sameTables_deref _ _ _ Hsame) in Hinj. simpl in Hinj.
  rewrite Hlen in Hinj. fold p n in Hinj.
  assert (Hrw : rewriteCallSite c fn lparen (a :: args) ell rparen pos t
                = injectCtxArg fn lparen args1 ell rparen pos t1).
  { unfold rewriteCallSite, bind. rewrite Hnested. reflexivity. }
  rewrite Hrw. destruct Hinj as [Hfatal Hok].
  split; [done |]. split; [done |].
  intros arg t2 E. destruct (Hok arg t2 E) as [Hlast Hmid].
  split; [done |]. split; [done |].
  intros Hp. rewrite Hmid by lia.
  replace (Z.to_nat (p - 1)) with (length args1) by (rewrite Hlen; unfold n in Hp; lia).
  rewrite take_ge, drop_ge by lia. reflexivity.
Qed.

Lemma warnedFirstPosition_Warnings r pos t :
  Warnings (cfg_ (warnedFirstPosition r pos t))
  = if negb (argPos r =? 1) && (0 <? debugLevel (cfg_ t))
    then Warnings (cfg_ t) ++ [mkWarning pos warnFirstPosition]
    else Warnings (cfg_ t).
Proof.
  unfold warnedFirstPosition, writeWarning.
  destruct (argPos r =? 1); simpl; [reflexivity |].
  destruct (0 <? debugLevel (cfg_ t)); reflexivity.
Qed.

Lemma when_warn_run r pos t :
  when (negb (argPos r =? 1))
    (modify (set_cfg (writeWarning pos warnFirstPosition))) t
  = Done (tt, warnedFirstPosition r pos t).
Proof. unfold warnedFirstPosition, when. destruct (negb _); reflexivity. Qed.

(** ** The rewriting of a file keeps the decision tables *)

Lemma keeps_mapM_Forall {S X Y} (R : S -> S -> Prop) `{!PreOrder R}
    (f : X -> M S Y) (l : list X) :
  Forall (fun x => keeps R (f x)) l -> keeps R (mapM f l).
Proof.
  intros H. apply keeps_mapM; [exact _ |].
  intros x Hx. rewrite Forall_forall in H. auto.
Qed.

Lemma renameCallSite_keeps c fn lparen : keeps sameTables (renameCallSite c fn lparen).
Proof. unfold renameCallSite. keeps_go. Qed.
#[export] Hint Resolve renameCallSite_keeps : keeps_db.

Lemma injectCtxArg_keeps fn lparen args ell rparen pos :
  keeps sameTables (injectCtxArg fn lparen args ell rparen pos).
Proof. unfold injectCtxArg. keeps_go. Qed.
#[export] Hint Resolve injectCtxArg_keeps : keeps_db.

Lemma rewriteCallSite_keeps c fn lparen args ell rparen pos :
  keeps sameTables (rewriteCallSite c fn lparen args ell rparen pos).
Proof. unfold rewriteCallSite. keeps_go. Qed.
#[export] Hint Resolve rewriteCallSite_keeps : keeps_db.

Lemma astRewriteExpr_keeps c e : keeps sameTables (astRewriteExpr c e).
Proof. unfold astRewriteExpr. keeps_go. Qed.
#[export] Hint Resolve astRewriteExpr_keeps : keeps_db.

Lemma astRewriteFuncType_keeps c ft : keeps sameTables (astRewriteFuncType c ft).
Proof. unfold astRewriteFuncType. keeps_go. Qed.
#[export] Hint Resolve astRewriteFuncType_keeps : keeps_db.

Lemma astRewriteFieldList_keeps c fl : keeps sameTables (astRewriteFieldList c fl).
Proof.
  unfold astRewriteFieldList. destruct fl as [o l cl].
  repeat first
    [ keeps_step
    | apply keeps_mapM; [exact _ | intros ? _]
    | case_match ].
Qed.
#[export] Hint Resolve astRewriteFieldList_keeps : keeps_db.

Lemma astRewriteBody_keeps c b : keeps sameTables (astRewriteBody c b).
Proof. unfold astRewriteBody. keeps_go. Qed.
#[export] Hint Resolve astRewriteBody_keeps : keeps_db.

Lemma astRewriteField_keeps f : keeps sameTables (astRewriteField f).
Proof. unfold astRewriteField. keeps_go. Qed.
#[export] Hint Resolve astRewriteField_keeps : keeps_db.

Lemma astRewriteFirstName_keeps p n : keeps sameTables (astRewriteFirstName p n).
Proof. unfold astRewriteFirstName. keeps_go. Qed.
#[export] Hint Resolve astRewriteFirstName_keeps : keeps_db.

Ltac keeps_walk :=
  repeat first
    [ keeps_step
    | solve [auto with keeps_db]
    | apply keeps_mapM_Forall; [exact _ | assumption]
    | apply keeps_mapM_Forall;
      [exact _ | eapply Forall_impl; [eassumption | intros ? Hx; apply Hx]]
    | match goal with
      | H : from_option _ True ?o |- _ => destruct o; simpl in H
      end
    | case_match ].

Lemma walk_keeps :
  (forall e c, keeps sameTables (walkExpr c e))
  /\ (forall ft, (forall c, keeps sameTables (walkFuncType c ft))
                 /\ keeps sameTables (walkFuncTypeChildren ft))
  /\ (forall fl c, keeps sameTables (walkFieldList c fl))
  /\ (forall f, keeps sameTables (walkField f))
  /\ (forall s, keeps sameTables (walkStmt s))
  /\ (forall b, keeps sameTables (walkBlock b)).
Proof.
  apply ast_mutind; intros; simpl.
  all: try (split; intros).
  all: try match goal with H : _ /\ _ |- _ => destruct H end.
  all: keeps_walk.
Qed.

Lemma walkSpec_keeps s : keeps sameTables (walkSpec s).
Proof.
  destruct walk_keeps as (He & _).
  unfold walkSpec.
  repeat first
    [ keeps_step
    | solve [auto with keeps_db]
    | apply He
    | apply keeps_mapM; [exact _ | intros ? _]
    | case_match ].
Qed.
#[export] Hint Resolve walkSpec_keeps : keeps_db.

Lemma walkDecl_keeps d : keeps sameTables (walkDecl d).
Proof.
  destruct walk_keeps as (_ & Ht & Hl & _ & _ & Hb).
  unfold walkDecl.
  repeat first
    [ keeps_step
    | solve [auto with keeps_db]
    | apply Hl | apply Hb | apply (proj1 (Ht _))
    | apply keeps_mapM; [exact _ | intros ? _]
    | case_match ].
Qed.
#[export] Hint Resolve walkDecl_keeps : keeps_db.

Lemma walkFile_keeps f : keeps sameTables (walkFile f).
Proof.
  unfold walkFile.
  repeat first
    [ keeps_step
    | solve [auto with keeps_db]
    | apply keeps_mapM; [exact _ | intros ? _] ].
Qed.
#[export] Hint Resolve walkFile_keeps : keeps_db.

Global Instance sameRun_preorder : PreOrder sameRun.
Proof.
  split; [intros t; reflexivity |].
  intros a b c H1 H2. unfold sameRun in *. congruence.
Qed.

Lemma sameTables_sameRun t t' : sameTables t t' -> sameRun t t'.
Proof.
  unfold sameTables, sameRun. intros H.
  change (eraseFile (eraseScratch t') = eraseFile (eraseScratch t)).
  by rewrite H.
Qed.

Lemma keeps_sameTables_sameRun {X} (m : T X) :
  keeps sameTables m -> keeps sameRun m.
Proof. intros H s x s' E. apply sameTables_sameRun. eapply H; eauto. Qed.

Ltac run_step :=
  lazymatch goal with
  | |- keeps ?R (ret _) => apply (keeps_ret R)
  | |- keeps ?R get => apply (keeps_get R)
  | |- keeps ?R (fatalf _) => apply (keeps_fatalf R)
  | |- keeps ?R panic => apply (keeps_panic R)
  | |- keeps ?R (bind _ _) => apply (keeps_bind R); [| intros ?]
  | |- keeps ?R (modify _) =>
      apply (keeps_modify R); intros ?; unfold sameRun; reflexivity
  end.

Lemma computeExistingImports_keeps f : keeps sameRun (computeExistingImports f).
Proof. unfold computeExistingImports. run_step. Qed.

Lemma initContextExpressions_keeps : keeps sameRun initContextExpressions.
Proof.
  unfold initContextExpressions.
  apply (keeps_modify sameRun). intros t. unfold sameRun.
  repeat case_match; reflexivity.
Qed.

Lemma transformFile_keeps p loc indf : keeps sameRun (transformFile p loc indf).
Proof.
  unfold transformFile. destruct indf as [ind f].
  repeat first
    [ run_step
    | apply computeExistingImports_keeps
    | apply initContextExpressions_keeps
    | apply keeps_sameTables_sameRun; apply walkFile_keeps
    | case_match ].
Qed.

Lemma transformFiles_keeps p files : forall loc, keeps sameRun (transformFiles p loc files).
Proof.
  induction files as [|indf rest IH]; intros loc; simpl.
  - run_step.
  - run_step; [apply transformFile_keeps | apply IH].
Qed.

Lemma transformPackages_keeps initial :
  forall loc, keeps sameRun (transformPackages loc initial).
Proof.
  induction initial as [|p rest IH]; intros loc; simpl.
  - run_step.
  - repeat first [run_step | apply IH | apply transformFiles_keeps | case_match].
Qed.

Lemma transform_keeps initial : keeps sameRun (transform initial).
Proof.
  unfold transform. run_step; [apply transformPackages_keeps | run_step].
Qed.

Lemma sameTables_typeText t t' :
  sameTables t t' ->
  ctxParamTypeWithPkgAlias (cfg_ t') = ctxParamTypeWithPkgAlias (cfg_ t).
Proof.
  intros H. exact (f_equal (fun x => ctxParamTypeWithPkgAlias (cfg_ x)) H).
Qed.

Lemma bind_Done {S X Y} (m : M S X) (k : X -> M S Y) s r :
  bind m k s = Done r -> exists x s1, m s = Done (x, s1) /\ k x s1 = Done r.
Proof.
  unfold bind. destruct (m s) as [[x s1]| | |]; try discriminate. eauto.
Qed.

Lemma modify_Done {S} (f : S -> S) s r :
  modify f s = Done r -> r = (tt, f s).
Proof. unfold modify. intros H. by inversion H. Qed.

Lemma get_Done {S} (s : S) r : get s = Done r -> r = (s, s).
Proof. unfold get. intros H. by inversion H. Qed.

Lemma ret_Done {S X} (x : X) (s : S) r : ret x s = Done r -> r = (x, s).
Proof. unfold ret. intros H. by inversion H. Qed.

(** Decomposition of a run that ended well. *)
Ltac run_inv H :=
  repeat match type of H with
         | bind _ _ _ = Done _ =>
             let x := fresh "x" in
             let s := fresh "s" in
             let E := fresh "E" in
             apply bind_Done in H; destruct H as (x & s & E & H)
         end.

Lemma initContextExpressions_typeText t f t' :
  existingImports t = importsOf f ->
  initContextExpressions t = Done (tt, t') ->
  ctxParamTypeWithPkgAlias (cfg_ t') = contextTypeText (json (cfg_ t)) f.
Proof.
  intros Hex H. unfold initContextExpressions in H.
  apply modify_Done in H. inversion H; subst t'. clear H.
  unfold contextTypeText, contextQualifier. rewrite <- Hex.
  repeat case_match; reflexivity.
Qed.

Lemma length_append (a b : string) :
  String.length (a +:+ b) = (String.length a + String.length b)%nat.
Proof.
  induction a as [|x a IH]; [reflexivity |].
  change (S (String.length (a +:+ b)) = S (String.length a + String.length b)).
  by rewrite IH.
Qed.

Lemma append_cancel_r (a b c : string) : a +:+ c = b +:+ c -> a = b.
Proof.
  revert b. induction a as [|x a IH]; intros [|y b] H.
  - reflexivity.
  - apply (f_equal String.length) in H. rewrite !length_append in H.
    simpl in H. lia.
  - apply (f_equal String.length) in H. rewrite !length_append in H.
    simpl in H. lia.
  - change (String x (a +:+ c) = String y (b +:+ c)) in H.
    inversion H; subst. f_equal. by apply IH.
Qed.

Lemma contextTypeText_same j f1 f2 :
  contextTypeText j f1 = contextTypeText j f2
  <-> contextQualifier j f1 = contextQualifier j f2.
Proof.
  unfold contextTypeText. split; [| by intros ->].
  apply append_cancel_r.
Qed.

Lemma sameRun_contextQualifier t t2 f :
  sameRun t t2 ->
  contextQualifier (json (cfg_ t2)) f = contextQualifier (json (cfg_ t)) f
  /\ contextTypeText (json (cfg_ t2)) f = contextTypeText (json (cfg_ t)) f.
Proof.
  intros H. unfold contextTypeText, contextQualifier.
  pose proof (f_equal (fun x => CtxPkgPath (json (cfg_ x))) H) as H1.
  pose proof (f_equal (fun x => CtxPkgName (json (cfg_ x))) H) as H2.
  pose proof (f_equal (fun x => CtxPkgAlias (json (cfg_ x))) H) as H3.
  pose proof (f_equal (fun x => CtxParamType (json (cfg_ x))) H) as H4.
  simpl in *. by rewrite H1, H2, H3, H4.
Qed.

(** What [initContextExpressions] computes for a file stays until the
    next file. *)
Lemma transformFile_recomputed p loc ind f name t loc' t' :
  CompiledGoFiles p !! ind = Some name ->
  name ∉ visitedFiles loc ->
  transformFile p loc (ind, f) t = Done (loc', t') ->
  ctxParamTypeWithPkgAlias (cfg_ t') = contextTypeText (json (cfg_ t)) f
  /\ nilCallReplacement (cfg_ t')
     = mkReplacementInfo "" 1 ∅ "" (CtxParamInvalid (json (cfg_ t'))).
Proof.
  intros Hname Hvisited Hrun.
  unfold transformFile in Hrun. rewrite Hname in Hrun.
  rewrite bool_decide_eq_false_2 in Hrun by done.
  apply bind_Done in Hrun as ([] & t0 & E0 & Hrun).
  apply bind_Done in Hrun as ([] & t1 & E1 & Hrun).
  apply bind_Done in Hrun as ([] & t2 & E2 & Hrun).
  apply bind_Done in Hrun as ([] & t3 & E3 & Hrun).
  apply bind_Done in Hrun as (res & t4 & E4 & Hrun).
  apply bind_Done in Hrun as (t5 & t6 & E5 & Hrun).
  unfold computeExistingImports in E0. apply modify_Done in E0. inversion E0; subst t0.
  assert (Hnil : nilCallReplacement (cfg_ t1)
                 = mkReplacementInfo "" 1 ∅ "" (CtxParamInvalid (json (cfg_ t1)))).
  { unfold initContextExpressions in E1. apply modify_Done in E1.
    inversion E1. repeat case_match; reflexivity. }
  apply initContextExpressions_typeText with (f := f) in E1; [| reflexivity].
  apply modify_Done in E2. inversion E2; subst t2.
  apply modify_Done in E3. inversion E3; subst t3.
  apply walkFile_keeps in E4.
  pose proof (f_equal (fun x => nilCallReplacement (cfg_ x)) E4) as En.
  pose proof (f_equal (fun x => CtxParamInvalid (json (cfg_ x))) E4) as Ei.
  apply sameTables_typeText in E4. simpl in *.
  apply get_Done in E5. inversion E5; subst t5 t6.
  assert (Ht' : cfg_ t' = cfg_ t4).
  { destruct (modified t4); apply ret_Done in Hrun; inversion Hrun; reflexivity. }
  rewrite Ht', E4, En, Ei. by split.
Qed.

(** C5, as amended: the rewriting of a file changes none of the tables
    of the analysis ([fnVisited], [callSites], [callSitesRenamed],
    [ifaceModified], [fnParamsVisited], [renameParamsVisited]), not the
    shared record [commonCallReplacement], and no option of the
    configuration other than [CtxParamInvalid].  Besides the scratch
    fields, the output, the warnings and the statistics, it computes
    anew the text of the context parameter type, from the configuration
    and the imports of the file, and the record [nilCallReplacement]
    that the call sites of package initialisers refer to: position 1,
    no new name, no imports, and as its expression the expression of
    the artificial context as it stands for the file.  For two files of
    a run the text of the type is the same exactly when the qualifier of
    the context package is the same in both. *)
Theorem rewrite_keeps_decision_tables
    (p : LoadedPackage) (loc loc' : transformLocals) (ind : nat) (f : File)
    (name : string) (t t' : transformerConfig) :
  CompiledGoFiles p !! ind = Some name ->
  name ∉ visitedFiles loc ->
  transformFile p loc (ind, f) t = Done (loc', t') ->
  (* the state that the rewriting of a later file reads *)
  sameRun t t'
  (* the tables of the analysis *)
  /\ (fnVisited (cfg_ t') = fnVisited (cfg_ t)
      /\ callSites (cfg_ t') = callSites (cfg_ t)
      /\ callSitesRenamed (cfg_ t') = callSitesRenamed (cfg_ t)
      /\ ifaceModified (cfg_ t') = ifaceModified (cfg_ t)
      /\ fnParamsVisited (cfg_ t') = fnParamsVisited (cfg_ t)
      /\ renameParamsVisited (cfg_ t') = renameParamsVisited (cfg_ t)
      /\ commonCallReplacement (cfg_ t') = commonCallReplacement (cfg_ t))
  (* the options of the configuration *)
  /\ (set_CtxParamInvalid "" (json (cfg_ t')) = set_CtxParamInvalid "" (json (cfg_ t))
      /\ debugLevel (cfg_ t') = debugLevel (cfg_ t)
      /\ ctxParamTypeWithPkgPathName (cfg_ t') = ctxParamTypeWithPkgPathName (cfg_ t)
      /\ ctxCustomParamTypeWithPkgPathName (cfg_ t')
         = ctxCustomParamTypeWithPkgPathName (cfg_ t)
      /\ fsets (cfg_ t') = fsets (cfg_ t)
      /\ largeCode (cfg_ t') = largeCode (cfg_ t))
  (* what is computed anew for the file *)
  /\ ctxParamTypeWithPkgAlias (cfg_ t') = contextTypeText (json (cfg_ t)) f
  /\ nilCallReplacement (cfg_ t')
     = mkReplacementInfo "" 1 ∅ "" (CtxParamInvalid (json (cfg_ t')))
  (* two files of a run *)
  /\ (forall p2 loc2 loc2' ind2 f2 name2 t2 t2',
        sameRun t t2 ->
        CompiledGoFiles p2 !! ind2 = Some name2 ->
        name2 ∉ visitedFiles loc2 ->
        transformFile p2 loc2 (ind2, f2) t2 = Done (loc2', t2') ->
        ctxParamTypeWithPkgAlias (cfg_ t') = ctxParamTypeWithPkgAlias (cfg_ t2')
        <-> contextQualifier (json (cfg_ t)) f = contextQualifier (json (cfg_ t)) f2).
Proof.
  intros Hname Hvisited Hrun.
  pose proof (transformFile_keeps _ _ _ _ _ _ Hrun) as Hsame.
  destruct (transformFile_recomputed _ _ _ _ _ _ _ _ Hname Hvisited Hrun)
    as [Htext Hnil].
  split; [exact Hsame |]. split; [| split; [| split; [| split]]].
  - pose proof (f_equal (fun x => fnVisited (cfg_ x)) Hsame) as H1.
    pose proof (f_equal (fun x => callSites (cfg_ x)) Hsame) as H2.
    pose proof (f_equal (fun x => callSitesRenamed (cfg_ x)) Hsame) as H3.
    pose proof (f_equal (fun x => ifaceModified (cfg_ x)) Hsame) as H4.
    pose proof (f_equal (fun x => fnParamsVisited (cfg_ x)) Hsame) as H5.
    pose proof (f_equal (fun x => renameParamsVisited (cfg_ x)) Hsame) as H6.
    pose proof (f_equal (fun x => commonCallReplacement (cfg_ x)) Hsame) as H7.
    simpl in *. repeat split; assumption.
  - pose proof (f_equal (fun x => json (cfg_ x)) Hsame) as H1.
    pose proof (f_equal (fun x => debugLevel (cfg_ x)) Hsame) as H2.
    pose proof (f_equal (fun x => ctxParamTypeWithPkgPathName (cfg_ x)) Hsame) as H3.
    pose proof (f_equal (fun x => ctxCustomParamTypeWithPkgPathName (cfg_ x)) Hsame) as H4.
    pose proof (f_equal (fun x => fsets (cfg_ x)) Hsame) as H5.
    pose proof (f_equal (fun x => largeCode (cfg_ x)) Hsame) as H6.
    simpl in *. repeat split; assumption.
  - exact Htext.
  - exact Hnil.
  - intros p2 loc2 loc2' ind2 f2 name2 t2 t2' Hsame2 Hname2 Hvisited2 Hrun2.
    destruct (transformFile_recomputed _ _ _ _ _ _ _ _ Hname2 Hvisited2 Hrun2)
      as [Htext2 _].
    rewrite Htext, Htext2.
    rewrite (proj2 (sameRun_contextQualifier _ _ f2 Hsame2)).
    apply contextTypeText_same.
Qed.

(** ** Imports *)

Lemma Strs_eqb_true a b : Strs.eqb a b = true <-> a = b.
Proof. unfold Strs.eqb. apply bool_decide_eq_true. Qed.

Lemma Strs_eqb_false a b : Strs.eqb a b = false <-> a <> b.
Proof. unfold Strs.eqb. apply bool_decide_eq_false. Qed.

Lemma hasImport_spec name path (l : list importSpec) :
  existsb (fun s => Strs.eqb (imp_name s) name && Strs.eqb (imp_path s) path) l = true
  <-> mkImportSpec name path ∈ l.
Proof.
  rewrite existsb_exists. split.
  - intros (s & Hin & Heq). apply andb_true_iff in Heq as [H1 H2].
    apply Strs_eqb_true in H1, H2. destruct s; simpl in *; subst.
    by apply list_elem_of_In.
  - intros Hin. exists (mkImportSpec name path). split.
    + by apply list_elem_of_In.
    + simpl. apply andb_true_iff. split; by apply Strs_eqb_true.
Qed.

Lemma AddNamedImport_elem name path f spec :
  spec ∈ Imports (snd (AddNamedImport name path f))
  <-> spec ∈ Imports f \/ spec = mkImportSpec name path.
Proof.
  unfold AddNamedImport.
  destruct (existsb _ (Imports f)) eqn:E; simpl.
  - apply hasImport_spec in E. split; [by left |].
    intros [H | ->]; done.
  - rewrite elem_of_app, list_elem_of_singleton. done.
Qed.

Lemma AddNamedImport_NoDup name path f :
  NoDup (Imports f) -> NoDup (Imports (snd (AddNamedImport name path f))).
Proof.
  intros Hnd. unfold AddNamedImport.
  destruct (existsb _ (Imports f)) eqn:E; simpl; [done |].
  apply NoDup_app. split; [done |]. split; [| apply NoDup_singleton].
  intros x Hx Hx'. apply list_elem_of_singleton in Hx'. subst x.
  apply hasImport_spec in Hx. congruence.
Qed.

Lemma AddNamedImport_Decls name path f :
  Decls (snd (AddNamedImport name path f)) = Decls f.
Proof. unfold AddNamedImport. by destruct (existsb _ _). Qed.


Lemma addNewImport_step imp alias f :
  (if Strs.eqb alias "" then AddImport imp f else AddNamedImport alias imp f)
  = AddNamedImport alias imp f.
Proof.
  destruct (Strs.eqb alias "") eqn:E; [| done].
  apply Strs_eqb_true in E. by subst.
Qed.

Lemma addNewImports_elem entries acc spec :
  spec ∈ Imports (snd (addNewImports entries acc))
  <-> spec ∈ Imports (snd acc)
      \/ exists imp alias, (imp, alias) ∈ entries /\ spec = mkImportSpec alias imp.
Proof.
  revert acc. induction entries as [|[imp alias] rest IH]; intros acc; simpl.
  - split; [by left |]. intros [H | (imp & alias & Hin & _)]; [done |].
    by apply elem_of_nil in Hin.
  - unfold addNewImports in *. simpl. rewrite IH. simpl.
    rewrite addNewImport_step, AddNamedImport_elem. split.
    + intros [[H | ->] | (i & a & Hin & ->)]; [by left | right | right].
      * exists imp, alias. split; [left | done].
      * exists i, a. split; [by right | done].
    + intros [H | (i & a & Hin & ->)]; [by left; left |].
      apply elem_of_cons in Hin as [Heq | Hin].
      * inversion Heq; subst. left. by right.
      * right. eauto.
Qed.

Lemma addNewImports_NoDup entries acc :
  NoDup (Imports (snd acc)) -> NoDup (Imports (snd (addNewImports entries acc))).
Proof.
  revert acc. induction entries as [|[imp alias] rest IH]; intros acc Hnd; [done |].
  unfold addNewImports in *. simpl. apply IH. simpl.
  rewrite addNewImport_step. by apply AddNamedImport_NoDup.
Qed.

Lemma addNewImports_Decls entries acc :
  Decls (snd (addNewImports entries acc)) = Decls (snd acc).
Proof.
  revert acc. induction entries as [|[imp alias] rest IH]; intros acc; [done |].
  unfold addNewImports in *. simpl. rewrite IH. simpl.
  rewrite addNewImport_step. apply AddNamedImport_Decls.
Qed.

Lemma addImports_unfold t f :
  addImports t f
  = addNewImports (map_to_list (newImports t))
      (match existingImports t !! CtxPkgPath (json (cfg_ t)) with
       | None => AddNamedImport (CtxPkgAlias (json (cfg_ t))) (CtxPkgPath (json (cfg_ t))) f
       | Some _ => (false, f)
       end).
Proof.
  unfold addImports, addNewImports. f_equal.
  destruct (existingImports t !! _); [done |].
  apply addNewImport_step.
Qed.

Lemma addImports_elem t f spec :
  spec ∈ Imports (snd (addImports t f))
  <-> spec ∈ Imports f
      \/ (existingImports t !! CtxPkgPath (json (cfg_ t)) = None
          /\ spec = contextImport (json (cfg_ t)))
      \/ (exists imp alias, newImports t !! imp = Some alias
                            /\ spec = mkImportSpec alias imp).
Proof.
  rewrite addImports_unfold, addNewImports_elem.
  setoid_rewrite elem_of_map_to_list.
  destruct (existingImports t !! _) eqn:E; simpl.
  - split; [intros [H | H]; auto | intros [H | [[H _] | H]]; auto; done].
  - rewrite AddNamedImport_elem. unfold contextImport.
    split; [intros [[H | H] | H]; auto | intros [H | [[_ H] | H]]; auto].
Qed.

Lemma addImports_NoDup t f :
  NoDup (Imports f) -> NoDup (Imports (snd (addImports t f))).
Proof.
  intros Hnd. rewrite addImports_unfold. apply addNewImports_NoDup.
  destruct (existingImports t !! _); [done |]. by apply AddNamedImport_NoDup.
Qed.

Lemma addImports_Decls t f : Decls (snd (addImports t f)) = Decls f.
Proof.
  rewrite addImports_unfold, addNewImports_Decls.
  destruct (existingImports t !! _); [done |]. apply AddNamedImport_Decls.
Qed.

Lemma walkFile_Imports f t res t' :
  walkFile f t = Done (res, t') -> Imports res = Imports f.
Proof.
  unfold walkFile. intros H.
  apply bind_Done in H as (decls & t1 & _ & H).
  apply ret_Done in H. by inversion H.
Qed.

Lemma sameRun_contextImport t t' :
  sameRun t t' ->
  CtxPkgPath (json (cfg_ t')) = CtxPkgPath (json (cfg_ t))
  /\ contextImport (json (cfg_ t')) = contextImport (json (cfg_ t)).
Proof.
  intros H. unfold contextImport.
  pose proof (f_equal (fun x => CtxPkgPath (json (cfg_ x))) H) as H1.
  pose proof (f_equal (fun x => CtxPkgAlias (json (cfg_ x))) H) as H2.
  simpl in *. by rewrite H1, H2.
Qed.


(** ** Calls without arguments *)

Lemma rewriteNestedArg_fatal pos a t f :
  rewriteNestedArg pos a t = Fatal f ->
  f = FatalOneImportOnly \/ f = FatalAliasPlaceholder.
Proof.
  unfold rewriteNestedArg.
  destruct a as [| |fn lp [|] el rp | | | |]; try discriminate.
  unfold bind at 1. unfold get.
  destruct (callSites (cfg_ t) !! posKey t lp) as [ref|]; [| discriminate].
  unfold bind at 1. rewrite when_warn_run. unfold bind at 1.
  destruct (ctxArgument _ _) as [[arg t2]| | |] eqn:E; try discriminate.
  intros Hf. inversion Hf; subst. eapply ctxArgument_fatal; eauto.
Qed.

Lemma rewriteNestedArgs_fatal pos args :
  forall t f, mapM (rewriteNestedArg pos) args t = Fatal f ->
              f = FatalOneImportOnly \/ f = FatalAliasPlaceholder.
Proof.
  induction args as [|a args IH]; intros t f H; simpl in H; [discriminate |].
  unfold bind at 1 in H.
  destruct (rewriteNestedArg pos a t) as [[a' t1]| | |] eqn:E; try discriminate.
  - unfold bind at 1 in H.
    destruct (mapM (rewriteNestedArg pos) args t1) as [[args' t2]| | |] eqn:E2;
      try discriminate.
    inversion H; subst. eapply IH; eauto.
  - inversion H; subst. eapply rewriteNestedArg_fatal; eauto.
Qed.

Lemma ctxArgument_ident r t arg t' :
  ctxArgument r t = Done (arg, t') -> exists s, arg = Ident (NewIdent s).
Proof.
  unfold ctxArgument. intros H.
  apply bind_Done in H as (e & t1 & _ & H).
  apply bind_Done in H as (t2 & t3 & _ & H).
  apply ret_Done in H. inversion H; subst. eauto.
Qed.

Lemma rewriteNestedArg_rewritten pos a t a' t' :
  rewriteNestedArg pos a t = Done (a', t') -> nestedRewritten t a a'.
Proof.
  unfold rewriteNestedArg, nestedRewritten.
  destruct a as [| |fn lp [|] el rp | | | |];
    try (intros H; apply ret_Done in H; by inversion H).
  unfold bind at 1. unfold get.
  destruct (callSites (cfg_ t) !! posKey t lp) as [ref|];
    [| intros H; apply ret_Done in H; by inversion H].
  intros H.
  apply bind_Done in H as ([] & t1 & _ & H).
  apply bind_Done in H as (arg & t2 & Ea & H).
  apply ctxArgument_ident in Ea as [s ->].
  apply bind_Done in H as ([] & t3 & _ & H).
  apply bind_Done in H as ([] & t4 & _ & H).
  apply ret_Done in H. inversion H; subst. eauto.
Qed.

Lemma nestedRewritten_sameTables t t1 a a' :
  sameTables t t1 -> nestedRewritten t1 a a' -> nestedRewritten t a a'.
Proof.
  intros Hs. unfold nestedRewritten.
  destruct a as [| |fn lp [|] el rp | | | |]; try done.
  by rewrite (sameTables_callSites _ _ Hs), (sameTables_posKey _ _ _ Hs).
Qed.

Lemma rewriteNestedArgs_rewritten pos args :
  forall t args' t',
    mapM (rewriteNestedArg pos) args t = Done (args', t') ->
    Forall2 (nestedRewritten t) args args'.
Proof.
  induction args as [|a args IH]; intros t args' t' H; simpl in H.
  - apply ret_Done in H. inversion H; subst. constructor.
  - apply bind_Done in H as (a1 & t1 & Ea & H).
    apply bind_Done in H as (args1 & t2 & Eargs & H).
    apply ret_Done in H. inversion H; subst.
    constructor; [eapply rewriteNestedArg_rewritten; eauto |].
    pose proof (rewriteNestedArg_keeps _ _ _ _ _ Ea) as Hs.
    eapply Forall2_impl; [eapply IH; eauto |].
    intros x y. by apply nestedRewritten_sameTables.
Qed.

Lemma renameCallSite_pos c fn lparen t fn' pos t1 :
  renameCallSite c fn lparen t = Done ((fn', pos), t1) -> pos = sitePos c lparen.
Proof.
  unfold renameCallSite. fold (sitePos c lparen). unfold bind at 1. unfold get.
  destruct (callSitesRenamed (cfg_ t) !! posKey t (sitePos c lparen)) as [n|].
  - intros H. apply bind_Done in H as (f1 & t2 & _ & H).
    apply bind_Done in H as ([] & t3 & _ & H).
    apply ret_Done in H. by inversion H.
  - intros H. apply ret_Done in H. by inversion H.
Qed.

Lemma rewriteCallSite_own c fn lparen ell rparen pos t ref :
  Parent c <> ParCallExpr ->
  callSites (cfg_ t) !! posKey t pos = Some ref ->
  rewriteCallSite c fn lparen [] ell rparen pos t
  = bind (ctxArgument (deref (cfg_ t) ref)) (fun arg =>
      modify (set_modified true) ;;; modify (incr CCalls) ;;;
      ret (CallExpr fn lparen [arg] ell rparen))
      (warnedFirstPosition (deref (cfg_ t) ref) pos t).
Proof.
  intros Hpar Href. unfold rewriteCallSite.
  destruct (Parent c) eqn:Ep; try done; simpl;
    unfold bind at 1; unfold get; rewrite Href;
    unfold bind at 1; rewrite when_warn_run; reflexivity.
Qed.

Lemma rewriteNestedArg_recorded pos fn lparen ell rparen t ref :
  callSites (cfg_ t) !! posKey t lparen = Some ref ->
  rewriteNestedArg pos (CallExpr fn lparen [] ell rparen) t
  = bind (ctxArgument (deref (cfg_ t) ref)) (fun arg =>
      modify (set_modified true) ;;; modify (incr CCalls) ;;;
      ret (CallExpr fn lparen [arg] ell rparen))
      (warnedFirstPosition (deref (cfg_ t) ref) pos t).
Proof.
  intros Href. unfold rewriteNestedArg. unfold bind at 1. unfold get. rewrite Href.
  unfold bind at 1. rewrite when_warn_run. reflexivity.
Qed.

Lemma injected_sole_argument r fn lparen ell rparen t0 :
  bind (ctxArgument r) (fun arg =>
      modify (set_modified true) ;;; modify (incr CCalls) ;;;
      ret (CallExpr fn lparen [arg] ell rparen)) t0
  <> Fatal FatalArgPosBeyond
  /\ forall arg t2,
       ctxArgument r t0 = Done (arg, t2) ->
       bind (ctxArgument r) (fun arg =>
         modify (set_modified true) ;;; modify (incr CCalls) ;;;
         ret (CallExpr fn lparen [arg] ell rparen)) t0
       = Done (CallExpr fn lparen [arg] ell rparen, callRewritten t2).
Proof.
  unfold bind at 1 4. split.
  - destruct (ctxArgument r t0) as [[arg t2]| | |] eqn:E; try discriminate.
    intros Hf. inversion Hf; subst.
    apply ctxArgument_fatal in E. destruct E; discriminate.
  - intros arg t2 E. rewrite E. reflexivity.
Qed.

(** C9, as amended.  A call is looked up under the position of the [go]
    or [defer] keyword when it is the call of such a statement, under its
    left parenthesis otherwise, and renaming it changes neither the
    position nor the records.  A call without arguments that is visited on
    its own (its parent is not a call) and recorded under that position,
    and a call without arguments that is an argument of a visited call,
    recorded or not, and recorded itself under its own left parenthesis,
    receives the context as its only argument, whatever position the
    record asks for; the loop over the arguments of a call changes nothing
    else, and a call that is not recorded comes out with just these
    arguments.  For a position other than the first the warning is
    written, which records it at a positive debug level only.  None of
    this ends the run for the position. *)
Theorem zero_argument_call_site (t : transformerConfig) :
  (* the position under which a visited call is looked up *)
  (forall c fn lparen args ell rparen fn' pos t1,
     renameCallSite c fn lparen t = Done ((fn', pos), t1) ->
     pos = sitePos c lparen
     /\ callSites (cfg_ t1) = callSites (cfg_ t)
     /\ posKey t1 pos = posKey t pos
     /\ astRewriteExpr c (CallExpr fn lparen args ell rparen) t
        = rewriteCallSite c fn' lparen args ell rparen pos t1)
  (* the call is visited on its own *)
  /\ (forall c fn lparen ell rparen pos ref,
        Parent c <> ParCallExpr ->
        callSites (cfg_ t) !! posKey t pos = Some ref ->
        let r := deref (cfg_ t) ref in
        rewriteCallSite c fn lparen [] ell rparen pos t <> Fatal FatalArgPosBeyond
        /\ forall arg t2,
             ctxArgument r (warnedFirstPosition r pos t) = Done (arg, t2) ->
             rewriteCallSite c fn lparen [] ell rparen pos t
             = Done (CallExpr fn lparen [arg] ell rparen, callRewritten t2))
  (* the call is an argument of the call visited at [pos] *)
  /\ (forall pos fn lparen ell rparen ref,
        callSites (cfg_ t) !! posKey t lparen = Some ref ->
        let r := deref (cfg_ t) ref in
        rewriteNestedArg pos (CallExpr fn lparen [] ell rparen) t
        <> Fatal FatalArgPosBeyond
        /\ forall arg t2,
             ctxArgument r (warnedFirstPosition r pos t) = Done (arg, t2) ->
             rewriteNestedArg pos (CallExpr fn lparen [] ell rparen) t
             = Done (CallExpr fn lparen [arg] ell rparen, callRewritten t2))
  (* the loop over the arguments of a call, recorded or not *)
  /\ (forall c fn lparen args ell rparen pos,
        mapM (rewriteNestedArg pos) args t <> Fatal FatalArgPosBeyond
        /\ forall args' t1,
             mapM (rewriteNestedArg pos) args t = Done (args', t1) ->
             Forall2 (nestedRewritten t) args args'
             /\ (args <> [] ->
                 callSites (cfg_ t) !! posKey t pos = None ->
                 rewriteCallSite c fn lparen args ell rparen pos t
                 = Done (CallExpr fn lparen args' ell rparen, t1)))
  (* the warning is recorded at a positive debug level only *)
  /\ (forall r0 pos,
        Warnings (cfg_ (warnedFirstPosition r0 pos t))
        = if negb (argPos r0 =? 1) && (0 <? debugLevel (cfg_ t))
          then Warnings (cfg_ t) ++ [mkWarning pos warnFirstPosition]
          else Warnings (cfg_ t)).
Proof.
  split; [| split; [| split; [| split]]].
  - intros c fn lparen args ell rparen fn' pos t1 Hren.
    pose proof (renameCallSite_keeps _ _ _ _ _ _ Hren) as Hs.
    split; [eapply renameCallSite_pos; eauto |].
    split; [symmetry; by apply sameTables_callSites |].
    split; [symmetry; by apply sameTables_posKey |].
    unfold astRewriteExpr. unfold bind at 1. rewrite Hren. reflexivity.
  - intros c fn lparen ell rparen pos ref Hpar Href r.
    rewrite (rewriteCallSite_own c fn lparen ell rparen pos t ref Hpar Href).
    apply injected_sole_argument.
  - intros pos fn lparen ell rparen ref Href r.
    rewrite (rewriteNestedArg_recorded pos fn lparen ell rparen t ref Href).
    apply injected_sole_argument.
  - intros c fn lparen args ell rparen pos. split.
    + intros Hf. apply rewriteNestedArgs_fatal in Hf. destruct Hf; discriminate.
    + intros args' t1 Hloop. split; [eapply rewriteNestedArgs_rewritten; eauto |].
      intros Hne Hnone. destruct args as [|a args]; [done |].
      unfold rewriteCallSite. unfold bind at 1. rewrite Hloop.
      pose proof (rewriteNestedArgs_keeps _ _ _ _ _ Hloop) as Hs.
      unfold injectCtxArg, bind, get.
      rewrite (sameTables_callSites _ _ Hs), (sameTables_posKey _ _ _ Hs), Hnone.
      reflexivity.
  - intros r0 pos. apply warnedFirstPosition_Warnings.
Qed.

(** ** The examples *)

Example Readme_initialize : initialize Readme.jsonCfg 0 false ∅ = Done Readme.cfg.
Proof. vm_compute. reflexivity. Qed.

Example CustomCtx_initialize : initialize CustomCtx.jsonCfg 0 false ∅ = Done CustomCtx.cfg.
Proof. vm_compute. reflexivity. Qed.

(** The call [foo(true)] of the README receives the context as its
    first argument. *)
Lemma context_argument_position_witness :
  rewriteCallSite (mkCursor ParOther "X") (Ident (mkIdent 8 "foo")) 11
    [Ident (mkIdent 12 "true")] 0 12 11 Readme.transformer
  <> Fatal FatalArgPosBeyond
  /\ rewriteCallSite (mkCursor ParOther "X") (Ident (mkIdent 8 "foo")) 11
       [Ident (mkIdent 12 "true")] 0 12 11 Readme.transformer
     = Done (CallExpr (Ident (mkIdent 8 "foo")) 11
               [Ident (NewIdent "ctx"); Ident (mkIdent 12 "true")] 0 12,
             callRewritten Readme.transformer).
Proof.
  assert (H1 : callSites (cfg_ Readme.transformer) !! posKey Readme.transformer 11
               = Some RefCommon) by (vm_compute; reflexivity).
  assert (H2 : mapM (rewriteNestedArg 11) [Ident (mkIdent 12 "true")] Readme.transformer
               = Done ([Ident (mkIdent 12 "true")], Readme.transformer))
    by (vm_compute; reflexivity).
  destruct (context_argument_position (mkCursor ParOther "X") (Ident (mkIdent 8 "foo"))
              11 (Ident (mkIdent 12 "true")) [] 0 12 11 Readme.transformer RefCommon
              _ _ H1 H2) as (_ & Hfatal & Hok).
  split.
  - intros Hf. apply Hfatal in Hf. vm_compute in Hf. discriminate.
  - apply (Hok (Ident (NewIdent "ctx")) Readme.transformer).
    + vm_compute. reflexivity.
    + vm_compute. split; discriminate.
Defined.

(** The call [lib.A()] with the record of [ZeroArg], visited on its own;
    [go lib.A()], recorded at the keyword; and [bar(lib.A())], where
    [bar] is not recorded. *)
Lemma zero_argument_call_site_witness :
  rewriteCallSite (mkCursor ParOther "Results") ZeroArg.callee 41 [] 0 42 41
    ZeroArg.transformer
  = Done (CallExpr ZeroArg.callee 41 [Ident (NewIdent "ctx")] 0 42,
          callRewritten ZeroArg.transformer)
  /\ astRewriteExpr GoCall.cursor_ (CallExpr ZeroArg.callee 41 [] 0 42)
       GoCall.transformer
     = Done (CallExpr ZeroArg.callee 41 [Ident (NewIdent "ctx")] 0 42,
             callRewritten GoCall.transformer)
  /\ rewriteCallSite (mkCursor ParOther "X") NestedArg.bar 23 [NestedArg.inner] 0 43 23
       ZeroArg.transformer
     = Done (NestedArg.rewritten, callRewritten ZeroArg.transformer).
Proof.
  split; [| split].
  - assert (Hpar : Parent (mkCursor ParOther "Results") <> ParCallExpr) by discriminate.
    assert (Href : callSites (cfg_ ZeroArg.transformer) !! posKey ZeroArg.transformer 41
                   = Some (RefRecord ZeroArg.record)) by (vm_compute; reflexivity).
    destruct (zero_argument_call_site ZeroArg.transformer) as (_ & Hown & _).
    destruct (Hown (mkCursor ParOther "Results") ZeroArg.callee 41 0 42 41 _ Hpar Href)
      as [_ Hok].
    apply Hok. vm_compute. reflexivity.
  - assert (Hren : renameCallSite GoCall.cursor_ ZeroArg.callee 41 GoCall.transformer
                   = Done ((ZeroArg.callee, 30), GoCall.transformer))
      by (vm_compute; reflexivity).
    assert (Hpar : Parent GoCall.cursor_ <> ParCallExpr) by discriminate.
    assert (Href : callSites (cfg_ GoCall.transformer) !! posKey GoCall.transformer 30
                   = Some (RefRecord ZeroArg.record)) by (vm_compute; reflexivity).
    destruct (zero_argument_call_site GoCall.transformer) as (Hpos & Hown & _).
    destruct (Hpos GoCall.cursor_ ZeroArg.callee 41 [] 0 42 _ _ _ Hren)
      as (_ & _ & _ & ->).
    destruct (Hown GoCall.cursor_ ZeroArg.callee 41 0 42 30 _ Hpar Href) as [_ Hok].
    apply Hok. vm_compute. reflexivity.
  - assert (Href : callSites (cfg_ ZeroArg.transformer) !! posKey ZeroArg.transformer 41
                   = Some (RefRecord ZeroArg.record)) by (vm_compute; reflexivity).
    assert (Hnone : callSites (cfg_ ZeroArg.transformer) !! posKey ZeroArg.transformer 23
                    = None) by (vm_compute; reflexivity).
    destruct (zero_argument_call_site ZeroArg.transformer) as (_ & _ & Harg & Hloop & _).
    destruct (Harg 23 ZeroArg.callee 41 0 42 _ Href) as [_ Hok].
    specialize (Hok (Ident (NewIdent "ctx")) ZeroArg.transformer).
    destruct (Hloop (mkCursor ParOther "X") NestedArg.bar 23 [NestedArg.inner] 0 43 23)
      as [_ Hrun].
    destruct (Hrun [CallExpr ZeroArg.callee 41 [Ident (NewIdent "ctx")] 0 42]
                (callRewritten ZeroArg.transformer)) as [_ Hcall].
    + unfold NestedArg.inner. cbn [mapM]. unfold bind at 1.
      rewrite Hok by (vm_compute; reflexivity). reflexivity.
    + apply Hcall; [discriminate | exact Hnone].
Defined.

(** C9 fails as stated: the record asks for the second position, the
    context becomes the only argument, and no warning is recorded,
    the debug level being zero. *)
Lemma zero_argument_no_warning :
  exists t',
    argPos ZeroArg.record <> 1
    /\ rewriteCallSite (mkCursor ParOther "Results") ZeroArg.callee 41 [] 0 42 41
         ZeroArg.transformer
       = Done (CallExpr ZeroArg.callee 41 [Ident (NewIdent "ctx")] 0 42, t')
    /\ Warnings (cfg_ t') = [].
Proof.
  eexists. split; [discriminate |]. split; vm_compute; reflexivity.
Qed.

(** A recorded call without arguments that is the callee of another
    call is not rewritten at all: the test on the parent takes it for an
    argument, and the loop over the arguments does not find it. *)
Lemma callee_call_not_rewritten :
  walkExpr (mkCursor ParOther "X") ZeroArg.calledResult ZeroArg.transformer
  = Done (ZeroArg.calledResult, ZeroArg.transformer).
Proof. vm_compute. reflexivity. Qed.

(** The two files of the README example in two files. *)
Lemma rewrite_keeps_decision_tables_witness :
  sameRun Readme.transformerTwo (snd Readme.afterA)
  /\ ctxParamTypeWithPkgAlias (cfg_ (snd Readme.afterA)) = "c2.Context"
  /\ nilCallReplacement (cfg_ (snd Readme.afterA))
     = mkReplacementInfo "" 1 ∅ "" "c2.Background()"
  /\ (ctxParamTypeWithPkgAlias (cfg_ (snd Readme.afterA))
      = ctxParamTypeWithPkgAlias (cfg_ (snd Readme.afterB))
      <-> contextQualifier Readme.jsonCfg Readme.fileA
          = contextQualifier Readme.jsonCfg Readme.fileB).
Proof.
  assert (H1 : CompiledGoFiles Readme.loadedTwo !! 0%nat = Some "a.go") by reflexivity.
  assert (H2 : "a.go" ∉ visitedFiles Readme.locals0) by (vm_compute; set_solver).
  assert (H3 : transformFile Readme.loadedTwo Readme.locals0 (0%nat, Readme.fileA)
                 Readme.transformerTwo = Done (fst Readme.afterA, snd Readme.afterA))
    by (vm_compute; reflexivity).
  destruct (rewrite_keeps_decision_tables _ _ _ _ _ _ _ _ H1 H2 H3)
    as (Hsame & _ & _ & Htext & Hnil & Htwo).
  split; [exact Hsame |].
  split; [rewrite Htext; vm_compute; reflexivity |].
  split; [rewrite Hnil; vm_compute; reflexivity |].
  apply (Htwo Readme.loadedTwo (fst Readme.afterA) (fst Readme.afterB) 1%nat
           Readme.fileB "b.go" (snd Readme.afterA) (snd Readme.afterB) Hsame).
  - reflexivity.
  - vm_compute. set_solver.
  - vm_compute. reflexivity.
Defined.

(** C5 fails as stated: in one run, the text of the context parameter
    type is [c2.Context] for the file that imports the package under
    the name [c2] and [context.Context] for the file that does not
    import it. *)
Lemma type_text_differs_between_files :
  transformFile Readme.loadedTwo Readme.locals0 (0%nat, Readme.fileA)
    Readme.transformerTwo = Done Readme.afterA
  /\ transformFile Readme.loadedTwo (fst Readme.afterA) (1%nat, Readme.fileB)
       (snd Readme.afterA) = Done Readme.afterB
  /\ ctxParamTypeWithPkgAlias (cfg_ (snd Readme.afterA)) = "c2.Context"
  /\ ctxParamTypeWithPkgAlias (cfg_ (snd Readme.afterB)) = "context.Context"
  /\ ctxParamTypeWithPkgAlias (cfg_ (snd Readme.afterA))
     <> ctxParamTypeWithPkgAlias (cfg_ (snd Readme.afterB)).
Proof.
  split; [vm_compute; reflexivity |].
  split; [vm_compute; reflexivity |].
  split; [vm_compute; reflexivity |].
  split; [vm_compute; reflexivity |].
  vm_compute. discriminate.
Qed.

(** With every file, the expression of the artificial context receives
    the qualifier of the context package of that file as one more
    prefix. *)
Lemma artificial_context_prefixed p loc ind f name t loc' t' :
  CompiledGoFiles p !! ind = Some name ->
  name ∉ visitedFiles loc ->
  transformFile p loc (ind, f) t = Done (loc', t') ->
  CtxParamInvalid (json (cfg_ t'))
  = contextQualifier (json (cfg_ t)) f +:+ "." +:+ CtxParamInvalid (json (cfg_ t)).
Proof.
  intros Hname Hvisited Hrun.
  unfold transformFile in Hrun. rewrite Hname in Hrun.
  rewrite bool_decide_eq_false_2 in Hrun by done.
  apply bind_Done in Hrun as ([] & t0 & E0 & Hrun).
  apply bind_Done in Hrun as ([] & t1 & E1 & Hrun).
  apply bind_Done in Hrun as ([] & t2 & E2 & Hrun).
  apply bind_Done in Hrun as ([] & t3 & E3 & Hrun).
  apply bind_Done in Hrun as (res & t4 & E4 & Hrun).
  apply bind_Done in Hrun as (t5 & t6 & E5 & Hrun).
  unfold computeExistingImports in E0. apply modify_Done in E0. inversion E0; subst t0.
  assert (Hinv : CtxParamInvalid (json (cfg_ t1))
                 = contextQualifier (json (cfg_ t)) f +:+ "."
                   +:+ CtxParamInvalid (json (cfg_ t))).
  { unfold initContextExpressions in E1. apply modify_Done in E1.
    inversion E1. unfold contextQualifier, importsOf. simpl.
    repeat case_match; reflexivity. }
  apply modify_Done in E2. inversion E2; subst t2.
  apply modify_Done in E3. inversion E3; subst t3.
  apply walkFile_keeps in E4.
  pose proof (f_equal (fun x => CtxParamInvalid (json (cfg_ x))) E4) as Ei.
  simpl in Ei.
  apply get_Done in E5. inversion E5; subst t5 t6.
  assert (Ht' : cfg_ t' = cfg_ t4).
  { destruct (modified t4); apply ret_Done in Hrun; inversion Hrun; reflexivity. }
  rewrite Ht', Ei. exact Hinv.
Qed.

(** The expression of the artificial context is prefixed once more for
    each file: [main], in the second file, is given
    [context.c2.Background()]. *)
Lemma artificial_context_accumulates :
  CtxParamInvalid (json (cfg_ Readme.transformerTwo)) = "Background()"
  /\ CtxParamInvalid (json (cfg_ (snd Readme.afterA))) = "c2.Background()"
  /\ CtxParamInvalid (json (cfg_ (snd Readme.afterB))) = "context.c2.Background()".
Proof.
  split; [vm_compute; reflexivity |].
  split; vm_compute; reflexivity.
Qed.



(** * The analysis only adds to the shared data *)

Global Instance methodsIncluded_preorder : PreOrder methodsIncluded.
Proof.
  split; [intros m i; reflexivity |].
  intros a b c H1 H2 i. etransitivity; [apply H1 | apply H2].
Qed.

Global Instance grows_preorder : PreOrder grows.
Proof.
  split.
  - intros s. split; try reflexivity; auto.
  - intros a b c [] []. split; try congruence; try (etransitivity; eassumption); auto.
    intros H. rewrite grows_silent1 by lia. auto.
Qed.

Lemma storedClasses_insert k c cfg :
  storedClass c -> storedClasses cfg ->
  storedClasses (set_fnVisited (insert k c) cfg).
Proof.
  intros Hc H k' c'. simpl. destruct (decide (k = k')) as [->|Hne].
  - rewrite lookup_insert_eq. by intros [= <-].
  - rewrite lookup_insert_ne by done. apply H.
Qed.

Lemma methodsIncluded_insert (m : gmap nat (gset string)) i (X : gset string) :
  default ∅ (m !! i) ⊆ X -> methodsIncluded m (<[i := X]> m).
Proof.
  intros H j. destruct (decide (i = j)) as [->|Hne].
  - rewrite lookup_insert_eq. done.
  - rewrite lookup_insert_ne by done. done.
Qed.

(** A computation that starts by reading the state. *)
Lemma keeps_bind_get {S X} (R : S -> S -> Prop) (k : S -> M S X) :
  (forall s x s', k s s = Done (x, s') -> R s s') -> keeps R (bind get k).
Proof. intros H s x s' Hrun. unfold bind, get in Hrun. eauto. Qed.

(** An update of the state of the analysis that only adds. *)
Ltac grows_modify :=
  intros ?; split; simpl; try reflexivity; auto;
  try solve
    [ unfold writeWarning; case_match; simpl; try reflexivity; auto;
      first [ by apply prefix_app_r | intros; lia | set_solver ]
    | rewrite dom_insert_L; set_solver
    | set_solver
    | apply methodsIncluded_insert; set_solver
    | intros; apply storedClasses_insert; [unfold storedClass |]; auto ].

Ltac grows_step :=
  lazymatch goal with
  | |- keeps ?R (ret _) => apply (keeps_ret R)
  | |- keeps ?R get => apply (keeps_get R)
  | |- keeps ?R (fatalf _) => apply (keeps_fatalf R)
  | |- keeps ?R panic => apply (keeps_panic R)
  | |- keeps ?R outOfFuel => apply (keeps_outOfFuel R)
  | |- keeps ?R (nonNil _) => apply (keeps_nonNil R)
  | |- keeps ?R (bind _ _) => apply (keeps_bind R); [| intros ?]
  | |- keeps ?R (when _ _) => apply (keeps_when R)
  | |- keeps ?R (forEach _ _) => apply (keeps_forEach R); intros ? _
  | |- keeps ?R (foldM _ _ _) => apply (keeps_foldM R); intros ? ? _
  | |- keeps ?R (mapM _ _) => apply (keeps_mapM R); intros ? _
  | |- keeps ?R (modify _) => apply (keeps_modify R); grows_modify
  end.

Create HintDb grows_db discriminated.

Ltac grows_go :=
  repeat first
    [ grows_step
    | solve [auto with grows_db]
    | case_match ].

Section AnalysisGrows.
Variable env : analyzerEnv.

Lemma markExternalFns_grows : keeps grows (markExternalFns env).
Proof. unfold markExternalFns. grows_go. Qed.

Lemma collectInterfaces_grows :
  keeps grows (collectInterfacesAndThirdPartyEmbeds env).
Proof. unfold collectInterfacesAndThirdPartyEmbeds. grows_go. Qed.

Lemma markFnAsFreshCtx_grows pos name pkgPath fnType ex :
  keeps grows (markFnAsFreshCtx pos name pkgPath fnType ex).
Proof. unfold markFnAsFreshCtx. grows_go. Qed.
Hint Resolve markFnAsFreshCtx_grows : grows_db.

Lemma addIfacesModified_grows sig fnName fnRecv :
  keeps grows (addIfacesModified env sig fnName fnRecv).
Proof. unfold addIfacesModified. grows_go. Qed.
Hint Resolve addIfacesModified_grows : grows_db.

Lemma classifyFn_grows f fnRecv : keeps grows (classifyFn env f fnRecv).
Proof. unfold classifyFn. grows_go. Qed.
Hint Resolve classifyFn_grows : grows_db.

Section BodiesGrow.
Variable collect_ : list Node -> A unit.
Variable collectFnDef_ : list Node -> Node -> string -> string -> A string.
Hypothesis Hcollect : forall wl, keeps grows (collect_ wl).
Hypothesis HcollectFnDef : forall wl c n r, keeps grows (collectFnDef_ wl c n r).
Hint Resolve Hcollect HcollectFnDef : grows_db.

Lemma collectFnDefBody_grows wl caller fnName fnRecv :
  keeps grows (collectFnDefBody env collect_ collectFnDef_ wl caller fnName fnRecv).
Proof. unfold collectFnDefBody. grows_go. Qed.

Lemma collectFnParam_grows wl edge :
  keeps grows (collectFnParam env collectFnDef_ wl edge).
Proof. unfold collectFnParam. grows_go. Qed.
Hint Resolve collectFnParam_grows : grows_db.

Lemma collectEdge_grows wl n in_ site :
  keeps grows (collectEdge env collectFnDef_ wl n in_ site).
Proof. unfold collectEdge. grows_go. Qed.
Hint Resolve collectEdge_grows : grows_db.

Lemma collectEdges_grows wl n edges :
  keeps grows (collectEdges env collect_ collectFnDef_ wl n edges).
Proof. induction edges as [|in_ rest IH]; simpl; grows_go. Qed.
Hint Resolve collectEdges_grows : grows_db.

Lemma collectBody_grows wl :
  keeps grows (collectBody env collect_ collectFnDef_ wl).
Proof. unfold collectBody. grows_go. Qed.
End BodiesGrow.

Lemma collect_collectFnDef_grows fuel :
  (forall wl, keeps grows (collect env fuel wl))
  /\ (forall wl c n r, keeps grows (collectFnDef env fuel wl c n r)).
Proof.
  induction fuel as [|fuel [IH1 IH2]]; simpl.
  - split; intros; apply keeps_outOfFuel.
  - split; intros.
    + apply collectBody_grows; auto.
    + apply collectFnDefBody_grows; auto.
Qed.

Lemma collect_grows fuel wl : keeps grows (collect env fuel wl).
Proof. apply collect_collectFnDef_grows. Qed.

Lemma collectFnDef_grows fuel wl c n r :
  keeps grows (collectFnDef env fuel wl c n r).
Proof. apply collect_collectFnDef_grows. Qed.
Hint Resolve collect_grows collectFnDef_grows : grows_db.

Lemma renameCall_grows call doRename :
  (forall a b c d, keeps grows (doRename a b c d)) ->
  keeps grows (renameCall call doRename).
Proof. intros H. unfold renameCall. grows_go. Qed.

Lemma processLeafEdge_grows fuel a b r e :
  keeps grows (processLeafEdge env fuel a b r e).
Proof.
  unfold processLeafEdge. grows_go.
  apply renameCall_grows. intros. grows_go.
Qed.
Hint Resolve processLeafEdge_grows : grows_db.

Lemma processLeafCalls_grows fuel : keeps grows (processLeafCalls env fuel).
Proof. unfold processLeafCalls. grows_go. Qed.

Lemma insertArtificialCtxCallsites_grows n :
  keeps grows (insertArtificialCtxCallsites env n).
Proof. unfold insertArtificialCtxCallsites. grows_go. Qed.
Hint Resolve insertArtificialCtxCallsites_grows : grows_db.

Lemma insertArtificialCtx_grows f : keeps grows (insertArtificialCtx env f).
Proof. unfold insertArtificialCtx. grows_go. Qed.
Hint Resolve insertArtificialCtx_grows : grows_db.

Lemma argTypeOf_grows a : keeps grows (argTypeOf a).
Proof. unfold argTypeOf. grows_go. Qed.
Hint Resolve argTypeOf_grows : grows_db.

Lemma getFuncFromArg_grows a : keeps grows (getFuncFromArg a).
Proof. unfold getFuncFromArg. grows_go. Qed.
Hint Resolve getFuncFromArg_grows : grows_db.

Lemma mergeIfaceModified_grows m : keeps grows (mergeIfaceModified m).
Proof.
  unfold mergeIfaceModified. apply (keeps_foldM grows). intros added [i names] _.
  apply keeps_bind_get. intros s x s'.
  destruct (ifaceModified (acfg s) !! i) as [funcs|] eqn:E.
  - case_bool_decide.
    + intros [= <- <-]. reflexivity.
    + intros [= <- <-]. split; simpl; try reflexivity; auto.
      apply methodsIncluded_insert. rewrite E. set_solver.
  - intros [= <- <-]. split; simpl; try reflexivity; auto.
    apply methodsIncluded_insert. rewrite E. set_solver.
Qed.
Hint Resolve mergeIfaceModified_grows : grows_db.

Lemma collectIfaces_grows : keeps grows (collectIfaces env).
Proof. unfold collectIfaces. grows_go. Qed.

Lemma discoverNamedTypes_grows : keeps grows (discoverNamedTypes env).
Proof. unfold discoverNamedTypes. grows_go. Qed.

Lemma propagateNamedTypes_grows new : keeps grows (propagateNamedTypes env new).
Proof. unfold propagateNamedTypes. grows_go. Qed.
Hint Resolve collectIfaces_grows discoverNamedTypes_grows propagateNamedTypes_grows
  processLeafCalls_grows markExternalFns_grows collectInterfaces_grows : grows_db.

Lemma collectNamedTypes_grows fuel : keeps grows (collectNamedTypes env fuel).
Proof. induction fuel as [|fuel IH]; simpl; grows_go. Qed.
Hint Resolve collectNamedTypes_grows : grows_db.

Lemma closureLoop_grows fuel : keeps grows (closureLoop env fuel).
Proof. induction fuel as [|fuel IH]; simpl; grows_go. Qed.
Hint Resolve closureLoop_grows : grows_db.

Lemma analyze_grows fuel : keeps grows (analyze env fuel).
Proof. unfold analyze. grows_go. Qed.

End AnalysisGrows.

(** * Relations kept by the rewriting

    The rewriting changes the state through a handful of updates; a
    relation that each of them keeps is kept by the traversal of a file,
    and, if it is kept by the updates made for each file as well, by
    the whole transformation. *)

Section RewriteKeeps.
Context (R : transformerConfig -> transformerConfig -> Prop) `{!PreOrder R}.
Hypothesis R_modified : forall b t, R t (set_modified b t).
Hypothesis R_incr : forall c t, R t (incr c t).
Hypothesis R_warn : forall pos msg t, R t (set_cfg (writeWarning pos msg) t).
Hypothesis R_newImport : forall k v t, R t (set_newImports (insert k v) t).
Hypothesis R_iface : forall i t, R t (set_astIfaceModified (union {[i]}) t).

Ltac rk_step :=
  lazymatch goal with
  | |- keeps ?R (ret _) => apply (keeps_ret R)
  | |- keeps ?R get => apply (keeps_get R)
  | |- keeps ?R (fatalf _) => apply (keeps_fatalf R)
  | |- keeps ?R panic => apply (keeps_panic R)
  | |- keeps ?R (nonNil _) => apply (keeps_nonNil R)
  | |- keeps ?R (bind _ _) => apply (keeps_bind R); [| intros ?]
  | |- keeps ?R (when _ _) => apply (keeps_when R)
  | |- keeps ?R (mapM _ _) => apply (keeps_mapM R); intros ? _
  | |- keeps ?R (modify _) =>
      apply (keeps_modify R); intros ?;
      first [ apply R_modified | apply R_incr | apply R_warn
            | apply R_newImport | apply R_iface ]
  end.

Ltac rk_go :=
  repeat first
    [ rk_step
    | solve [auto]
    | case_match ].

Lemma ctxImportStep_keeps_gen existing e entry :
  keeps R (ctxImportStep existing e entry).
Proof. unfold ctxImportStep. destruct entry as [newImp newAlias]. rk_go. Qed.
Hint Resolve ctxImportStep_keeps_gen : core.

Lemma ctxImportLoop_keeps_gen existing e entries :
  keeps R (ctxImportLoop existing e entries).
Proof. induction entries as [|entry rest IH]; simpl; rk_go. Qed.
Hint Resolve ctxImportLoop_keeps_gen : core.

Lemma getCtxExprAndAddImports_keeps_gen r : keeps R (getCtxExprAndAddImports r).
Proof. unfold getCtxExprAndAddImports. rk_go. Qed.
Hint Resolve getCtxExprAndAddImports_keeps_gen : core.

Lemma ctxArgument_keeps_gen r : keeps R (ctxArgument r).
Proof. unfold ctxArgument. rk_go. Qed.
Hint Resolve ctxArgument_keeps_gen : core.

Lemma rewriteNestedArg_keeps_gen pos a : keeps R (rewriteNestedArg pos a).
Proof. unfold rewriteNestedArg. rk_go. Qed.
Hint Resolve rewriteNestedArg_keeps_gen : core.

Lemma renameCallSite_keeps_gen c fn lparen : keeps R (renameCallSite c fn lparen).
Proof. unfold renameCallSite. rk_go. Qed.
Hint Resolve renameCallSite_keeps_gen : core.

Lemma injectCtxArg_keeps_gen fn lparen args ell rparen pos :
  keeps R (injectCtxArg fn lparen args ell rparen pos).
Proof. unfold injectCtxArg. rk_go. Qed.
Hint Resolve injectCtxArg_keeps_gen : core.

Lemma rewriteCallSite_keeps_gen c fn lparen args ell rparen pos :
  keeps R (rewriteCallSite c fn lparen args ell rparen pos).
Proof. unfold rewriteCallSite. rk_go. Qed.
Hint Resolve rewriteCallSite_keeps_gen : core.

Lemma astRewriteExpr_keeps_gen c e : keeps R (astRewriteExpr c e).
Proof. unfold astRewriteExpr. rk_go. Qed.
Hint Resolve astRewriteExpr_keeps_gen : core.

Lemma astRewriteFuncType_keeps_gen c ft : keeps R (astRewriteFuncType c ft).
Proof. unfold astRewriteFuncType. rk_go. Qed.
Hint Resolve astRewriteFuncType_keeps_gen : core.

Lemma astRewriteFieldList_keeps_gen c fl : keeps R (astRewriteFieldList c fl).
Proof. unfold astRewriteFieldList. destruct fl as [o l cl]. rk_go. Qed.
Hint Resolve astRewriteFieldList_keeps_gen : core.

Lemma astRewriteBody_keeps_gen c b : keeps R (astRewriteBody c b).
Proof. unfold astRewriteBody. rk_go. Qed.
Hint Resolve astRewriteBody_keeps_gen : core.

Lemma astRewriteField_keeps_gen f : keeps R (astRewriteField f).
Proof. unfold astRewriteField. rk_go. Qed.
Hint Resolve astRewriteField_keeps_gen : core.

Lemma astRewriteFirstName_keeps_gen p n : keeps R (astRewriteFirstName p n).
Proof. unfold astRewriteFirstName. rk_go. Qed.
Hint Resolve astRewriteFirstName_keeps_gen : core.

Ltac rk_walk :=
  repeat first
    [ lazymatch goal with
      | |- keeps ?R (mapM _ _) => fail
      | _ => rk_step
      end
    | solve [auto]
    | apply keeps_mapM_Forall; [exact _ | assumption]
    | apply keeps_mapM_Forall;
      [exact _ | eapply Forall_impl; [eassumption | intros ? Hx; apply Hx]]
    | match goal with
      | H : from_option _ True ?o |- _ => destruct o; simpl in H
      end
    | case_match ].

Lemma walk_keeps_gen :
  (forall e c, keeps R (walkExpr c e))
  /\ (forall ft, (forall c, keeps R (walkFuncType c ft))
                 /\ keeps R (walkFuncTypeChildren ft))
  /\ (forall fl c, keeps R (walkFieldList c fl))
  /\ (forall f, keeps R (walkField f))
  /\ (forall s, keeps R (walkStmt s))
  /\ (forall b, keeps R (walkBlock b)).
Proof.
  apply ast_mutind; intros; simpl.
  all: try (split; intros).
  all: try match goal with H : _ /\ _ |- _ => destruct H end.
  all: rk_walk.
Qed.

Lemma walkSpec_keeps_gen s : keeps R (walkSpec s).
Proof.
  destruct walk_keeps_gen as (He & _).
  unfold walkSpec. repeat first [rk_step | solve [auto] | apply He | case_match].
Qed.
Hint Resolve walkSpec_keeps_gen : core.

Lemma walkDecl_keeps_gen d : keeps R (walkDecl d).
Proof.
  destruct walk_keeps_gen as (_ & Ht & Hl & _ & _ & Hb).
  unfold walkDecl.
  repeat first
    [ rk_step | solve [auto] | apply Hl | apply Hb | apply (proj1 (Ht _))
    | case_match ].
Qed.
Hint Resolve walkDecl_keeps_gen : core.

Lemma walkFile_keeps_gen f : keeps R (walkFile f).
Proof. unfold walkFile. rk_go. Qed.

(** The updates made for each file and for each package. *)
Hypothesis R_existing : forall m t, R t (set_existingImports m t).
Hypothesis R_init : keeps R initContextExpressions.
Hypothesis R_reset : forall t, R t (set_newImports (fun _ => ∅) t).
Hypothesis R_package : forall p t, R t (set_currentPkg p t).

Lemma transformFile_keeps_gen p loc indf : keeps R (transformFile p loc indf).
Proof.
  unfold transformFile, computeExistingImports. destruct indf as [ind f].
  repeat first
    [ apply walkFile_keeps_gen
    | apply R_init
    | lazymatch goal with
      | |- keeps ?R (modify _) =>
          apply (keeps_modify R); intros ?;
          first [apply R_modified | apply R_reset | apply R_existing]
      | _ => rk_step
      end
    | case_match ].
Qed.

Lemma transformFiles_keeps_gen p files :
  forall loc, keeps R (transformFiles p loc files).
Proof.
  induction files as [|indf rest IH]; intros loc; simpl.
  - rk_step.
  - rk_step; [apply transformFile_keeps_gen | apply IH].
Qed.

Lemma transformPackages_keeps_gen initial :
  forall loc, keeps R (transformPackages loc initial).
Proof.
  induction initial as [|p rest IH]; intros loc; simpl.
  - rk_step.
  - repeat first
      [ apply IH | apply transformFiles_keeps_gen
      | lazymatch goal with
        | |- keeps ?R (modify _) => apply (keeps_modify R); intros ?; apply R_package
        | _ => rk_step
        end
      | case_match ].
Qed.

Lemma transform_keeps_gen initial : keeps R (transform initial).
Proof.
  unfold transform. rk_step; [apply transformPackages_keeps_gen | rk_step].
Qed.

End RewriteKeeps.

(** * The shared data during a run *)

(** The analysis leaves the options of the configuration alone: the
    options read from the file, the debug level, the two shared
    call-site records, the texts of the context types and the file sets
    are, when [analyze] returns, what they were when it started. *)
Theorem analysis_keeps_configuration
    (env : analyzerEnv) (fuel : nat) (s s' : analyzerState) :
  analyze env fuel s = Done (tt, s') ->
  json (acfg s') = json (acfg s)
  /\ debugLevel (acfg s') = debugLevel (acfg s)
  /\ commonCallReplacement (acfg s') = commonCallReplacement (acfg s)
  /\ nilCallReplacement (acfg s') = nilCallReplacement (acfg s)
  /\ ctxParamTypeWithPkgAlias (acfg s') = ctxParamTypeWithPkgAlias (acfg s)
  /\ ctxParamTypeWithPkgPathName (acfg s') = ctxParamTypeWithPkgPathName (acfg s)
  /\ ctxCustomParamTypeWithPkgPathName (acfg s')
     = ctxCustomParamTypeWithPkgPathName (acfg s)
  /\ fsets (acfg s') = fsets (acfg s)
  /\ largeCode (acfg s') = largeCode (acfg s).
Proof.
  intros H. destruct (analyze_grows env fuel _ _ _ H). repeat split; assumption.
Qed.

Lemma analysis_keeps_configuration_witness :
  exists s',
    analyze Readme.env noFuel (mkAnalyzerState Readme.cfg ∅ ∅) = Done (tt, s')
    /\ json (acfg s') = Readme.jsonCfg.
Proof.
  destruct (analyze Readme.env noFuel (mkAnalyzerState Readme.cfg ∅ ∅))
    as [[[] s']| | |] eqn:E; try (vm_compute in E; discriminate).
  exists s'. split; [reflexivity |].
  destruct (analysis_keeps_configuration _ _ _ _ E) as (Hjson & _).
  exact Hjson.
Defined.

(** The analysis never removes an entry from a table: the keys of
    [fnVisited], [callSites] and [callSitesRenamed], the method names
    recorded for each interface in [ifaceModified], the sets
    [fnParamsVisited] and [renameParamsVisited] only gain elements, and
    the warnings are extended at their end. *)
Theorem analysis_tables_grow
    (env : analyzerEnv) (fuel : nat) (s s' : analyzerState) :
  analyze env fuel s = Done (tt, s') ->
  dom (fnVisited (acfg s)) ⊆ dom (fnVisited (acfg s'))
  /\ dom (callSites (acfg s)) ⊆ dom (callSites (acfg s'))
  /\ dom (callSitesRenamed (acfg s)) ⊆ dom (callSitesRenamed (acfg s'))
  /\ (forall i, default ∅ (ifaceModified (acfg s) !! i)
                ⊆ default ∅ (ifaceModified (acfg s') !! i))
  /\ fnParamsVisited (acfg s) ⊆ fnParamsVisited (acfg s')
  /\ renameParamsVisited (acfg s) ⊆ renameParamsVisited (acfg s')
  /\ Warnings (acfg s) `prefix_of` Warnings (acfg s').
Proof.
  intros H. destruct (analyze_grows env fuel _ _ _ H). repeat split; assumption.
Qed.

Lemma analysis_tables_grow_witness :
  exists s',
    analyze Readme.env noFuel (mkAnalyzerState Readme.cfg ∅ ∅) = Done (tt, s')
    /\ fnParamsVisited Readme.cfg ⊆ fnParamsVisited (acfg s').
Proof.
  destruct (analyze Readme.env noFuel (mkAnalyzerState Readme.cfg ∅ ∅))
    as [[[] s']| | |] eqn:E; try (vm_compute in E; discriminate).
  exists s'. split; [reflexivity |].
  destruct (analysis_tables_grow _ _ _ _ E) as (_ & _ & _ & _ & Hparams & _).
  exact Hparams.
Defined.

(** Of the six classes of functions, the analysis stores three in
    [fnVisited]: [regularFn], [freshCtxFn] and [extFn].  The classes
    [containerSig], [extPkg] and [extRecv], which [markFnAsFreshCtx]
    receives, select the text of a warning and are not stored. *)
Theorem analysis_stores_three_classes
    (env : analyzerEnv) (fuel : nat) (s s' : analyzerState)
    (k : uniquePosInfo) (c : fnClass) :
  (forall k0 c0, fnVisited (acfg s) !! k0 = Some c0 ->
     c0 = regularFn \/ c0 = freshCtxFn \/ c0 = extFn) ->
  analyze env fuel s = Done (tt, s') ->
  fnVisited (acfg s') !! k = Some c ->
  c = regularFn \/ c = freshCtxFn \/ c = extFn.
Proof.
  intros Hinit H. destruct (analyze_grows env fuel _ _ _ H).
  apply grows_classes0. exact Hinit.
Qed.

Lemma analysis_stores_three_classes_witness :
  exists s',
    analyze Readme.env noFuel (mkAnalyzerState Readme.cfg ∅ ∅) = Done (tt, s')
    /\ fnVisited (acfg s') !! (10, None) = Some freshCtxFn
    /\ (freshCtxFn = regularFn \/ freshCtxFn = freshCtxFn \/ freshCtxFn = extFn).
Proof.
  destruct (analyze Readme.env noFuel (mkAnalyzerState Readme.cfg ∅ ∅))
    as [[[] s']| | |] eqn:E; try (vm_compute in E; discriminate).
  assert (Hk : fnVisited (acfg s') !! (10, None) = Some freshCtxFn).
  { vm_compute in E. inversion E. vm_compute. reflexivity. }
  exists s'. split; [reflexivity |]. split; [exact Hk |].
  apply (analysis_stores_three_classes Readme.env noFuel
           (mkAnalyzerState Readme.cfg ∅ ∅) s' (10, None) freshCtxFn); [| exact E | exact Hk].
  intros k0 c0 H0. vm_compute in H0. discriminate.
Defined.

Global Instance quiet_preorder : PreOrder quiet.
Proof.
  split.
  - intros t. split; try reflexivity; auto.
  - intros a b c [] []. split; try congruence; try (etransitivity; eassumption).
    intros H. rewrite quiet_silent1 by lia. auto.
Qed.

Lemma quiet_same_cfg t t' : cfg_ t' = cfg_ t -> quiet t t'.
Proof. intros H. split; rewrite H; auto. Qed.

Lemma quiet_writeWarning pos msg t : quiet t (set_cfg (writeWarning pos msg) t).
Proof.
  unfold writeWarning. split; simpl; case_match; simpl; try reflexivity.
  - by apply prefix_app_r.
  - intros. lia.
Qed.

Lemma quiet_initContextExpressions : keeps quiet initContextExpressions.
Proof.
  unfold initContextExpressions. apply (keeps_modify quiet). intros t.
  split; simpl; repeat case_match; simpl; reflexivity.
Qed.

Lemma transform_quiet initial : keeps quiet (transform initial).
Proof.
  apply transform_keeps_gen; try exact _.
  all: try (intros; apply quiet_same_cfg; reflexivity).
  - apply quiet_writeWarning.
  - apply quiet_initContextExpressions.
Qed.

(** A run records warnings at a positive debug level only: the warnings
    of the configuration are extended at their end, and at a debug level
    of zero or less, the level of the tests, they are when [propagate]
    returns what they were when it started. *)
Theorem silent_run
    (env : analyzerEnv) (initial : list LoadedPackage) (fuel : nat)
    (cfg cfg' : config) (res : list modifiedFile) :
  propagate env initial fuel cfg = Done (res, cfg') ->
  debugLevel cfg' = debugLevel cfg
  /\ Warnings cfg `prefix_of` Warnings cfg'
  /\ (debugLevel cfg <= 0 -> Warnings cfg' = Warnings cfg).
Proof.
  unfold propagate. intros H.
  destruct (analyze env fuel _) as [[[] s]| | |] eqn:Ea; try discriminate.
  destruct (transform initial _) as [[res' t]| | |] eqn:Et; try discriminate.
  inversion H; subst. clear H.
  destruct (analyze_grows env fuel _ _ _ Ea). simpl in *.
  destruct (transform_quiet initial _ _ _ Et). simpl in *.
  split; [congruence |]. split; [etransitivity; eassumption |].
  intros Hle. rewrite quiet_silent0 by lia. auto.
Qed.

Lemma silent_run_witness :
  exists res cfg',
    propagate Readme.env [Readme.loaded] noFuel Readme.cfg = Done (res, cfg')
    /\ Warnings cfg' = [].
Proof.
  destruct (propagate Readme.env [Readme.loaded] noFuel Readme.cfg)
    as [[res cfg']| | |] eqn:E; try (vm_compute in E; discriminate).
  exists res, cfg'. split; [reflexivity |].
  destruct (silent_run _ _ _ _ _ _ E) as (_ & _ & Hsilent).
  apply Hsilent. by vm_compute.
Defined.

(** * The loops of the analysis *)

Lemma bind_ret_tt {S} (m : M S unit) (s : S) : bind m (fun _ => ret tt) s = m s.
Proof. unfold bind, ret. destruct (m s) as [[[] s']| | |]; reflexivity. Qed.

Lemma mergeIfaceModified_empty s : mergeIfaceModified ∅ s = Done (false, s).
Proof. unfold mergeIfaceModified. rewrite map_to_list_empty. reflexivity. Qed.

Lemma collectIfaces_false env s b s' :
  collectIfaces env s = Done (b, s') -> b = false.
Proof.
  unfold collectIfaces. intros H.
  apply bind_Done in H. destruct H as (x & s1 & _ & H).
  rewrite mergeIfaceModified_empty in H. by inversion H.
Qed.

(** [collectIfaces] never reports an addition: the map of new
    interfaces that it merges at its end is never written, so its result
    is [false] whatever it did to the tables.  The loop [for added] of
    [analyze] therefore runs its body once: one call of [collectIfaces]
    and one of [collectNamedTypes]. *)
Theorem closure_loop_runs_once
    (env : analyzerEnv) (fuel : nat) (s : analyzerState) :
  match collectIfaces env s with
  | Done (added, _) => added = false
  | _ => True
  end
  /\ closureLoop env (S fuel) s
     = bind (collectIfaces env) (fun _ => collectNamedTypes env fuel) s.
Proof.
  split.
  - destruct (collectIfaces env s) as [[b s']| | |] eqn:E; try exact I.
    eapply collectIfaces_false; eauto.
  - simpl. unfold bind at 1 3.
    destruct (collectIfaces env s) as [[b s']| | |] eqn:E; try reflexivity.
    apply collectIfaces_false in E. subst b. apply bind_ret_tt.
Qed.

Lemma popLast_snoc {X} (l : list X) (x : X) : popLast (l ++ [x]) = Some (l, x).
Proof.
  induction l as [|a l IH]; [reflexivity |].
  change ((a :: l) ++ [x]) with (a :: (l ++ [x])).
  simpl. rewrite IH. destruct (l ++ [x]) eqn:E; [| reflexivity].
  destruct l; discriminate.
Qed.

Lemma collectEdges_invalid env collect_ collectFnDef_ wl n pre e post s :
  IsValid (edgePos e) = false ->
  collectEdges env collect_ collectFnDef_ wl n (pre ++ e :: post) s
  = collectEdges env collect_ collectFnDef_ wl n pre s.
Proof.
  intros He. revert s. induction pre as [|a pre IH]; intros s; simpl.
  - rewrite He. reflexivity.
  - destruct (negb (IsValid (edgePos a))); [reflexivity |].
    unfold bind. destruct (nonNil (Func_ n) s) as [[nf s1]| | |]; try reflexivity.
    destruct (nonNil (Site a) s1) as [[site s2]| | |]; try reflexivity.
    case_match; [apply IH |].
    destruct (collectEdge env collectFnDef_ wl n a site s2) as [[[] s3]| | |];
      try reflexivity.
    apply IH.
Qed.

Lemma collectEdges_node env collect_ collectFnDef_ wl n n' edges s :
  Func_ n = Func_ n' ->
  collectEdges env collect_ collectFnDef_ wl n edges s
  = collectEdges env collect_ collectFnDef_ wl n' edges s.
Proof.
  intros Hf. revert s. induction edges as [|a rest IH]; intros s; simpl.
  - reflexivity.
  - destruct (negb (IsValid (edgePos a))); [reflexivity |].
    rewrite <- Hf. unfold bind.
    destruct (nonNil (Func_ n) s) as [[nf s1]| | |]; try reflexivity.
    destruct (nonNil (Site a) s1) as [[site s2]| | |]; try reflexivity.
    case_match; [apply IH |].
    change (collectEdge env collectFnDef_ wl n' a site s2)
      with (collectEdge env collectFnDef_ wl n a site s2).
    destruct (collectEdge env collectFnDef_ wl n a site s2) as [[[] s3]| | |];
      try reflexivity.
    apply IH.
Qed.

(** An inbound edge without a valid position ends the loop of
    [collect] over the inbound edges of a node: the edges that follow it
    are not examined, and [collect] goes on with the rest of the work
    list as if the node had only the edges before it. *)
Theorem collect_stops_at_invalid_edge
    (env : analyzerEnv) (fuel : nat) (wl : list Node) (n : Node)
    (pre post : list Edge) (e : Edge) (s : analyzerState) :
  In n = pre ++ e :: post ->
  IsValid (edgePos e) = false ->
  collect env (S fuel) (wl ++ [n]) s
  = collect env (S fuel) (wl ++ [mkNode (Func_ n) (ID n) pre (Out n)]) s.
Proof.
  intros Hin He. simpl. unfold collectBody. rewrite !popLast_snoc.
  rewrite Hin. simpl. rewrite collectEdges_invalid by exact He.
  apply collectEdges_node. reflexivity.
Qed.

Lemma collect_stops_at_invalid_edge_witness :
  collect Readme.env 8 [InvalidEdge.node] (mkAnalyzerState Readme.cfg ∅ ∅)
  = collect Readme.env 8
      [mkNode (Some Readme.fnBar) 3 [Readme.edgeFooBar] []]
      (mkAnalyzerState Readme.cfg ∅ ∅).
Proof.
  apply (collect_stops_at_invalid_edge Readme.env 7 [] InvalidEdge.node
           [Readme.edgeFooBar] [Readme.edgeFooBar] InvalidEdge.noSite);
    reflexivity.
Defined.

(** * The rewriting under inert tables *)

Lemma unchanged_mapM {X} (f : X -> T X) (l : list X) :
  Forall (fun x => unchanged (f x) x) l -> unchanged (mapM f l) l.
Proof.
  induction 1 as [|a l Ha Hl IH]; intros t Ht; simpl; [reflexivity |].
  unfold bind. rewrite (Ha t Ht), (IH t Ht). reflexivity.
Qed.

Lemma unchanged_bind {X Y} (m : T X) (k : X -> T Y) x y :
  unchanged m x -> unchanged (k x) y -> unchanged (bind m k) y.
Proof. intros Hm Hk t Ht. unfold bind. rewrite (Hm t Ht). apply Hk, Ht. Qed.

Lemma unchanged_ret {X} (x : X) : unchanged (ret x) x.
Proof. intros t Ht. reflexivity. Qed.

Lemma unchanged_get {X} (k : transformerConfig -> T X) x :
  (forall t, inert (cfg_ t) -> k t t = Done (x, t)) -> unchanged (bind get k) x.
Proof. intros H t Ht. unfold bind, get. auto. Qed.

Lemma inert_fnVisited cfg k :
  inert cfg ->
  fnVisited cfg !! k <> Some regularFn /\ fnVisited cfg !! k <> Some freshCtxFn.
Proof.
  intros (_ & _ & _ & _ & H). split; intros E; destruct (H _ _ E); congruence.
Qed.

Lemma rewriteNestedArg_unchanged pos a : unchanged (rewriteNestedArg pos a) a.
Proof.
  intros t (Hc & _). unfold rewriteNestedArg.
  destruct a as [| |fn lp [|] el rp | | | |]; try reflexivity.
  unfold bind, get. rewrite Hc, lookup_empty. reflexivity.
Qed.

Lemma astRewriteExpr_unchanged c e : unchanged (astRewriteExpr c e) e.
Proof.
  intros t Ht. pose proof Ht as (Hc & Hr & _).
  unfold astRewriteExpr. destruct e as [| |fn lp args el rp | | | |].
  3: {
    unfold bind at 1. unfold renameCallSite, bind at 1, get.
    rewrite Hr, lookup_empty. unfold ret. simpl.
    unfold rewriteCallSite. destruct args as [|a args].
    - destruct (negb _); [| reflexivity].
      unfold bind, get. rewrite Hc, lookup_empty. reflexivity.
    - unfold bind at 1.
      rewrite (unchanged_mapM (rewriteNestedArg _) (a :: args)); [| | exact Ht].
      + unfold injectCtxArg, bind, get. rewrite Hc, lookup_empty. reflexivity.
      + apply Forall_forall. intros. apply rewriteNestedArg_unchanged. }
  all: destruct (Parent c); try reflexivity.
  all: destruct (Strs.eqb _ _); try reflexivity.
  all: unfold bind, get.
  all: destruct (inert_fnVisited _ (posKey t NamePos_) Ht) as [H1 _].
  all: destruct (fnVisited (cfg_ t) !! posKey t NamePos_) as [[]|]; try reflexivity; congruence.
Qed.

Lemma astRewriteFuncType_unchanged c ft : unchanged (astRewriteFuncType c ft) ft.
Proof.
  intros t Ht. unfold astRewriteFuncType.
  destruct (Strs.eqb _ _); [| reflexivity].
  destruct (Parent c) as [| | |p|p| | | | | |]; try reflexivity.
  all: unfold bind, get.
  all: destruct (inert_fnVisited _ (posKey t p) Ht) as [H1 _].
  all: destruct (fnVisited (cfg_ t) !! posKey t p) as [[]|]; try reflexivity; congruence.
Qed.

Lemma astRewriteFieldList_unchanged c fl : unchanged (astRewriteFieldList c fl) fl.
Proof.
  unfold astRewriteFieldList. destruct fl as [o l cl].
  destruct (Strs.eqb (CName c) "Params").
  - eapply unchanged_bind; [| apply unchanged_ret].
    apply unchanged_mapM, Forall_forall. intros fld _ t Ht.
    pose proof Ht as (_ & _ & Hp & _).
    unfold bind, get. rewrite Hp. rewrite bool_decide_eq_false_2 by set_solver.
    reflexivity.
  - destruct (Parent c) as [| | | | | | | |p| |]; try apply unchanged_ret.
    destruct (Strs.eqb _ _); [| apply unchanged_ret].
    eapply unchanged_bind; [| apply unchanged_ret].
    apply unchanged_mapM, Forall_forall. intros fld _ t Ht.
    unfold bind, get.
    destruct (inert_fnVisited _ (posKey t (fieldPos fld)) Ht) as [H1 _].
    destruct (fnVisited (cfg_ t) !! posKey t (fieldPos fld)) as [[]|];
      try reflexivity; congruence.
Qed.

Lemma astRewriteBody_unchanged c b : unchanged (astRewriteBody c b) b.
Proof.
  intros t Ht. unfold astRewriteBody.
  destruct (Strs.eqb _ _); [| reflexivity].
  destruct (Parent c) as [| | |p|p| | | | | |]; try reflexivity.
  all: unfold bind, get.
  all: destruct (inert_fnVisited _ (posKey t p) Ht) as [_ H1].
  all: destruct (fnVisited (cfg_ t) !! posKey t p) as [[]|]; try reflexivity; congruence.
Qed.

Lemma astRewriteField_unchanged f : unchanged (astRewriteField f) f.
Proof.
  intros t Ht. pose proof Ht as (_ & _ & _ & Hp & _).
  unfold astRewriteField. destruct f as [[|] ty]; [| reflexivity].
  unfold bind, get. rewrite Hp. rewrite bool_decide_eq_false_2 by set_solver.
  reflexivity.
Qed.

Lemma astRewriteFirstName_unchanged p n : unchanged (astRewriteFirstName p n) n.
Proof.
  intros t Ht. pose proof Ht as (_ & _ & _ & Hp & _).
  unfold astRewriteFirstName.
  unfold bind, get. rewrite Hp. rewrite bool_decide_eq_false_2 by set_solver.
  reflexivity.
Qed.

Ltac unchanged_walk :=
  repeat first
    [ apply unchanged_ret
    | apply astRewriteExpr_unchanged
    | apply astRewriteFuncType_unchanged
    | apply astRewriteFieldList_unchanged
    | apply astRewriteBody_unchanged
    | apply astRewriteField_unchanged
    | apply astRewriteFirstName_unchanged
    | eassumption
    | apply unchanged_mapM; first
        [ assumption
        | eapply Forall_impl; [eassumption | intros ? Hx; apply Hx] ]
    | match goal with
      | H : forall c, unchanged _ _ |- _ => eapply H
      | H : from_option _ True ?o |- _ => destruct o; simpl in H
      end
    | eapply unchanged_bind ].

Lemma walk_unchanged :
  (forall e c, unchanged (walkExpr c e) e)
  /\ (forall ft, (forall c, unchanged (walkFuncType c ft) ft)
                 /\ unchanged (walkFuncTypeChildren ft) ft)
  /\ (forall fl c, unchanged (walkFieldList c fl) fl)
  /\ (forall f, unchanged (walkField f) f)
  /\ (forall s, unchanged (walkStmt s) s)
  /\ (forall b, unchanged (walkBlock b) b).
Proof.
  apply ast_mutind; intros; simpl.
  all: try (split; intros).
  all: try match goal with H : _ /\ _ |- _ => destruct H end.
  all: unchanged_walk.
  all: try (destruct names; unchanged_walk).
Qed.

Lemma walkSpec_unchanged s : unchanged (walkSpec s) s.
Proof.
  destruct walk_unchanged as (He & _).
  unfold walkSpec. destruct s as [name ty|names [ty|] values]; simpl.
  - eapply unchanged_bind; [apply He | apply unchanged_ret].
  - eapply unchanged_bind.
    + eapply unchanged_bind; [apply He | apply unchanged_ret].
    + eapply unchanged_bind; [| apply unchanged_ret].
      apply unchanged_mapM, Forall_forall. intros. apply He.
  - eapply unchanged_bind; [apply unchanged_ret |].
    eapply unchanged_bind; [| apply unchanged_ret].
    apply unchanged_mapM, Forall_forall. intros. apply He.
Qed.

Lemma walkDecl_unchanged d : unchanged (walkDecl d) d.
Proof.
  destruct walk_unchanged as (_ & Ht & Hl & _ & _ & Hb).
  unfold walkDecl. destruct d as [recv name ft body|specs].
  - eapply unchanged_bind.
    { instantiate (1 := recv). destruct recv; [| apply unchanged_ret].
      eapply unchanged_bind; [apply Hl | apply unchanged_ret]. }
    eapply unchanged_bind; [apply (proj1 (Ht ft)) |].
    eapply unchanged_bind.
    { instantiate (1 := body). destruct body; [| apply unchanged_ret].
      eapply unchanged_bind; [apply Hb | apply unchanged_ret]. }
    eapply unchanged_bind; [apply astRewriteBody_unchanged | apply unchanged_ret].
  - eapply unchanged_bind; [| apply unchanged_ret].
    apply unchanged_mapM, Forall_forall. intros. apply walkSpec_unchanged.
Qed.

Lemma walkFile_unchanged f : unchanged (walkFile f) (mkFile (Imports f) (Decls f)).
Proof.
  unfold walkFile. eapply unchanged_bind; [| apply unchanged_ret].
  apply unchanged_mapM, Forall_forall. intros. apply walkDecl_unchanged.
Qed.

Lemma inert_initContextExpressions t t' :
  initContextExpressions t = Done (tt, t') ->
  inert (cfg_ t) -> inert (cfg_ t') /\ modified t' = modified t.
Proof.
  unfold initContextExpressions, modify. intros [= <-] Ht.
  repeat case_match; simpl; (split; [exact Ht | reflexivity]).
Qed.

Lemma transformFile_inert p loc ind f name t :
  inert (cfg_ t) ->
  CompiledGoFiles p !! ind = Some name ->
  exists loc' t',
    transformFile p loc (ind, f) t = Done (loc', t')
    /\ results loc' = results loc /\ inert (cfg_ t').
Proof.
  intros Ht Hname. unfold transformFile. rewrite Hname.
  case_bool_decide; [by exists loc, t |].
  unfold computeExistingImports.
  unfold bind at 1. unfold modify at 1.
  unfold bind at 1.
  destruct (initContextExpressions _) as [[[] t1]| | |] eqn:E1;
    try (unfold initContextExpressions, modify in E1; discriminate).
  apply inert_initContextExpressions in E1; [| exact Ht].
  destruct E1 as [Ht1 _].
  unfold bind at 1. unfold modify at 1.
  unfold bind at 1. unfold modify at 1.
  unfold bind at 1.
  rewrite (walkFile_unchanged f); [| exact Ht1].
  unfold bind, get. simpl. eexists _, _. split; [reflexivity |].
  split; [reflexivity | exact Ht1].
Qed.

Lemma transformFiles_inert p files :
  Forall (fun indf => is_Some (CompiledGoFiles p !! indf.1)) files ->
  forall loc t,
    inert (cfg_ t) ->
    exists loc' t',
      transformFiles p loc files t = Done (loc', t')
      /\ results loc' = results loc /\ inert (cfg_ t').
Proof.
  induction 1 as [|[ind f] rest [name Hn] _ IH]; intros loc t Ht;
    cbn [transformFiles].
  - by exists loc, t.
  - destruct (transformFile_inert p loc ind f name t Ht Hn) as (loc1 & t1 & E & Hr & Ht1).
    unfold bind. rewrite E.
    destruct (IH loc1 t1 Ht1) as (loc2 & t2 & E2 & Hr2 & Ht2).
    exists loc2, t2. split; [exact E2 |]. split; [congruence | exact Ht2].
Qed.

Lemma filesNamed_lookups p :
  filesNamed p ->
  Forall (fun indf : nat * File => is_Some (CompiledGoFiles p !! indf.1))
         (imap (fun ind f => (ind, f)) (Syntax p)).
Proof.
  unfold filesNamed. intros Hlen. apply Forall_forall. intros [ind f] Hin.
  apply list_elem_of_lookup in Hin. destruct Hin as [i Hi].
  rewrite list_lookup_imap in Hi.
  destruct (Syntax p !! i) as [f'|] eqn:Ef; [| discriminate].
  simpl in Hi. inversion Hi; subst. simpl.
  apply lookup_lt_is_Some. apply lookup_lt_Some in Ef. lia.
Qed.

Lemma transformPackages_inert initial :
  Forall filesNamed initial ->
  forall loc t,
    inert (cfg_ t) ->
    exists loc' t',
      transformPackages loc initial t = Done (loc', t')
      /\ results loc' = results loc /\ inert (cfg_ t').
Proof.
  induction 1 as [|p rest Hp _ IH]; intros loc t Ht; cbn [transformPackages].
  - by exists loc, t.
  - unfold bind at 1. unfold get at 1.
    destruct (isPkgExternal (cfg_ t) (PkgPath p)); [apply IH, Ht |].
    unfold bind at 1. unfold modify at 1.
    destruct (transformFiles_inert p _ (filesNamed_lookups p Hp) loc
                (set_currentPkg p t) Ht) as (loc1 & t1 & E & Hr & Ht1).
    unfold bind at 1. rewrite E.
    destruct (IH loc1 t1 Ht1) as (loc2 & t2 & E2 & Hr2 & Ht2).
    exists loc2, t2. split; [exact E2 |]. split; [congruence | exact Ht2].
Qed.

(** With tables that record no call site, no parameter to rewrite or
    to rename and no function classed [regularFn] or [freshCtxFn], the
    transformation returns, reports no modified file and leaves the
    tables inert, provided every file of every package has its name in
    [CompiledGoFiles]. *)
Theorem inert_tables_modify_nothing
    (initial : list LoadedPackage) (t : transformerConfig) :
  inert (cfg_ t) ->
  Forall filesNamed initial ->
  exists t', transform initial t = Done ([], t') /\ inert (cfg_ t').
Proof.
  intros Ht Hfiles. unfold transform.
  destruct (transformPackages_inert initial Hfiles (mkTransformLocals [] ∅ 0) t Ht)
    as (loc & t' & E & Hr & Ht').
  exists t'. unfold bind. rewrite E. simpl in Hr. rewrite Hr. by split.
Qed.

Lemma inert_tables_modify_nothing_witness :
  exists t',
    transform [Readme.loaded] (newTransformer Readme.cfg) = Done ([], t').
Proof.
  assert (Hinert : inert (cfg_ (newTransformer Readme.cfg))).
  { split; [reflexivity |]. split; [reflexivity |]. split; [reflexivity |].
    split; [reflexivity |]. intros k c H. vm_compute in H. discriminate. }
  assert (Hfiles : Forall filesNamed [Readme.loaded]).
  { constructor; [| constructor]. unfold filesNamed. simpl. lia. }
  destruct (inert_tables_modify_nothing _ _ Hinert Hfiles) as (t' & E & _).
  exists t'. exact E.
Defined.

(** * The files reported by the transformation *)

Lemma sameRun_isPkgExternal t t' path :
  sameRun t t' -> isPkgExternal (cfg_ t') path = isPkgExternal (cfg_ t) path.
Proof.
  intros H. unfold isPkgExternal.
  pose proof (f_equal (fun x => CtxPkgPath (json (cfg_ x))) H) as H1.
  pose proof (f_equal (fun x => LibPkgPath (json (cfg_ x))) H) as H2.
  pose proof (f_equal (fun x => ExtPkgPaths (json (cfg_ x))) H) as H3.
  simpl in *. by rewrite H1, H2, H3.
Qed.

(** What the body of the loop over the files does to the local
    variables of [transform]. *)
Lemma transformFile_locals p loc ind f t loc' t' :
  transformFile p loc (ind, f) t = Done (loc', t') ->
  exists name,
    CompiledGoFiles p !! ind = Some name
    /\ (((name ∈ visitedFiles loc) /\ loc' = loc /\ t' = t)
        \/ ((name ∉ visitedFiles loc)
            /\ visitedFiles loc' = {[name]} ∪ visitedFiles loc
            /\ (results loc' = results loc
                \/ exists out, results loc' = results loc ++ [mkModifiedFile p ind out]))).
Proof.
  unfold transformFile. intros H.
  destruct (CompiledGoFiles p !! ind) as [name|]; [| discriminate].
  exists name. split; [reflexivity |].
  case_bool_decide as Hv.
  - left. inversion H; subst. auto.
  - right. split; [exact Hv |].
    run_inv H.
    match type of H with context [modified ?x] => destruct (modified x) end;
      inversion H; subst; simpl; split; eauto.
Qed.

Section Reported.
Variables (cfg : config) (initial : list LoadedPackage).

Lemma transformFile_reported p loc ind f t loc' t' :
  p ∈ initial -> isPkgExternal cfg (PkgPath p) = false ->
  is_Some (Syntax p !! ind) ->
  transformFile p loc (ind, f) t = Done (loc', t') ->
  reportedSoFar cfg initial loc -> reportedSoFar cfg initial loc'.
Proof.
  intros Hp Hext Hf H [Hall Hnd].
  apply transformFile_locals in H as (name & Hname & [(_ & -> & _) | (Hv & Hvis & Hres)]).
  { by split. }
  assert (Hold : forall mf, mf ∈ results loc ->
            reportedFrom cfg initial mf
            /\ exists name0, resultName mf = Some name0 /\ name0 ∈ visitedFiles loc').
  { intros mf Hmf. destruct (Hall mf Hmf) as (Hr & n0 & Hn0 & Hin).
    split; [exact Hr |]. exists n0. split; [exact Hn0 |]. rewrite Hvis.
    apply elem_of_union. by right. }
  unfold reportedSoFar.
  destruct Hres as [Hres | (out & Hres)]; rewrite Hres; [by split |].
  split.
  - intros mf Hmf. apply elem_of_app in Hmf as [Hmf | Hmf]; [by apply Hold |].
    apply list_elem_of_singleton in Hmf. subst mf.
    split.
    + unfold reportedFrom, resultName. simpl. rewrite Hname. eauto.
    + exists name. unfold resultName. simpl. split; [exact Hname |].
      rewrite Hvis. apply elem_of_union. left. by apply elem_of_singleton.
  - rewrite fmap_app. simpl. apply NoDup_app. split; [exact Hnd |].
    split; [| apply NoDup_singleton].
    intros x Hx Hx'. apply list_elem_of_singleton in Hx'. subst x.
    apply list_elem_of_fmap in Hx as (mf & Heq & Hmf).
    destruct (Hall mf Hmf) as (_ & n0 & Hn0 & Hin).
    unfold resultName in Heq at 1. simpl in Heq. congruence.
Qed.

Lemma transformFiles_reported p files :
  p ∈ initial -> isPkgExternal cfg (PkgPath p) = false ->
  Forall (fun indf : nat * File => is_Some (Syntax p !! indf.1)) files ->
  forall loc t loc' t',
    transformFiles p loc files t = Done (loc', t') ->
    reportedSoFar cfg initial loc -> reportedSoFar cfg initial loc'.
Proof.
  intros Hp Hext. induction 1 as [|[ind f] rest Hf _ IH]; intros loc t loc' t' H Hinv;
    cbn [transformFiles] in H.
  - inversion H; subst. exact Hinv.
  - apply bind_Done in H as (loc1 & t1 & E & H).
    eapply IH; [exact H |]. eapply transformFile_reported; eauto.
Qed.

Lemma imap_lookups (p : LoadedPackage) :
  Forall (fun indf : nat * File => is_Some (Syntax p !! indf.1))
         (imap (fun ind f => (ind, f)) (Syntax p)).
Proof.
  apply Forall_forall. intros [ind f] Hin.
  apply list_elem_of_lookup in Hin. destruct Hin as [i Hi].
  rewrite list_lookup_imap in Hi.
  destruct (Syntax p !! i) as [f'|] eqn:Ef; [| discriminate].
  simpl in Hi. inversion Hi; subst. simpl. eauto.
Qed.

Lemma transformPackages_reported rest :
  Forall (fun p => p ∈ initial) rest ->
  forall loc t loc' t',
    (forall path, isPkgExternal (cfg_ t) path = isPkgExternal cfg path) ->
    transformPackages loc rest t = Done (loc', t') ->
    reportedSoFar cfg initial loc -> reportedSoFar cfg initial loc'.
Proof.
  induction 1 as [|p rest Hp _ IH]; intros loc t loc' t' Hcfg H Hinv;
    cbn [transformPackages] in H.
  - inversion H; subst. exact Hinv.
  - apply bind_Done in H as (t0 & t1 & Eg & H).
    apply get_Done in Eg. inversion Eg; subst t0 t1. clear Eg.
    destruct (isPkgExternal (cfg_ t) (PkgPath p)) eqn:Hext; [eapply IH; eauto |].
    apply bind_Done in H as ([] & t1 & Em & H).
    apply modify_Done in Em. inversion Em; subst t1. clear Em.
    apply bind_Done in H as (loc1 & t2 & Ef & H).
    eapply IH; [| exact H |].
    + intros path. rewrite <- Hcfg.
      change (cfg_ t) with (cfg_ (set_currentPkg p t)).
      apply sameRun_isPkgExternal. eapply transformFiles_keeps; eauto.
    + eapply transformFiles_reported; [exact Hp | | apply imap_lookups | exact Ef | exact Hinv].
      rewrite <- Hcfg. exact Hext.
Qed.
End Reported.

(** Every file that [transform] reports is a file of one of the given
    packages, of a package that is not external, and no file name is
    reported twice, however often a package or a file occurs in the
    list. *)
Theorem reported_files
    (initial : list LoadedPackage) (t t' : transformerConfig)
    (res : list modifiedFile) :
  transform initial t = Done (res, t') ->
  (forall mf, mf ∈ res -> reportedFrom (cfg_ t) initial mf)
  /\ NoDup (resultName <$> res).
Proof.
  unfold transform. intros H.
  apply bind_Done in H as (loc & t1 & E & H).
  apply ret_Done in H. inversion H; subst. clear H.
  assert (Hinv : reportedSoFar (cfg_ t) initial loc).
  { eapply transformPackages_reported; [| | exact E |].
    - apply Forall_forall. auto.
    - reflexivity.
    - split; [| constructor]. intros mf Hmf. simpl in Hmf. by apply elem_of_nil in Hmf. }
  destruct Hinv as [Hall Hnd]. split; [| exact Hnd].
  intros mf Hmf. apply Hall, Hmf.
Qed.

Lemma reported_files_witness :
  exists res t',
    transform [Readme.loaded] Readme.transformer = Done (res, t')
    /\ NoDup (resultName <$> res).
Proof.
  destruct (transform [Readme.loaded] Readme.transformer)
    as [[res t']| | |] eqn:E; try (vm_compute in E; discriminate).
  exists res, t'. split; [reflexivity |].
  destruct (reported_files _ _ _ _ E) as [_ Hnd]. exact Hnd.
Defined.

(** * Packages that occur twice *)

Lemma transformFiles_visited p files :
  forall loc t loc' t',
    transformFiles p loc files t = Done (loc', t') ->
    visitedFiles loc ⊆ visitedFiles loc'
    /\ Forall (fun indf : nat * File =>
                 exists name, CompiledGoFiles p !! indf.1 = Some name
                              /\ name ∈ visitedFiles loc') files.
Proof.
  induction files as [|[ind f] rest IH]; intros loc t loc' t' H;
    cbn [transformFiles] in H.
  - inversion H; subst. split; [reflexivity | constructor].
  - apply bind_Done in H as (loc1 & t1 & E & H).
    destruct (IH _ _ _ _ H) as [Hsub Hall].
    apply transformFile_locals in E
      as (name & Hname & [(Hv & -> & _) | (Hv & Hvis & _)]).
    + split; [exact Hsub |]. constructor; [| exact Hall].
      exists name. split; [exact Hname |]. by apply Hsub.
    + assert (Hin : name ∈ visitedFiles loc1).
      { rewrite Hvis. apply elem_of_union. left. by apply elem_of_singleton. }
      split.
      * etransitivity; [| exact Hsub]. rewrite Hvis. apply union_subseteq_r.
      * constructor; [| exact Hall].
        exists name. split; [exact Hname |]. by apply Hsub.
Qed.

Lemma transformPackages_visited initial :
  forall loc t loc' t',
    transformPackages loc initial t = Done (loc', t') ->
    visitedFiles loc ⊆ visitedFiles loc'.
Proof.
  induction initial as [|p rest IH]; intros loc t loc' t' H;
    cbn [transformPackages] in H.
  - inversion H; subst. reflexivity.
  - apply bind_Done in H as (t0 & t1 & Eg & H).
    apply get_Done in Eg. inversion Eg; subst t0 t1. clear Eg.
    destruct (isPkgExternal (cfg_ t) (PkgPath p)); [eapply IH; eauto |].
    apply bind_Done in H as ([] & t1 & Em & H).
    apply bind_Done in H as (loc1 & t2 & Ef & H).
    apply transformFiles_visited in Ef as [Hsub _].
    etransitivity; [exact Hsub | eapply IH; eauto].
Qed.

Lemma transformFiles_all_visited p files loc t :
  Forall (fun indf : nat * File =>
            exists name, CompiledGoFiles p !! indf.1 = Some name
                         /\ name ∈ visitedFiles loc) files ->
  transformFiles p loc files t = Done (loc, t).
Proof.
  induction 1 as [|[ind f] rest (name & Hname & Hv) _ IH]; cbn [transformFiles].
  - reflexivity.
  - unfold bind, transformFile. simpl in Hname. rewrite Hname.
    rewrite bool_decide_eq_true_2 by exact Hv. exact IH.
Qed.

Lemma transformPackages_app l1 l2 :
  forall loc t,
    transformPackages loc (l1 ++ l2) t
    = bind (transformPackages loc l1) (fun loc' => transformPackages loc' l2) t.
Proof.
  induction l1 as [|p l1 IH]; intros loc t.
  - reflexivity.
  - change ((p :: l1) ++ l2) with (p :: (l1 ++ l2)). cbn [transformPackages].
    unfold bind, get, modify in *.
    destruct (isPkgExternal (cfg_ t) (PkgPath p)); [apply IH |].
    destruct (transformFiles p loc _ (set_currentPkg p t)) as [[loc1 t1]| | |];
      try reflexivity.
    apply IH.
Qed.

(** The package in which the rewriting is, when a package starts, plays
    no part in what follows. *)
Lemma transformPackages_currentPkg initial q :
  forall loc t,
    resultOf (transformPackages loc initial (set_currentPkg q t))
    = resultOf (transformPackages loc initial t).
Proof.
  induction initial as [|p rest IH]; intros loc t; cbn [transformPackages].
  - reflexivity.
  - unfold bind, get, modify.
    change (cfg_ (set_currentPkg q t)) with (cfg_ t).
    destruct (isPkgExternal (cfg_ t) (PkgPath p)); [apply IH |].
    reflexivity.
Qed.

Lemma resultOf_bind {S X Y} (m : M S X) (k1 k2 : X -> M S Y) (s : S) :
  (forall x s1, m s = Done (x, s1) -> resultOf (k1 x s1) = resultOf (k2 x s1)) ->
  resultOf (bind m k1 s) = resultOf (bind m k2 s).
Proof.
  intros H. unfold bind. destruct (m s) as [[x s1]| | |]; try reflexivity.
  by apply H.
Qed.

(** A package that occurs a second time in the list is left alone: the
    files reported are those reported for the list without the second
    occurrence. *)
Theorem package_listed_twice
    (l1 l2 l3 : list LoadedPackage) (p : LoadedPackage) (t : transformerConfig) :
  resultOf (transform (l1 ++ p :: l2 ++ p :: l3) t)
  = resultOf (transform (l1 ++ p :: l2 ++ l3) t).
Proof.
  assert (Hloc : forall loc,
    resultOf (transformPackages loc (l1 ++ p :: l2 ++ p :: l3) t)
    = resultOf (transformPackages loc (l1 ++ p :: l2 ++ l3) t)).
  { intros loc.
    rewrite !transformPackages_app.
    apply resultOf_bind; intros loc1 t1 _.
    change (p :: l2 ++ p :: l3) with ([p] ++ (l2 ++ p :: l3)).
    change (p :: l2 ++ l3) with ([p] ++ (l2 ++ l3)).
    rewrite !transformPackages_app.
    apply resultOf_bind; intros loc2 t2 Ep.
    rewrite !transformPackages_app.
    apply resultOf_bind; intros loc3 t3 El2.
    assert (Hext : isPkgExternal (cfg_ t3) (PkgPath p)
                   = isPkgExternal (cfg_ t1) (PkgPath p)).
    { transitivity (isPkgExternal (cfg_ t2) (PkgPath p)).
      - apply sameRun_isPkgExternal. eapply transformPackages_keeps; eauto.
      - apply sameRun_isPkgExternal. eapply transformPackages_keeps; eauto. }
    cbn [transformPackages] in *. unfold bind, get, modify in *.
    rewrite Hext.
    destruct (isPkgExternal (cfg_ t1) (PkgPath p)); [reflexivity |].
    destruct (transformFiles p loc1 _ (set_currentPkg p t1))
      as [[loc2' t2']| | |] eqn:Ef; try discriminate.
    inversion Ep; subst loc2' t2'. clear Ep.
    apply transformFiles_visited in Ef as [_ Hall].
    apply transformPackages_visited in El2.
    rewrite transformFiles_all_visited.
    - apply transformPackages_currentPkg.
    - eapply Forall_impl; [exact Hall |].
      intros indf (name & Hname & Hv). exists name. split; [exact Hname |].
      by apply El2. }
  unfold transform, bind.
  specialize (Hloc (mkTransformLocals [] ∅ 0)).
  destruct (transformPackages _ (l1 ++ p :: l2 ++ p :: l3) t) as [[la ta]| | |];
    destruct (transformPackages _ (l1 ++ p :: l2 ++ l3) t) as [[lb tb]| | |];
    simpl in *; try discriminate; try reflexivity.
  all: inversion Hloc; subst; reflexivity.
Qed.

(** * The imports of a file *)

Lemma importsOf_snoc (l : list importSpec) (s : importSpec) ds :
  importsOf (mkFile (l ++ [s]) ds)
  = <[imp_path s := imp_name s]> (importsOf (mkFile l ds)).
Proof. unfold importsOf. simpl. by rewrite fold_left_app. Qed.

Lemma importsOf_lookup (f : File) (path : string) :
  importsOf f !! path
  = imp_name <$> last (filter (fun s => imp_path s = path) (Imports f)).
Proof.
  destruct f as [l ds]. simpl.
  induction l as [|s l IH] using rev_ind.
  - reflexivity.
  - rewrite importsOf_snoc, filter_app.
    destruct (decide (imp_path s = path)) as [<-|Hne].
    + rewrite lookup_insert_eq.
      rewrite (filter_cons_True _ s) by done.
      rewrite filter_nil, last_snoc. reflexivity.
    + rewrite lookup_insert_ne by done.
      rewrite (filter_cons_False _ s) by done.
      rewrite filter_nil, app_nil_r. exact IH.
Qed.

(** [computeExistingImports] replaces the map of the existing imports
    by the imports of the file: a path is mapped to the name of the
    last import of this path in the file, the empty string if that
    import has no name, and a path that the file does not import has no
    entry; nothing else changes. *)
Theorem existing_imports_of_file (f : File) (t : transformerConfig) :
  exists t',
    computeExistingImports f t = Done (tt, t')
    /\ t' = set_existingImports (existingImports t') t
    /\ forall path,
         existingImports t' !! path
         = imp_name <$> last (filter (fun s => imp_path s = path) (Imports f)).
Proof.
  eexists. split; [reflexivity |]. split; [reflexivity |].
  intros path. apply importsOf_lookup.
Qed.

Lemma importsOf_Some f path a :
  importsOf f !! path = Some a -> mkImportSpec a path ∈ Imports f.
Proof.
  rewrite importsOf_lookup. intros H.
  destruct (last _) as [s|] eqn:E; [| discriminate].
  inversion H; subst. apply last_Some_elem_of in E.
  apply list_elem_of_filter in E as [Hp Hin]. destruct s; simpl in *. by subst.
Qed.

(** ** What [addImports] appends *)

Lemma AddNamedImport_appends name path f :
  exists added,
    Imports (snd (AddNamedImport name path f)) = Imports f ++ added
    /\ Decls (snd (AddNamedImport name path f)) = Decls f
    /\ (fst (AddNamedImport name path f) = true <-> added <> [])
    /\ (forall spec, spec ∈ added -> spec ∉ Imports f).
Proof.
  unfold AddNamedImport. destruct (existsb _ _) eqn:E; simpl.
  - exists []. rewrite app_nil_r.
    split; [reflexivity |]. split; [reflexivity |]. split; [done |].
    intros spec H. by apply elem_of_nil in H.
  - exists [mkImportSpec name path].
    split; [reflexivity |]. split; [reflexivity |]. split; [done |].
    intros spec H Hin. apply list_elem_of_singleton in H. subst spec.
    apply hasImport_spec in Hin. congruence.
Qed.

Lemma addNewImports_appends entries :
  forall acc,
    exists added,
      Imports (snd (addNewImports entries acc)) = Imports (snd acc) ++ added
      /\ Decls (snd (addNewImports entries acc)) = Decls (snd acc)
      /\ (fst (addNewImports entries acc) = true <-> fst acc = true \/ added <> [])
      /\ NoDup added
      /\ (forall spec, spec ∈ added -> spec ∉ Imports (snd acc)).
Proof.
  induction entries as [|[imp alias] rest IH]; intros acc.
  - exists []. simpl. rewrite app_nil_r.
    split; [reflexivity |]. split; [reflexivity |]. split; [| split].
    + split; [auto | intros [H | H]; done].
    + constructor.
    + intros spec H. by apply elem_of_nil in H.
  - unfold addNewImports in *. cbn [fold_left].
    set (r := if Strs.eqb alias "" then AddImport imp (snd acc)
              else AddNamedImport alias imp (snd acc)).
    assert (Hr : exists nm, r = AddNamedImport nm imp (snd acc)).
    { unfold r, AddImport. destruct (Strs.eqb alias ""); eauto. }
    destruct Hr as [nm Hr].
    destruct (AddNamedImport_appends nm imp (snd acc)) as (a1 & H1 & H2 & H3 & H4).
    rewrite <- Hr in H1, H2, H3.
    destruct (IH (fst r || fst acc, snd r)) as (a2 & G1 & G2 & G3 & G4 & G5).
    simpl in G1, G2, G3, G5.
    exists (a1 ++ a2). rewrite G1, H1, G2, H2, app_assoc.
    split; [reflexivity |]. split; [reflexivity |]. split; [| split].
    + rewrite G3. rewrite orb_true_iff, H3. split.
      * intros [[H | H] | H]; [right | left | right]; try done.
        -- intros E. apply app_eq_nil in E. tauto.
        -- intros E. apply app_eq_nil in E. tauto.
      * intros [H | H]; [left; by right |].
        destruct a1; [right | left; left; done].
        intros ->. done.
    + apply NoDup_app. split; [| split; [| exact G4]].
      * unfold AddNamedImport in Hr.
        assert (Ha1 : a1 = [] \/ exists s, a1 = [s]).
        { rewrite Hr in H1. unfold AddNamedImport in H1.
          destruct (existsb _ _); simpl in H1.
          - left. apply (f_equal length) in H1. rewrite length_app in H1.
            destruct a1; [done | simpl in H1; lia].
          - right. apply app_inv_head in H1. eauto. }
        destruct Ha1 as [-> | [s ->]]; [constructor | apply NoDup_singleton].
      * intros spec Hs1 Hs2. apply (G5 spec Hs2). rewrite H1.
        apply elem_of_app. by right.
    + intros spec Hs. apply elem_of_app in Hs as [Hs | Hs]; [by apply H4 |].
      intros Hin. apply (G5 spec Hs). rewrite H1. apply elem_of_app. by left.
Qed.

(** [addImports] appends to the imports of the file and leaves its
    declarations alone; what it appends has no duplicate and was not
    imported under the same name before; its result tells whether it
    appended anything. *)
Theorem add_imports_appends (t : transformerConfig) (f : File) :
  exists added,
    Imports (snd (addImports t f)) = Imports f ++ added
    /\ Decls (snd (addImports t f)) = Decls f
    /\ (fst (addImports t f) = true <-> added <> [])
    /\ NoDup added
    /\ (forall spec, spec ∈ added -> spec ∉ Imports f).
Proof.
  rewrite addImports_unfold.
  set (r0 := match existingImports t !! CtxPkgPath (json (cfg_ t)) with
             | None => AddNamedImport (CtxPkgAlias (json (cfg_ t)))
                         (CtxPkgPath (json (cfg_ t))) f
             | Some _ => (false, f)
             end).
  assert (H0 : exists a0,
            Imports (snd r0) = Imports f ++ a0 /\ Decls (snd r0) = Decls f
            /\ (fst r0 = true <-> a0 <> [])
            /\ NoDup a0
            /\ (forall spec, spec ∈ a0 -> spec ∉ Imports f)).
  { unfold r0. destruct (existingImports t !! _).
    - exists []. simpl. rewrite app_nil_r.
      split; [reflexivity |]. split; [reflexivity |]. split; [done |].
      split; [constructor |]. intros spec H. by apply elem_of_nil in H.
    - destruct (AddNamedImport_appends (CtxPkgAlias (json (cfg_ t)))
                  (CtxPkgPath (json (cfg_ t))) f) as (a & H1 & H2 & H3 & H4).
      exists a. repeat split; try tauto.
      unfold AddNamedImport in H1. destruct (existsb _ _); simpl in H1.
      + apply (f_equal length) in H1. rewrite length_app in H1.
        destruct a; [constructor | simpl in H1; lia].
      + apply app_inv_head in H1. subst a. apply NoDup_singleton. }
  destruct H0 as (a0 & H1 & H2 & H3 & H4 & H5).
  destruct (addNewImports_appends (map_to_list (newImports t)) r0)
    as (a1 & G1 & G2 & G3 & G4 & G5).
  exists (a0 ++ a1). rewrite G1, H1, G2, H2, app_assoc.
  split; [reflexivity |]. split; [reflexivity |]. split; [| split].
  - rewrite G3, H3. split.
    + intros [H | H] E; apply app_eq_nil in E; tauto.
    + intros H. destruct a0; [right | left; done]. intros ->. done.
  - apply NoDup_app. split; [exact H4 |]. split; [| exact G4].
    intros spec Hs0 Hs1. apply (G5 spec Hs1). rewrite H1. apply elem_of_app. by right.
  - intros spec Hs. apply elem_of_app in Hs as [Hs | Hs]; [by apply H5 |].
    intros Hin. apply (G5 spec Hs). rewrite H1. apply elem_of_app. by left.
Qed.

(** ** The context type and the import of its package *)

(** The rewriting of a file that had not been visited. *)
Lemma transformFile_run p loc ind f name t loc' t' :
  CompiledGoFiles p !! ind = Some name ->
  name ∉ visitedFiles loc ->
  transformFile p loc (ind, f) t = Done (loc', t') ->
  exists res,
    Imports res = Imports f
    /\ existingImports t' = importsOf f
    /\ ctxParamTypeWithPkgAlias (cfg_ t') = contextTypeText (json (cfg_ t)) f
    /\ results loc'
       = if modified t'
         then results loc ++ [mkModifiedFile p ind (snd (addImports t' res))]
         else results loc.
Proof.
  intros Hname Hvisited Hrun.
  unfold transformFile in Hrun. rewrite Hname in Hrun.
  rewrite bool_decide_eq_false_2 in Hrun by done.
  apply bind_Done in Hrun as ([] & t0 & E0 & Hrun).
  apply bind_Done in Hrun as ([] & t1 & E1 & Hrun).
  apply bind_Done in Hrun as ([] & t2 & E2 & Hrun).
  apply bind_Done in Hrun as ([] & t3 & E3 & Hrun).
  apply bind_Done in Hrun as (res & t4 & E4 & Hrun).
  apply bind_Done in Hrun as (t5 & t6 & E5 & Hrun).
  unfold computeExistingImports in E0. apply modify_Done in E0. inversion E0; subst t0.
  pose proof E1 as E1'.
  apply initContextExpressions_typeText with (f := f) in E1'; [| reflexivity].
  unfold initContextExpressions in E1. apply modify_Done in E1.
  assert (Hex1 : existingImports t1 = importsOf f).
  { inversion E1. repeat case_match; reflexivity. }
  apply modify_Done in E2. inversion E2; subst t2.
  apply modify_Done in E3. inversion E3; subst t3.
  pose proof (walkFile_Imports _ _ _ _ E4) as Hres.
  apply walkFile_keeps in E4.
  pose proof (f_equal existingImports E4) as Hex. simpl in Hex.
  apply sameTables_typeText in E4. simpl in E4.
  apply get_Done in E5. inversion E5; subst t5 t6.
  exists res.
  assert (Ht' : t' = t4 /\ results loc'
                = if modified t4
                  then results loc ++ [mkModifiedFile p ind (snd (addImports t4 res))]
                  else results loc).
  { destruct (modified t4); apply ret_Done in Hrun; inversion Hrun; subst; by split. }
  destruct Ht' as [-> Hresults].
  split; [exact Hres |]. split; [by rewrite Hex |]. split; [| exact Hresults].
  rewrite E4. exact E1'.
Qed.

(** In a file that the rewriting modified, the text of the type of
    the context parameter is qualified by a name under which the written
    file imports the context package: the file has an import of the
    path of that package, and the qualifier is the name of this import
    or, for an import without name, the name of the package. *)
Theorem context_type_is_imported
    (p : LoadedPackage) (loc loc' : transformLocals) (ind : nat) (f : File)
    (name : string) (t t' : transformerConfig) :
  CompiledGoFiles p !! ind = Some name ->
  name ∉ visitedFiles loc ->
  transformFile p loc (ind, f) t = Done (loc', t') ->
  modified t' = true ->
  exists out spec,
    results loc' = results loc ++ [mkModifiedFile p ind out]
    /\ spec ∈ Imports out
    /\ imp_path spec = CtxPkgPath (json (cfg_ t))
    /\ ctxParamTypeWithPkgAlias (cfg_ t')
       = importedName (json (cfg_ t)) spec +:+ "." +:+ CtxParamType (json (cfg_ t)).
Proof.
  intros Hname Hvisited Hrun Hmod.
  pose proof (transformFile_keeps _ _ _ _ _ _ Hrun) as Hsame.
  apply sameRun_contextImport in Hsame as [Hpath Himp].
  destruct (transformFile_run _ _ _ _ _ _ _ _ Hname Hvisited Hrun)
    as (res & Hres & Hex & Htext & Hresults).
  rewrite Hmod in Hresults.
  exists (snd (addImports t' res)).
  unfold contextTypeText, contextQualifier in Htext.
  destruct (importsOf f !! CtxPkgPath (json (cfg_ t))) as [pkgAlias|] eqn:E.
  - exists (mkImportSpec pkgAlias (CtxPkgPath (json (cfg_ t)))).
    split; [exact Hresults |]. split; [| split; [reflexivity |]].
    + apply addImports_elem. left. rewrite Hres. by apply importsOf_Some.
    + rewrite Htext. unfold importedName. simpl.
      destruct (Strs.eqb pkgAlias ""); reflexivity.
  - exists (contextImport (json (cfg_ t))).
    split; [exact Hresults |]. split; [| split; [reflexivity |]].
    + apply addImports_elem. right. left. rewrite Hex, Hpath, Himp. done.
    + rewrite Htext. unfold importedName, contextImport. simpl.
      destruct (Strs.eqb (CtxPkgAlias (json (cfg_ t))) ""); reflexivity.
Qed.

Lemma context_type_is_imported_witness :
  exists loc' t' out spec,
    transformFile Readme.loaded Readme.locals0 (0%nat, Readme.file) Readme.transformer
    = Done (loc', t')
    /\ results loc' = [mkModifiedFile Readme.loaded 0 out]
    /\ spec ∈ Imports out
    /\ imp_path spec = "context".
Proof.
  assert (H1 : CompiledGoFiles Readme.loaded !! 0%nat = Some "example.go") by reflexivity.
  assert (H2 : "example.go" ∉ visitedFiles Readme.locals0) by (vm_compute; set_solver).
  destruct (transformFile Readme.loaded Readme.locals0 (0%nat, Readme.file) Readme.transformer)
    as [[loc' t']| | |] eqn:E; try (vm_compute in E; discriminate).
  assert (Hm : modified t' = true).
  { vm_compute in E. inversion E. reflexivity. }
  destruct (context_type_is_imported _ _ _ _ _ _ _ _ H1 H2 E Hm)
    as (out & spec & Hres & Hin & Hpath & _).
  exists loc', t', out, spec. split; [reflexivity |].
  split; [exact Hres |]. split; [exact Hin | exact Hpath].
Defined.

(** * The context expression of a call-site record *)

Lemma getCtxExprAndAddImports_single r t imp alias :
  ctxImports r = {[imp := alias]} ->
  getCtxExprAndAddImports r t
  = bind (ctxImportStep (existingImports t) (contextExpression (json (cfg_ t)) r)
            (imp, alias))
         (fun x => match x with
                   | inl s => ret s
                   | inr _ => ret (contextExpression (json (cfg_ t)) r)
                   end) t.
Proof.
  intros Hm. unfold getCtxExprAndAddImports. unfold bind at 1. unfold get.
  rewrite Hm, map_size_singleton. rewrite bool_decide_eq_false_2 by lia.
  rewrite map_to_list_singleton. reflexivity.
Qed.

(** For a record with one import, [getCtxExprAndAddImports] does the
    following.  If the context expression holds the alias wildcard, the
    wildcard is filled with the name under which the file imports the
    path, if it imports it under a name, and with the configured alias
    otherwise, and the import is recorded under that alias; with no
    alias to use, the run ends with the fatal error about the
    placeholder.  If the expression does not hold the wildcard, it is
    returned as it is, and the import is recorded under the configured
    alias unless the file imports the path already and no alias is
    configured. *)
Theorem one_import_resolved
    (r : replacementInfo) (t : transformerConfig) (imp alias : string) :
  ctxImports r = {[imp := alias]} ->
  let e := contextExpression (json (cfg_ t)) r in
  let a := aliasFor (existingImports t) imp alias in
  getCtxExprAndAddImports r t
  = if Strs.Contains e aliasWildCard
    then if Strs.eqb a ""
         then Fatal FatalAliasPlaceholder
         else Done (replaceCtxExprWildcard aliasWildCard e a,
                    set_newImports (insert imp a) t)
    else Done (e, if bool_decide (is_Some (existingImports t !! imp))
                     && Strs.eqb alias ""
                  then t
                  else set_newImports (insert imp alias) t).
Proof.
  intros Hm e a. rewrite (getCtxExprAndAddImports_single r t imp alias Hm).
  fold e. unfold ctxImportStep, a, aliasFor.
  destruct (Strs.Contains e aliasWildCard).
  - destruct (existingImports t !! imp) as [ex|].
    + destruct (Strs.eqb ex "") eqn:Eex.
      * destruct (Strs.eqb alias ""); reflexivity.
      * rewrite Eex. reflexivity.
    + destruct (Strs.eqb alias ""); reflexivity.
  - destruct (existingImports t !! imp) as [ex|]; simpl.
    + destruct (Strs.eqb alias ""); reflexivity.
    + reflexivity.
Qed.

Lemma one_import_resolved_witness :
  getCtxExprAndAddImports
    (mkReplacementInfo "" 1 {["lib/ctx" := "lc"]} "<?ALIAS1?>.From(<?CTX?>)" "")
    Readme.transformer
  = Done ("lc.From(ctx)", set_newImports (insert "lib/ctx" "lc") Readme.transformer).
Proof.
  rewrite (one_import_resolved _ Readme.transformer "lib/ctx" "lc"); [| reflexivity].
  vm_compute. reflexivity.
Defined.

(** * The context parameter *)

(** [addContextParam] puts one field in front of the parameters and
    keeps the others in place.  The type of the new field is the text
    of the context type; the field is named, by the name of the context
    parameter, exactly when the list was empty or its first field was
    named, so that a list whose fields are all named or all unnamed
    stays so. *)
Theorem context_parameter_added (cfg : config) (fl : fieldList) :
  exists names pos,
    fieldsOf (addContextParam cfg fl)
    = Field names (Ident (mkIdent pos (ctxParamTypeWithPkgAlias cfg))) :: fieldsOf fl
    /\ (names = [] \/ names = [NewIdent (CtxParamName (json cfg))])
    /\ (names = [] <-> exists ty rest, fieldsOf fl = Field [] ty :: rest)
    /\ (uniformNames (fieldsOf fl) -> uniformNames (fieldsOf (addContextParam cfg fl))).
Proof.
  destruct fl as [o [|[[|n ns] ty] l] c]; simpl.
  - exists [NewIdent (CtxParamName (json cfg))], c.
    split; [reflexivity |]. split; [by right |]. split.
    + split; [discriminate | intros (ty & rest & H); discriminate].
    + intros _. left. repeat constructor.
  - exists [], NoPos.
    split; [reflexivity |]. split; [by left |]. split.
    + split; [eauto | reflexivity].
    + intros [H | H]; [inversion H; discriminate |].
      right. constructor; [reflexivity | exact H].
  - exists [NewIdent (CtxParamName (json cfg))], NoPos.
    split; [reflexivity |]. split; [by right |]. split.
    + split; [discriminate | intros (ty' & rest & H); discriminate].
    + intros [H | H]; [| inversion H; discriminate].
      left. constructor; [reflexivity | exact H].
Qed.

(** * The context type of the configuration file *)

Lemma append_assoc (a b c : string) : (a +:+ b) +:+ c = a +:+ (b +:+ c).
Proof.
  induction a as [|x a IH]; [reflexivity |].
  change (String x ((a +:+ b) +:+ c) = String x (a +:+ (b +:+ c))). by rewrite IH.
Qed.

Lemma append_nonempty (a b : string) : b <> "" -> a +:+ b <> "".
Proof. destruct a; [done |]. intros _. discriminate. Qed.

Lemma getQualifiedType_plain T path name :
  T <> "" -> Strs.HasPrefix T "*" = false ->
  getQualifiedType T path name = Done (path +:+ name +:+ "." +:+ T)
  /\ getQualifiedType ("*" +:+ T) path name = Done ("*" +:+ path +:+ name +:+ "." +:+ T).
Proof.
  intros Hne Hstar. unfold getQualifiedType.
  destruct T as [|c T]; [done |].
  assert (Hc : c <> "*"%char).
  { intros ->. destruct T; vm_compute in Hstar; discriminate. }
  split; destruct c as [[] [] [] [] [] [] [] []]; try reflexivity; by destruct Hc.
Qed.

(** The text that [getQualifiedType] builds for a type of the
    configuration file is the text that [getTypeWithPkgFromVar] prints
    for a variable of that type. *)
Lemma getQualifiedType_namedIn path name T ty v pos :
  path +:+ name <> "" ->
  namedIn path name T ty ->
  getQualifiedType T path name = Done (getTypeWithPkgFromVar (Some (mkVar v ty pos))).
Proof.
  intros Hq (obj & u & p & Hpkg & <- & <- & Hne & Hstar & Hty).
  destruct (getQualifiedType_plain (tn_name obj) (Path p) (Name p) Hne Hstar)
    as [H1 H2].
  assert (Hs : TypeString computePkgID (Named obj u)
               = Path p +:+ Name p +:+ "." +:+ tn_name obj).
  { simpl. rewrite Hpkg. unfold computePkgID at 1.
    rewrite (proj2 (Strs_eqb_false _ _)) by exact Hq.
    unfold computePkgID. apply append_assoc. }
  destruct Hty as [[-> ->] | [-> ->]]; unfold getTypeWithPkgFromVar; cbn [v_type].
  - rewrite H1, Hs. reflexivity.
  - rewrite H2.
    change (TypeString computePkgID (Pointer (Named obj u)))
      with ("*" +:+ TypeString computePkgID (Named obj u)).
    rewrite Hs. reflexivity.
Qed.

(** A first parameter of the context type of the configuration file
    is recognised by [isFirstParamContext], with its position and its
    name, and [skipContextParam] then holds exactly when the parameter
    has no name, the blank name or the name of the context parameter. *)
Theorem context_parameter_recognised
    (j : jsonConfig) (d : Z) (lc : bool) (fs : gmap nat nat) (cfg : config)
    (sig : signature) (v : Var) (rest : list Var) :
  initialize j d lc fs = Done cfg ->
  Params sig = v :: rest ->
  CtxPkgPath j +:+ CtxPkgName j <> "" ->
  namedIn (CtxPkgPath j) (CtxPkgName j) (CtxParamType j) (v_type v) ->
  (exists typeName,
     isFirstParamContext cfg sig = (true, v_pos v, v_name v, typeName, false))
  /\ (skipContextParam cfg sig = true
      <-> v_name v = "_" \/ v_name v = "" \/ v_name v = CtxParamName j).
Proof.
  intros Hinit Hparams Hq Hty.
  pose proof (getQualifiedType_namedIn _ _ _ _ (v_name v) (v_pos v) Hq Hty) as Hqt.
  assert (Hcfg : ctxParamTypeWithPkgPathName cfg = getTypeWithPkgFromVar (Some v)
                 /\ json cfg = j).
  { unfold initialize in Hinit. repeat case_match; try discriminate.
    all: inversion Hinit; subst; simpl.
    all: destruct v; simpl in *; split; congruence. }
  destruct Hcfg as [Hcfg Hjson].
  assert (Hfirst : exists typeName,
            isFirstParamContext cfg sig = (true, v_pos v, v_name v, typeName, false)).
  { unfold isFirstParamContext. rewrite Hparams, Hcfg.
    rewrite (proj2 (Strs_eqb_true _ _)) by reflexivity. eauto. }
  split; [exact Hfirst |].
  destruct Hfirst as [typeName Hfirst].
  unfold skipContextParam. rewrite Hfirst, Hjson. simpl.
  rewrite !orb_true_iff, !Strs_eqb_true. tauto.
Qed.

Lemma context_parameter_recognised_witness :
  skipContextParam Readme.cfg WithContext.sig = true.
Proof.
  assert (Hinit : initialize Readme.jsonCfg 0 false ∅ = Done Readme.cfg)
    by (vm_compute; reflexivity).
  assert (Hq : CtxPkgPath Readme.jsonCfg +:+ CtxPkgName Readme.jsonCfg <> "")
    by discriminate.
  assert (Hty : namedIn (CtxPkgPath Readme.jsonCfg) (CtxPkgName Readme.jsonCfg)
                  (CtxParamType Readme.jsonCfg) (v_type WithContext.param)).
  { exists (mkTypeName 1 "Context" (Some WithContext.pkgContext) 500),
           (Interface 1 [] []), WithContext.pkgContext.
    split; [reflexivity |]. split; [reflexivity |]. split; [reflexivity |].
    split; [discriminate |]. split; [reflexivity |]. left. by split. }
  destruct (context_parameter_recognised Readme.jsonCfg 0 false ∅ Readme.cfg
              WithContext.sig WithContext.param [mkVar "p" (Basic "bool") 70]
              Hinit eq_refl Hq Hty) as [_ Hskip].
  apply Hskip. by left.
Defined.

(** * The tables of the configuration file *)

Lemma stopsAt_mapFnToPkgInfo m f0 r0 p0 n0 f r p n :
  stopsAt (mapFnToPkgInfo m f0 r0 p0 n0) f r p n = true
  <-> (f = f0 /\ r = r0 /\ p = p0 /\ n = n0) \/ stopsAt m f r p n = true.
Proof.
  unfold stopsAt, mapFnToPkgInfo, mapPkgInfo.
  destruct (decide (f = f0)) as [->|Hf].
  2: { rewrite lookup_insert_ne by done. tauto. }
  rewrite lookup_insert_eq.
  destruct (decide (r = r0)) as [->|Hr].
  2: { rewrite lookup_insert_ne by done.
       destruct (m !! f0) as [recvs|]; simpl; [tauto |].
       rewrite lookup_empty. split; [discriminate | intros [? | ?]; [tauto | done]]. }
  rewrite lookup_insert_eq.
  destruct (decide (p = p0)) as [->|Hp].
  2: { rewrite lookup_insert_ne by done.
       destruct (m !! f0) as [recvs|]; simpl.
       - destruct (recvs !! r0); simpl; [tauto |].
         rewrite lookup_empty. split; [discriminate | intros [? | ?]; [tauto | done]].
       - rewrite !lookup_empty. simpl. rewrite lookup_empty.
         split; [discriminate | intros [? | ?]; [tauto | done]]. }
  rewrite lookup_insert_eq, bool_decide_eq_true.
  rewrite elem_of_union, elem_of_singleton.
  destruct (m !! f0) as [recvs|]; simpl.
  - destruct (recvs !! r0) as [pkgs|]; simpl.
    + destruct (pkgs !! p0) as [names|]; simpl.
      * rewrite bool_decide_eq_true. tauto.
      * rewrite elem_of_empty. split; [tauto | intros [? | ?]; [tauto | done]].
    + rewrite lookup_empty. simpl. rewrite elem_of_empty.
      split; [tauto | intros [? | ?]; [tauto | done]].
  - rewrite lookup_empty. simpl. rewrite lookup_empty. simpl. rewrite elem_of_empty.
    split; [tauto | intros [? | ?]; [tauto | done]].
Qed.

Lemma unmarshalFnInfo_stopsAt data :
  forall m m' f r p n,
    unmarshalFnInfo m data = Done m' ->
    stopsAt m' f r p n = true
    <-> stopsAt m f r p n = true
        \/ exists d, d ∈ data /\ fd_name d = f
                     /\ getRecvStringFromJson (fd_recv d) = Done r
                     /\ fd_pkgPath d = p /\ fd_pkgName d = n.
Proof.
  induction data as [|d rest IH]; intros m m' f r p n H; simpl in H.
  - inversion H; subst. split; [by left |].
    intros [? | (d & Hd & _)]; [done | by apply elem_of_nil in Hd].
  - destruct (getRecvStringFromJson (fd_recv d)) as [recv| | |] eqn:E; try discriminate.
    rewrite (IH _ _ f r p n H), stopsAt_mapFnToPkgInfo. split.
    + intros [[(-> & -> & -> & ->) | Hm] | (d' & Hd' & Hrest)].
      * right. exists d. split; [left |]. done.
      * by left.
      * right. exists d'. split; [by right | done].
    + intros [Hm | (d' & Hd' & Hf & Hr & Hp & Hn)]; [left; by right |].
      apply elem_of_cons in Hd' as [-> | Hd'].
      * left. left. rewrite E in Hr. inversion Hr. done.
      * right. exists d'. done.
Qed.

(** A function is a propagation stop exactly when the configuration
    file lists it: after [PropagationStops] has been decoded, the test
    of [collect] succeeds for a name, a receiver type, a package path
    and a package name exactly when an entry of the list has this name,
    this path and this package name and a receiver that
    [getRecvStringFromJson] prints as this receiver type. *)
Theorem propagation_stops_listed
    (cfg : config) (data : list fnDesc) (fnName recvType pkgPath pkgName : string) :
  unmarshalFnInfo ∅ data = Done (PropagationStops (json cfg)) ->
  propagationStops cfg fnName recvType pkgPath pkgName = true
  <-> exists d, d ∈ data /\ fd_name d = fnName
                /\ getRecvStringFromJson (fd_recv d) = Done recvType
                /\ fd_pkgPath d = pkgPath /\ fd_pkgName d = pkgName.
Proof.
  intros H.
  change (propagationStops cfg fnName recvType pkgPath pkgName)
    with (stopsAt (PropagationStops (json cfg)) fnName recvType pkgPath pkgName).
  rewrite (unmarshalFnInfo_stopsAt data _ _ fnName recvType pkgPath pkgName H).
  split; [| by right]. intros [Hm | Hd]; [| exact Hd].
  unfold stopsAt in Hm. rewrite lookup_empty in Hm. discriminate.
Qed.

Lemma leafRecord_mapFnToReplacementInfo m f0 r0 x f r :
  leafRecord (mapFnToReplacementInfo m f0 r0 x) f r
  = if bool_decide (f = f0 /\ r = r0) then Some x else leafRecord m f r.
Proof.
  unfold leafRecord, mapFnToReplacementInfo.
  destruct (decide (f = f0)) as [->|Hf].
  2: { rewrite lookup_insert_ne by done.
       rewrite bool_decide_eq_false_2 by tauto. reflexivity. }
  rewrite lookup_insert_eq. simpl.
  destruct (decide (r = r0)) as [->|Hr].
  - rewrite lookup_insert_eq. rewrite bool_decide_eq_true_2 by done. reflexivity.
  - rewrite lookup_insert_ne by done.
    rewrite bool_decide_eq_false_2 by tauto.
    destruct (m !! f0); simpl; [reflexivity | apply lookup_empty].
Qed.

Lemma unmarshalLibFns_snoc data d :
  forall m m',
    unmarshalLibFns m (data ++ [d]) = Done m' ->
    exists m1 recv,
      unmarshalLibFns m data = Done m1
      /\ getRecvStringFromJson (lf_recv d) = Done recv
      /\ m' = mapFnToReplacementInfo m1 (lf_name d) recv (replacementOf d).
Proof.
  induction data as [|d0 rest IH]; intros m m' H; simpl in H.
  - destruct (getRecvStringFromJson (lf_recv d)) as [recv| | |]; try discriminate.
    inversion H; subst. by exists m, recv.
  - simpl. destruct (getRecvStringFromJson (lf_recv d0)) as [recv0| | |];
      try discriminate.
    by apply IH.
Qed.

Lemma propagation_stops_listed_witness :
  propagationStops Stops.cfg "foo" "" "example.com/example" "main" = true.
Proof.
  assert (H : unmarshalFnInfo ∅ Stops.data = Done (PropagationStops (json Stops.cfg)))
    by (vm_compute; reflexivity).
  apply (propagation_stops_listed Stops.cfg Stops.data _ _ _ _ H).
  exists (mkFnDesc "foo" "example.com/example" "main" None).
  split; [apply list_elem_of_singleton; reflexivity |].
  split; [reflexivity |]. split; [reflexivity |]. split; reflexivity.
Defined.

(** The record of a leaf function is that of the last entry of
    [LibFns] with its name and its receiver: after the list has been
    decoded, the record found for a name and a receiver type is built
    from the last entry that has this name and a receiver printed as
    this type, with the first position and empty texts for the keys
    that the entry leaves out; there is no record when no entry
    matches. *)
Theorem leaf_record_of_last_entry
    (data : list libFnDesc) (m : fnReplacementInfo) (fnName recv : string) :
  unmarshalLibFns ∅ data = Done m ->
  leafRecord m fnName recv
  = replacementOf
    <$> last (filter (fun d => lf_name d = fnName
                               /\ getRecvStringFromJson (lf_recv d) = Done recv) data).
Proof.
  revert m. induction data as [|d data IH] using rev_ind; intros m H.
  - inversion H; subst. reflexivity.
  - apply unmarshalLibFns_snoc in H as (m1 & r0 & H1 & Hr & ->).
    rewrite leafRecord_mapFnToReplacementInfo, filter_app, (IH m1 H1).
    case_bool_decide as Hk.
    + destruct Hk as [-> ->].
      rewrite (filter_cons_True _ d) by done.
      rewrite filter_nil, last_snoc. reflexivity.
    + rewrite (filter_cons_False _ d).
      * rewrite filter_nil, app_nil_r. reflexivity.
      * intros [Hn Hrr]. apply Hk. split; [done |]. congruence.
Qed.

Lemma leaf_record_of_last_entry_witness :
  leafRecord (LibFns Readme.jsonCfg) "Print" ""
  = Some (mkReplacementInfo "" 1 ∅ "" "").
Proof.
  assert (H : unmarshalLibFns ∅ Stops.leaves = Done (LibFns Readme.jsonCfg))
    by (vm_compute; reflexivity).
  rewrite (leaf_record_of_last_entry Stops.leaves _ "Print" "" H).
  vm_compute. reflexivity.
Defined.

(** ** Test functions *)

Lemma toLowerByte_same c :
  Strs.eqb (toLowerByte c) (String c EmptyString) = negb (upperOrNotAscii c).
Proof.
  destruct c as [[] [] [] [] [] [] [] []]; vm_compute; reflexivity.
Qed.

(** X18.  A function whose name starts with [Test], with one parameter of
    type [*testing.T], is a test function exactly when the fifth byte of
    its name is an underscore, an ASCII capital letter, or a byte that is
    not ASCII: the lower-casing of such a byte alone gives the replacement
    character, which differs from the byte. *)
Theorem test_function_name (c : ascii) (rest : string) (sig : signature) (p : Var) :
  Params sig = [p] ->
  typeToString (v_type p) = testingTypeT ->
  isTestingInitOrMainFunction (testName c rest) sig
  = Ascii.eqb c "_" || upperOrNotAscii c.
Proof.
  intros Hp Ht. unfold isTestingInitOrMainFunction.
  assert (Hmain : Strs.eqb (testName c rest) "main" = false) by reflexivity.
  assert (Hinit : isInitFuncName (testName c rest) = false).
  { unfold isInitFuncName.
    assert (Htrim : Strs.TrimPrefix (testName c rest) "init#" = testName c rest)
      by reflexivity.
    rewrite Htrim.
    assert (Hrefl : forall s, Strs.eqb s s = true).
    { intros s. unfold Strs.eqb. by apply bool_decide_eq_true. }
    by rewrite Hrefl. }
  rewrite Hmain, Hinit. cbn [orb andb].
  assert (Hlen : (String.length (testName c rest) <? 5)%nat = false) by reflexivity.
  rewrite Hlen.
  assert (Hpre : Strs.eqb (String.substring 0 4 (testName c rest)) "Test" = true)
    by reflexivity.
  rewrite Hpre. cbn [negb].
  assert (Hget : String.get 4 (testName c rest) = Some c) by reflexivity.
  rewrite Hget, Hp, Ht, toLowerByte_same.
  assert (HT : Strs.eqb testingTypeT testingTypeT = true) by reflexivity.
  rewrite HT. cbn [orb].
  destruct (Ascii.eqb c "_"), (upperOrNotAscii c); reflexivity.
Qed.

(** A name whose fifth byte is [0xC8], and the names [TestX] and [Testx]. *)
Lemma test_function_name_witness :
  isTestingInitOrMainFunction (testName (ascii_of_nat 200) "") TestFn.sig = true
  /\ isTestingInitOrMainFunction "TestX" TestFn.sig = true
  /\ isTestingInitOrMainFunction "Testx" TestFn.sig = false.
Proof.
  assert (Hp : Params TestFn.sig = [TestFn.param]) by reflexivity.
  assert (Ht : typeToString (v_type TestFn.param) = testingTypeT)
    by (vm_compute; reflexivity).
  split; [| split].
  - rewrite (test_function_name (ascii_of_nat 200) "" TestFn.sig TestFn.param Hp Ht).
    vm_compute. reflexivity.
  - change "TestX" with (testName "X" "").
    rewrite (test_function_name "X" "" TestFn.sig TestFn.param Hp Ht).
    vm_compute. reflexivity.
  - change "Testx" with (testName "x" "").
    rewrite (test_function_name "x" "" TestFn.sig TestFn.param Hp Ht).
    vm_compute. reflexivity.
Defined.

(** * The analysis: the claims *)

(** ** An inbound edge without position *)

(** C8, as amended: an inbound edge without a valid position ends the
    work on the node that [collect] has taken from the work list.  The
    edges before it are processed as usual, nothing is recorded for the
    edge or for the edges after it, whatever they are, and [collect] goes
    on with the rest of the work list; a node whose first inbound edge
    has no valid position contributes nothing. *)
Theorem invalid_edge_ends_node
    (env : analyzerEnv) (fuel : nat) (wl : list Node) (n : Node)
    (pre post : list Edge) (e : Edge) (s : analyzerState) :
  In n = pre ++ e :: post ->
  IsValid (edgePos e) = false ->
  collect env (S fuel) (wl ++ [n]) s
  = collectEdges env (collect env fuel) (collectFnDef env fuel) wl n pre s
  /\ (pre = [] -> collect env (S fuel) (wl ++ [n]) s = collect env fuel wl s)
  /\ (forall post',
        collect env (S fuel)
          (wl ++ [mkNode (Func_ n) (ID n) (pre ++ e :: post') (Out n)]) s
        = collect env (S fuel) (wl ++ [n]) s).
Proof.
  intros Hin He.
  assert (Hrun : forall post',
    collect env (S fuel) (wl ++ [mkNode (Func_ n) (ID n) (pre ++ e :: post') (Out n)]) s
    = collectEdges env (collect env fuel) (collectFnDef env fuel) wl n pre s).
  { intros post'. simpl. unfold collectBody. rewrite popLast_snoc. simpl.
    rewrite collectEdges_invalid by exact He.
    apply collectEdges_node. reflexivity. }
  assert (Hn : collect env (S fuel) (wl ++ [n]) s
               = collectEdges env (collect env fuel) (collectFnDef env fuel) wl n pre s).
  { simpl. unfold collectBody. rewrite popLast_snoc. simpl. rewrite Hin.
    apply collectEdges_invalid, He. }
  split; [exact Hn |]. split.
  - intros ->. rewrite Hn. reflexivity.
  - intros post'. rewrite Hn. apply Hrun.
Qed.

(** The node of [bar] with the edge without position between two calls
    from [foo], and with that edge first. *)
Lemma invalid_edge_ends_node_witness :
  collect Readme.env 8 [InvalidEdge.node] InvalidFirst.start
  = collectEdges Readme.env (collect Readme.env 7) (collectFnDef Readme.env 7) []
      InvalidEdge.node [Readme.edgeFooBar] InvalidFirst.start
  /\ collect Readme.env 8 [InvalidFirst.node] InvalidFirst.start
     = collect Readme.env 7 [] InvalidFirst.start.
Proof.
  split.
  - apply (invalid_edge_ends_node Readme.env 7 [] InvalidEdge.node
             [Readme.edgeFooBar] [Readme.edgeFooBar] InvalidEdge.noSite);
      reflexivity.
  - apply (invalid_edge_ends_node Readme.env 7 [] InvalidFirst.node
             [] [Readme.edgeFooBar] InvalidEdge.noSite); reflexivity.
Defined.

(** C8 fails as stated: the call of [bar] from [foo] follows an edge
    without position among the inbound edges of [bar], and nothing is
    recorded for it; on its own it is recorded, and [foo] is classed. *)
Lemma invalid_edge_drops_later_edges :
  collect Readme.env noFuel [InvalidFirst.node] InvalidFirst.start
  = Done (tt, InvalidFirst.start)
  /\ exists s',
       collect Readme.env noFuel [InvalidFirst.valid] InvalidFirst.start = Done (tt, s')
       /\ callSites (acfg s') !! (21, None) = Some RefCommon
       /\ fnVisited (acfg s') !! (20, None) = Some regularFn
       /\ callSites (acfg InvalidFirst.start) !! (21, None) = None
       /\ fnVisited (acfg InvalidFirst.start) !! (20, None) = None.
Proof.
  split; [vm_compute; reflexivity |].
  destruct (collect Readme.env noFuel [InvalidFirst.valid] InvalidFirst.start)
    as [[[] s']| | |] eqn:E; try (vm_compute in E; discriminate).
  exists s'. split; [reflexivity |].
  vm_compute in E. inversion E. subst s'.
  repeat split; vm_compute; reflexivity.
Qed.

(** ** The loop of [analyze] over the interfaces and named types *)

(** C3, at the failing input [Closure]: the analysis returns, and one
    more pass of [collectIfaces] and [collectNamedTypes] over the state
    that it returns adds the interface [K] to [ifaceModified] and classes
    [T2.Foo] and [K.Foo], which the analysis had left out.  [T2] implements
    [J], whose method [Foo] the analysis has marked, and the pass in which
    [J] was marked had visited [T2.Foo] before. *)
Theorem closure_loop_stops_early :
  exists s1 s2,
    analyze Closure.env noFuel Closure.start = Done (tt, s1)
    /\ Closure.pass s1 = Done (tt, s2)
    /\ ifaceModified (acfg s1) !! 2%nat = Some {["Foo"]}
    /\ ifaceModified (acfg s1) !! 3%nat = None
    /\ ifaceModified (acfg s2) !! 3%nat = Some {["Foo"]}
    /\ fnVisited (acfg s1) !! (320, None) = None
    /\ fnVisited (acfg s2) !! (320, None) = Some regularFn
    /\ fnVisited (acfg s1) !! (121, None) = None
    /\ fnVisited (acfg s2) !! (121, None) = Some regularFn.
Proof.
  destruct (analyze Closure.env noFuel Closure.start) as [[[] s1]| | |] eqn:E1;
    try (vm_compute in E1; discriminate).
  destruct (Closure.pass s1) as [[[] s2]| | |] eqn:E2;
    try (vm_compute in E1; inversion E1; subst s1; vm_compute in E2; discriminate).
  exists s1, s2. split; [reflexivity |]. split; [exact E2 |].
  vm_compute in E1. inversion E1. subst s1. clear E1.
  vm_compute in E2. inversion E2. subst s2. clear E2.
  repeat split; vm_compute; reflexivity.
Qed.

(** ** A caller that has a context parameter *)

Lemma isFirstParamContext_same cfg cfg' sig :
  json cfg' = json cfg ->
  ctxParamTypeWithPkgPathName cfg' = ctxParamTypeWithPkgPathName cfg ->
  ctxCustomParamTypeWithPkgPathName cfg' = ctxCustomParamTypeWithPkgPathName cfg ->
  isFirstParamContext cfg' sig = isFirstParamContext cfg sig.
Proof. intros H1 H2 H3. unfold isFirstParamContext. by rewrite H1, H2, H3. Qed.

Lemma getUniquePosSSAFn_same cfg cfg' f pos :
  largeCode cfg' = largeCode cfg -> fsets cfg' = fsets cfg ->
  getUniquePosSSAFn cfg' f pos = getUniquePosSSAFn cfg f pos.
Proof. intros H1 H2. unfold getUniquePosSSAFn, getUniquePosPkg. by rewrite H1, H2. Qed.



